(** * Stub generator (mypy/stubgen.py): a shallow embedding and its properties

    The development follows the layout of [mypy/stubgen.py]:
    - [Str]: the Python string operations the generator uses;
    - [Nodes]: the syntax-tree shapes of [mypy.nodes] the generator inspects;
    - [Run], [Traverser]: the visitor monad (fields and exceptions) and the
      traversal that the visitors inherit;
    - [Gen]: the [StubGenerator] visitor and the two collectors;
    - [Props], [StrFacts], [FrameFacts]: the predicates of the statements
      and the facts shared by the proofs;
    - the properties, one module per topic. *)

From Stdlib Require Import ZArith String Ascii.
From stdpp Require Import base list strings gmap pretty.

Set Warnings "-register-all".

(* ===================================================================== *)
(** ** Python string operations *)
(* ===================================================================== *)

Module Str.

(** The line break, Python's ['\n']. *)
Definition nl : string := String "010"%char "".

(** [s.startswith(p)]. *)
Definition startswith (s p : string) : bool := String.prefix p s.

(** [s.endswith(suf)]: some tail of [s] is [suf]. *)
Fixpoint endswith (s suf : string) : bool :=
  if String.eqb s suf then true
  else match s with
       | EmptyString => false
       | String _ s' => endswith s' suf
       end.

(** [sub in s]: [sub] starts at some position of [s]. *)
Fixpoint contains (sub s : string) : bool :=
  if String.prefix sub s then true
  else match s with
       | EmptyString => false
       | String _ s' => contains sub s'
       end.

(** [s[:-k]] for a positive [k]: all but the last [k] characters
    (the empty string when [s] is shorter). *)
Definition drop_last (k : nat) (s : string) : string :=
  String.substring 0 (String.length s - k) s.

(** [sep.join(l)]. *)
Definition join (sep : string) (l : list string) : string :=
  String.concat sep l.

(** [''.join(l)]. *)
Definition cat (l : list string) : string := String.concat "" l.

(** [str(n)] for an integer. *)
Definition str_int (n : Z) : string := pretty n.

End Str.

(* ===================================================================== *)
(** ** Syntax tree (the shapes of mypy.nodes that stubgen.py inspects) *)
(* ===================================================================== *)

Module Nodes.

(** Argument kinds of [mypy.nodes]. *)
Inductive arg_kind := ARG_POS | ARG_OPT | ARG_STAR | ARG_NAMED | ARG_STAR2.

#[global] Instance arg_kind_eq_dec : EqDecision arg_kind.
Proof. solve_decision. Defined.

(** Expressions.  [FloatExpr] carries the text [str] gives for its value;
    [CallExpr] stands for the expression classes stubgen.py never tests
    for. *)
Inductive expr :=
| IntExpr (value : Z)
| StrExpr (value : string)
| BytesExpr (value : string)
| FloatExpr (value : string)
| UnaryExpr (op : string) (e : expr)
| NameExpr (name : string)
| MemberExpr (e : expr) (name : string)
| TupleExpr (items : list expr)
| ListExpr (items : list expr)
| ComparisonExpr (operators : list string) (operands : list expr)
| CallExpr (callee : expr) (args : list expr).

(** Statements: the node classes of the generator's input.  A function's
    [init] holds, per parameter, the right-hand side of its initialiser
    ([o.init[i].rvalue]) or [None]; the initialiser itself assigns to the
    parameter's name.  A block is the list of its statements.
    [ExpressionStmt] and [PassStmt] stand for the statements without nested
    statements. *)
Inductive stmt :=
| FuncDef (name : string) (args : list string) (arg_kinds : list arg_kind)
          (init : list (option expr)) (body : list stmt)
| Decorator (func : stmt) (decorators : list expr)
| ClassDef (name : string) (base_type_exprs : list expr) (defs : list stmt)
| AssignmentStmt (lvalues : list expr) (rvalue : expr)
| IfStmt (conds : list expr) (body : list (list stmt))
         (else_body : option (list stmt))
| ImportAll (id : string)
| ExpressionStmt (e : expr)
| PassStmt.

(** Induction over statements that reaches the statements nested in
    blocks. *)
Section stmt_induction.
Variable P : stmt → Prop.
Hypothesis HFunc : ∀ name args kinds init body,
  Forall P body → P (FuncDef name args kinds init body).
Hypothesis HDec : ∀ func decorators, P func → P (Decorator func decorators).
Hypothesis HClass : ∀ name bases defs,
  Forall P defs → P (ClassDef name bases defs).
Hypothesis HAssign : ∀ lvalues rvalue, P (AssignmentStmt lvalues rvalue).
Hypothesis HIf : ∀ conds body else_body,
  Forall (Forall P) body →
  from_option (Forall P) True else_body →
  P (IfStmt conds body else_body).
Hypothesis HImport : ∀ id, P (ImportAll id).
Hypothesis HExpr : ∀ e, P (ExpressionStmt e).
Hypothesis HPass : P PassStmt.

Fixpoint stmt_nested_ind (s : stmt) : P s :=
  let block := fix block (l : list stmt) : Forall P l :=
    match l with
    | [] => Forall_nil_2 P
    | x :: r => Forall_cons_2 P x r (stmt_nested_ind x) (block r)
    end in
  match s with
  | FuncDef name args kinds init body =>
      HFunc name args kinds init body (block body)
  | Decorator func decorators => HDec func decorators (stmt_nested_ind func)
  | ClassDef name bases defs => HClass name bases defs (block defs)
  | AssignmentStmt lvalues rvalue => HAssign lvalues rvalue
  | IfStmt conds body else_body =>
      HIf conds body else_body
        ((fix blocks (bs : list (list stmt)) : Forall (Forall P) bs :=
            match bs with
            | [] => Forall_nil_2 (Forall P)
            | b :: r => Forall_cons_2 (Forall P) b r (block b) (blocks r)
            end) body)
        (match else_body as e return from_option (Forall P) True e with
         | Some b => block b
         | None => I
         end)
  | ImportAll id => HImport id
  | ExpressionStmt e => HExpr e
  | PassStmt => HPass
  end.
End stmt_induction.

End Nodes.

(* ===================================================================== *)
(** ** Exceptions and the visitor monad *)
(* ===================================================================== *)

Module Run.

(** The Python exceptions the generator can raise on a syntax tree. *)
Inductive exn := IndexError | AttributeError | UnboundLocalError.

Inductive result (A : Type) :=
| Ok (a : A)
| Raise (e : exn).
Arguments Ok {A} a.
Arguments Raise {A} e.

(** A method of a visitor whose fields are [St]: it returns a value and the
    new fields, or raises. *)
Definition M (St A : Type) : Type := St → result (A * St).

#[global] Instance M_ret {St} : MRet (M St) := λ A a g, Ok (a, g).
#[global] Instance M_bind {St} : MBind (M St) := λ A B f m g,
  match m g with
  | Ok (a, g') => f a g'
  | Raise e => Raise e
  end.

Definition raise {St A} (e : exn) : M St A := λ _, Raise e.
Definition get {St} : M St St := λ g, Ok (g, g).
Definition modify {St} (f : St → St) : M St unit := λ g, Ok (tt, f g).

(** [for x in l: body(x)]. *)
Fixpoint for_each {St A} (body : A → M St unit) (l : list A) : M St unit :=
  match l with
  | [] => mret tt
  | x :: r => body x ;; for_each body r
  end.

(** The fields after a call that returned, if it did. *)
Definition exec {St A} (m : M St A) (g : St) : result St :=
  match m g with
  | Ok (_, g') => Ok g'
  | Raise e => Raise e
  end.

End Run.

(* ===================================================================== *)
(** ** The inherited traversal *)
(* ===================================================================== *)

Module Traverser.
Import Nodes Run.

Section accept.
Context {St : Type}.

(** The visit methods of a visitor class: [visit o super] is the method
    the class has for node [o], where [super] is what the inherited
    method of [TraverserVisitor] does on [o]. *)
Variable visit : stmt → M St unit → M St unit.

(** Modelled from the spec: mypy.traverser.TraverserVisitor is not under
    src/.  [o.accept(visitor)] calls the visitor's method for the class
    of [o]; the inherited method visits the statements nested in [o] in
    document order: the body of a function, the function wrapped by a
    decorator node, the body of a class, and each branch body of a
    conditional followed by its else body.  Visiting an expression, a
    variable node or the initialiser of a parameter reaches no statement
    and does nothing in the visitors of stubgen.py: none overrides an
    expression method, and an initialiser assigns to a bare name. *)
Fixpoint accept (o : stmt) : M St unit :=
  let visit_block := for_each accept in
  visit o
    match o with
    | FuncDef _ _ _ _ body => visit_block body
    | Decorator func _ => accept func
    | ClassDef _ _ defs => visit_block defs
    | IfStmt _ body else_body =>
        for_each visit_block body ;;
        match else_body with
        | Some b => visit_block b
        | None => mret tt
        end
    | AssignmentStmt _ _ | ImportAll _ | ExpressionStmt _ | PassStmt =>
        mret tt
    end.

(** Modelled from the spec: the inherited [visit_mypy_file], which visits
    the top-level statements of the module in document order. *)
Definition accept_file (defs : list stmt) : M St unit :=
  for_each accept defs.
End accept.

End Traverser.

(* ===================================================================== *)
(** ** The generator *)
(* ===================================================================== *)

Module Gen.
Import Nodes Run Traverser.

(** What was generated previously. *)
Inductive prev := EMPTY | FUNC | CLASS | EMPTY_CLASS | VAR.

#[global] Instance prev_eq_dec : EqDecision prev.
Proof. solve_decision. Defined.

(** The fields of a [StubGenerator]. *)
Record StubGenerator := mkGen {
  _output : list string;
  _import_lines : list string;
  _imports : list string;
  _indent : string;
  _vars : list (list string);
  _state : prev;
  _classes : gset string
}.

(** [__init__].  The attribute [_classes] exists only once
    [visit_mypy_file] has set it, which every run does first; until then it
    is modelled as the empty set. *)
Definition init : StubGenerator :=
  {| _output := []; _import_lines := []; _imports := []; _indent := "";
     _vars := [[]]; _state := EMPTY; _classes := ∅ |}.

Definition set_output (f : list string → list string) (g : StubGenerator) :=
  mkGen (f (_output g)) (_import_lines g) (_imports g) (_indent g) (_vars g)
        (_state g) (_classes g).
Definition set_import_lines (f : list string → list string) (g : StubGenerator) :=
  mkGen (_output g) (f (_import_lines g)) (_imports g) (_indent g) (_vars g)
        (_state g) (_classes g).
Definition set_imports (f : list string → list string) (g : StubGenerator) :=
  mkGen (_output g) (_import_lines g) (f (_imports g)) (_indent g) (_vars g)
        (_state g) (_classes g).
Definition set_indent (f : string → string) (g : StubGenerator) :=
  mkGen (_output g) (_import_lines g) (_imports g) (f (_indent g)) (_vars g)
        (_state g) (_classes g).
Definition set_vars (f : list (list string) → list (list string))
    (g : StubGenerator) :=
  mkGen (_output g) (_import_lines g) (_imports g) (_indent g) (f (_vars g))
        (_state g) (_classes g).
Definition set_state (s : prev) (g : StubGenerator) :=
  mkGen (_output g) (_import_lines g) (_imports g) (_indent g) (_vars g)
        s (_classes g).
Definition set_classes (c : gset string) (g : StubGenerator) :=
  mkGen (_output g) (_import_lines g) (_imports g) (_indent g) (_vars g)
        (_state g) c.

Abbreviation Visit := (M StubGenerator).

(** [is_private_name]. *)
Definition is_private_name (name : string) : bool :=
  Str.startswith name "_" &&
  (negb (Str.endswith name "__") ||
   bool_decide (name ∈ ["__all__"; "__author__"; "__version__"])).

(** [add]. *)
Definition add (s : string) : Visit unit :=
  modify (set_output (λ out, out ++ [s])).

(** [add_import]. *)
Definition add_import (name : string) : Visit unit :=
  g ← get;
  if bool_decide (name ∈ _imports g) then mret tt
  else modify (set_imports (λ l, l ++ [name])).

(** [add_import_line]. *)
Definition add_import_line (line : string) : Visit unit :=
  modify (set_import_lines (λ l, l ++ [line])).

(** [add_init]: [self._vars[-1]] raises on an empty stack. *)
Definition add_init (lvalue : string) : Visit bool :=
  g ← get;
  match last (_vars g) with
  | None => raise IndexError
  | Some scope =>
      if bool_decide (lvalue ∈ scope) then mret false
      else if is_private_name lvalue then mret false
      else
        modify (set_vars (λ vs, alter (λ sc, sc ++ [lvalue])
                                      (length vs - 1) vs)) ;;
        add (_indent g +:+ lvalue +:+ " = Undefined(Any)" +:+ Str.nl) ;;
        add_import "Undefined" ;;
        add_import "Any" ;;
        mret true
  end.

(** [find_self_initializers]: the override of [SelfTraverser]; its
    [results] list is the visitor's only field. *)
Definition SelfTraverser (o : stmt) (super : M (list string) unit)
    : M (list string) unit :=
  match o with
  | AssignmentStmt lvalues _ =>
      match lvalues !! 0 with
      | None => raise IndexError
      | Some (MemberExpr (NameExpr receiver) name) =>
          if bool_decide (receiver = "self")
          then modify (λ results, results ++ [name])
          else mret tt
      | Some _ => mret tt
      end
  | _ => super
  end.

Definition find_self_initializers (fdef : stmt) : result (list string) :=
  exec (accept SelfTraverser fdef) [].

(** [find_classes]: the override of [ClassTraverser], which does not call
    the inherited method. *)
Definition ClassTraverser (o : stmt) (super : M (gset string) unit)
    : M (gset string) unit :=
  match o with
  | ClassDef name _ _ => modify (λ results, results ∪ {[name]})
  | _ => super
  end.

Definition find_classes (cdef : list stmt) : result (gset string) :=
  exec (accept_file ClassTraverser cdef) ∅.

(** [init.expr.value] in the unary case: only the literal nodes have a
    [value] attribute. *)
Definition value_attr (e : expr) : result string :=
  match e with
  | IntExpr v => Ok (Str.str_int v)
  | StrExpr v | BytesExpr v | FloatExpr v => Ok v
  | _ => Raise AttributeError
  end.

(** The [isinstance] chain of [visit_func_def] on a default value
    ([init.rvalue]): the text appended to ['name=']. *)
Definition render_default (rvalue : expr) : Visit string :=
  match rvalue with
  | IntExpr v => mret (Str.str_int v)
  | StrExpr _ => mret "''"
  | BytesExpr _ => mret "b''"
  | FloatExpr _ => mret "0.0"
  | UnaryExpr _ e =>
      match value_attr e with
      | Ok v => mret ("-" +:+ v)
      | Raise x => raise x
      end
  | NameExpr name =>
      if bool_decide (name = "None") then mret name
      else add_import "Undefined" ;; mret "Undefined"
  | _ => add_import "Undefined" ;; mret "Undefined"
  end.

(** One iteration of the parameter loop of [visit_func_def]: [args] is the
    list built so far, [i] the index, [name] and [kind] the zipped pair. *)
Definition render_arg (init : list (option expr)) (args : list string)
    (i : nat) (name : string) (kind : arg_kind) : Visit (list string) :=
  match init !! i with
  | None => raise IndexError
  | Some (Some rvalue) =>
      let args :=
        if bool_decide (kind = ARG_NAMED) && negb (bool_decide ("*" ∈ args))
        then args ++ ["*"] else args in
      d ← render_default rvalue;
      mret (args ++ [name +:+ "=" +:+ d])
  | Some None =>
      if bool_decide (kind = ARG_STAR) then mret (args ++ ["*" +:+ name])
      else if bool_decide (kind = ARG_STAR2) then mret (args ++ ["**" +:+ name])
      else mret (args ++ [name])
  end.

(** [for i, (arg, kind) in enumerate(zip(o.args, o.arg_kinds))]. *)
Fixpoint render_args (init : list (option expr)) (args : list string)
    (i : nat) (zipped : list (string * arg_kind)) : Visit (list string) :=
  match zipped with
  | [] => mret args
  | (name, kind) :: rest =>
      args ← render_arg init args i name kind;
      render_args init args (S i) rest
  end.

(** [visit_func_def]. *)
Definition visit_func_def (o : stmt) (name : string) (args : list string)
    (arg_kinds : list arg_kind) (init : list (option expr)) : Visit unit :=
  if is_private_name name then mret tt
  else
    g ← get;
    (if bool_decide (_indent g = "") &&
        negb (bool_decide (_state g ∈ [EMPTY; FUNC]))
     then add Str.nl else mret tt) ;;
    match find_self_initializers o with
    | Raise x => raise x
    | Ok self_inits =>
        for_each (λ i, add_init i ;; mret tt) self_inits ;;
        add (_indent g +:+ "def " +:+ name +:+ "(") ;;
        rendered ← render_args init [] 0 (zip args arg_kinds);
        add (Str.join ", " rendered) ;;
        add ("): pass" +:+ Str.nl) ;;
        modify (set_state FUNC)
    end.

(** One iteration of the loop of [visit_decorator]. *)
Definition visit_one_decorator (decorator : expr) : Visit unit :=
  g ← get;
  match decorator with
  | NameExpr name =>
      if bool_decide (name ∈ ["property"; "staticmethod"; "classmethod"])
      then add (_indent g +:+ "@" +:+ name +:+ Str.nl)
      else mret tt
  | MemberExpr (NameExpr name) attr =>
      if bool_decide (attr = "setter")
      then add (_indent g +:+ "@" +:+ name +:+ ".setter" +:+ Str.nl)
      else mret tt
  | _ => mret tt
  end.

(** [visit_decorator]. *)
Definition visit_decorator (decorators : list expr) (super : Visit unit)
    : Visit unit :=
  for_each visit_one_decorator decorators ;;
  super.

(** The test of the base-class loop of [visit_class_def]: the name of a
    base that is kept. *)
Definition kept_base (classes : gset string) (base : expr) : option string :=
  match base with
  | NameExpr name =>
      if bool_decide (name ∈ classes) || Str.endswith name "Exception" ||
         Str.endswith name "Error"
      then Some name else None
  | _ => None
  end.

(** The list [base_types] that the loop builds. *)
Definition base_types (classes : gset string) (base_type_exprs : list expr)
    : list string :=
  omap (kept_base classes) base_type_exprs.

(** [visit_class_def] up to the call of the inherited method: the blank
    line and the header.  Returns the local [sep], unbound ([None]) when
    the first branch is not taken, and the local [n]. *)
Definition class_header (name : string) (base_type_exprs : list expr)
    : Visit (option nat * nat) :=
  g ← get;
  sep ← (if bool_decide (_indent g = "") &&
            negb (bool_decide (_state g = EMPTY))
         then add Str.nl ;; mret (Some (length (_output g)))
         else mret None);
  add ("class " +:+ name) ;;
  (let bases := base_types (_classes g) base_type_exprs in
   match bases with
   | [] => mret tt
   | _ :: _ => add ("(" +:+ Str.join ", " bases +:+ ")")
   end) ;;
  add (":" +:+ Str.nl) ;;
  g ← get;
  modify (set_indent (λ i, i +:+ "    ")) ;;
  modify (set_vars (λ vs, vs ++ [[]])) ;;
  mret (sep, length (_output g)).

(** [self._output[sep] = '']: [sep] may be unbound, and an index past the
    end raises. *)
Definition retract (sep : option nat) : Visit unit :=
  g ← get;
  match sep with
  | None => raise UnboundLocalError
  | Some i =>
      if bool_decide (i < length (_output g))
      then modify (set_output (λ out, <[i := ""]> out))
      else raise IndexError
  end.

(** [self._output[-1] = self._output[-1][:-1] + ' pass\n']. *)
Definition rewrite_last : Visit unit :=
  g ← get;
  match last (_output g) with
  | None => raise IndexError
  | Some frag =>
      modify (set_output (λ out,
        <[length out - 1 := Str.drop_last 1 frag +:+ " pass" +:+ Str.nl]> out))
  end.

(** [visit_class_def] after the call of the inherited method. *)
Definition class_footer (sep : option nat) (n : nat) : Visit unit :=
  modify (set_indent (Str.drop_last 4)) ;;
  g ← get;
  match _vars g with
  | [] => raise IndexError
  | _ :: _ =>
      modify (set_vars (λ vs, removelast vs)) ;;
      if bool_decide (length (_output g) = n) then
        (if bool_decide (_state g = EMPTY_CLASS) then retract sep
         else mret tt) ;;
        rewrite_last ;;
        modify (set_state EMPTY_CLASS)
      else modify (set_state CLASS)
  end.

(** [visit_class_def]. *)
Definition visit_class_def (name : string) (base_type_exprs : list expr)
    (super : Visit unit) : Visit unit :=
  '(sep, n) ← class_header name base_type_exprs;
  super ;;
  class_footer sep n.

(** The targets of [visit_assignment_stmt]. *)
Definition items_of (lvalue : expr) : list expr :=
  match lvalue with
  | TupleExpr items | ListExpr items => items
  | _ => [lvalue]
  end.

(** The loop of [visit_assignment_stmt], with its locals [sep] and
    [found]. *)
Fixpoint assign_items (items : list expr) (sep found : bool) : Visit bool :=
  match items with
  | [] => mret found
  | item :: rest =>
      match item with
      | NameExpr name =>
          g ← get;
          let blank :=
            negb sep && bool_decide (_indent g = "") &&
            negb (bool_decide (_state g ∈ [EMPTY; VAR])) in
          (if blank then add Str.nl else mret tt) ;;
          declared ← add_init name;
          assign_items rest (sep || blank) (declared || found)
      | _ => assign_items rest sep found
      end
  end.

(** [visit_assignment_stmt]. *)
Definition visit_assignment_stmt (lvalues : list expr) : Visit unit :=
  match lvalues !! 0 with
  | None => raise IndexError
  | Some lvalue =>
      found ← assign_items (items_of lvalue) false false;
      if found : bool then modify (set_state VAR) else mret tt
  end.

(** The condition of [visit_if_stmt], evaluated left to right with the
    short cuts of [and]; the subscripts raise past the end. *)
Definition is_main_guard (expr : Nodes.expr) : result bool :=
  match expr with
  | ComparisonExpr _ operands =>
      match operands !! 0 with
      | None => Raise IndexError
      | Some (NameExpr name) =>
          match operands !! 1 with
          | None => Raise IndexError
          | Some (StrExpr value) =>
              Ok (bool_decide (name = "__name__") &&
                  Str.contains "__main__" value)
          | Some _ => Ok false
          end
      | Some _ => Ok false
      end
  | _ => Ok false
  end.

(** [visit_if_stmt]. *)
Definition visit_if_stmt (conds : list expr) (super : Visit unit)
    : Visit unit :=
  match conds !! 0 with
  | None => raise IndexError
  | Some expr =>
      match is_main_guard expr with
      | Raise x => raise x
      | Ok true => mret tt
      | Ok false => super
      end
  end.

(** [visit_import_all]. *)
Definition visit_import_all (id : string) : Visit unit :=
  add_import_line ("from " +:+ id +:+ " import *" +:+ Str.nl).

(** The visit methods of [StubGenerator]; a node class without one uses
    the inherited method. *)
Definition visit (o : stmt) (super : Visit unit) : Visit unit :=
  match o with
  | FuncDef name args arg_kinds init _ =>
      visit_func_def o name args arg_kinds init
  | Decorator _ decorators => visit_decorator decorators super
  | ClassDef name base_type_exprs _ =>
      visit_class_def name base_type_exprs super
  | AssignmentStmt lvalues _ => visit_assignment_stmt lvalues
  | IfStmt conds _ _ => visit_if_stmt conds super
  | ImportAll id => visit_import_all id
  | ExpressionStmt _ | PassStmt => super
  end.

(** [o.accept(gen)] for a statement and for a block. *)
Definition accept_stmt : stmt → Visit unit := accept visit.
Definition accept_block : list stmt → Visit unit := for_each accept_stmt.

(** [visit_mypy_file]. *)
Definition visit_mypy_file (defs : list stmt) : Visit unit :=
  match find_classes defs with
  | Raise x => raise x
  | Ok classes =>
      modify (set_classes classes) ;;
      accept_file visit defs
  end.

(** [output]. *)
Definition output (g : StubGenerator) : string :=
  let imports := "" in
  let imports :=
    match _imports g with
    | [] => imports
    | _ :: _ =>
        imports +:+ "from typing import " +:+ Str.join ", " (_imports g)
                +:+ Str.nl
    end in
  let imports :=
    match _import_lines g with
    | [] => imports
    | _ :: _ => imports +:+ Str.cat (_import_lines g)
    end in
  let imports :=
    if bool_decide (imports = "") then imports else imports +:+ Str.nl in
  imports +:+ Str.cat (_output g).

(** [generate_stub] without the file access: the text written for the
    module whose top-level statements are [defs]. *)
Definition generate_stub (defs : list stmt) : result string :=
  match exec (visit_mypy_file defs) init with
  | Raise x => Raise x
  | Ok gen => Ok (output gen)
  end.

End Gen.

(* ===================================================================== *)
(** ** Predicates used in the statements *)
(* ===================================================================== *)

Module Props.
Import Nodes Run Traverser Gen.

(** The default-value shapes that [visit_func_def] tests for before its
    final [else]: the four literal classes, every [UnaryExpr], and the
    name [None]. *)
Definition literal_shape (rvalue : expr) : bool :=
  match rvalue with
  | IntExpr _ | StrExpr _ | BytesExpr _ | FloatExpr _ | UnaryExpr _ _ => true
  | NameExpr name => bool_decide (name = "None")
  | _ => false
  end.

(** A parameter has a default value. *)
Definition has_default (init : list (option expr)) (i : nat) : Prop :=
  ∃ rvalue, init !! i = Some (Some rvalue).

(** A list that only had elements appended. *)
Definition grows {A} (l l' : list A) : Prop := ∃ ext, l' = l ++ ext.

(** A scope stack whose innermost scope only had names appended. *)
Definition scope_grows (vs vs' : list (list string)) : Prop :=
  ∃ ext, vs' = alter (λ scope, scope ++ ext) (length vs - 1) vs.

(** A line recorded by [visit_import_all]. *)
Definition wildcard_line (line : string) : Prop :=
  ∃ id, line = "from " +:+ id +:+ " import *" +:+ Str.nl.

(** What every visit leaves alone, whatever it emits. *)
Record frame0 (g g' : StubGenerator) : Prop := {
  frame_indent : _indent g' = _indent g;
  frame_classes : _classes g' = _classes g;
  frame_output : grows (_output g) (_output g');
  frame_vars : scope_grows (_vars g) (_vars g');
  frame_imports : NoDup (_imports g) → NoDup (_imports g');
  frame_import_lines :
    Forall wildcard_line (_import_lines g) →
    Forall wildcard_line (_import_lines g')
}.

(** A visit that emitted nothing left the formatting state as it was. *)
Definition frame (g g' : StubGenerator) : Prop :=
  frame0 g g' ∧
  (length (_output g') = length (_output g) → _state g' = _state g).

(** A method that, when it returns, kept the frame and the formatting
    state. *)
Definition steady {A} (m : Visit A) : Prop :=
  ∀ g a g', m g = Ok (a, g') → frame0 g g' ∧ _state g' = _state g.

(** A method that, when it returns, kept the frame, and the formatting
    state too unless it emitted something. *)
Definition framed {A} (m : Visit A) : Prop :=
  ∀ g a g', m g = Ok (a, g') → frame g g'.

(** The generator later in the scope of [g]: the scope stack has the
    height it has in [g], the scopes under the innermost one are those of
    [g], and the innermost scope is that of [g] with names appended.  The
    other fields are free: whatever the generator does without leaving the
    scope leads to such fields. *)
Definition later (g g' : StubGenerator) : Prop :=
  scope_grows (_vars g) (_vars g').

(** The class names that the walk of [find_classes] reaches below a
    statement: a class counts itself and hides its body. *)
Fixpoint outer_classes (o : stmt) : gset string :=
  match o with
  | ClassDef name _ _ => {[name]}
  | FuncDef _ _ _ _ body => ⋃ (outer_classes <$> body)
  | Decorator func _ => outer_classes func
  | IfStmt _ body else_body =>
      ⋃ ((λ b, ⋃ (outer_classes <$> b)) <$> body) ∪
      match else_body with
      | Some b => ⋃ (outer_classes <$> b)
      | None => ∅
      end
  | AssignmentStmt _ _ | ImportAll _ | ExpressionStmt _ | PassStmt => ∅
  end.

Definition outer_classes_block (l : list stmt) : gset string :=
  ⋃ (outer_classes <$> l).

(** The fragments of a class header: the name, the kept bases, and the
    colon followed by [tail]. *)
Definition header_fragments (classes : gset string) (name : string)
    (base_type_exprs : list expr) (tail : string) : list string :=
  ["class " +:+ name] ++
  match base_types classes base_type_exprs with
  | [] => []
  | b :: bases => ["(" +:+ Str.join ", " (b :: bases) +:+ ")"]
  end ++
  [":" +:+ tail].

(** The first test of [visit_class_def]: a blank-line slot is reserved. *)
Definition reserved (g : StubGenerator) : bool :=
  bool_decide (_indent g = "") && negb (bool_decide (_state g = EMPTY)).

(** The fields when [visit_class_def] calls the inherited method. *)
Definition enter_class (name : string) (base_type_exprs : list expr)
    (g : StubGenerator) : StubGenerator :=
  mkGen (_output g ++ (if reserved g then [Str.nl] else []) ++
           header_fragments (_classes g) name base_type_exprs Str.nl)
        (_import_lines g) (_imports g) (_indent g +:+ "    ")
        (_vars g ++ [[]]) (_state g) (_classes g).

(** The blank-line slot in front of a class header, as it is when the
    visit of an empty class returns: none when none was reserved, emptied
    after an empty class, a line break otherwise. *)
Definition slot_fragments (g : StubGenerator) : list string :=
  if reserved g
  then [if bool_decide (_state g = EMPTY_CLASS) then "" else Str.nl]
  else [].

(** The local [sep] of [visit_class_def], unbound when no slot is
    reserved. *)
Definition slot (g : StubGenerator) : option nat :=
  if reserved g then Some (length (_output g)) else None.

(** The fields when the visit of a class returns: [out] is the output,
    [kind] the formatting state, and [g2] the fields after the body. *)
Definition leave_class (g2 : StubGenerator) (out : list string)
    (kind : prev) : StubGenerator :=
  mkGen out (_import_lines g2) (_imports g2) (Str.drop_last 4 (_indent g2))
        (removelast (_vars g2)) kind (_classes g2).

(** The import header of [output], part by part. *)
Definition helper_import (imports : list string) : string :=
  match imports with
  | [] => ""
  | _ :: _ => "from typing import " +:+ Str.join ", " imports +:+ Str.nl
  end.

Definition blank_after_imports (imports import_lines : list string)
    : string :=
  match imports, import_lines with
  | [], [] => ""
  | _, _ => Str.nl
  end.

End Props.

(* ===================================================================== *)
(** ** Predicates for the rest of the generator *)
(* ===================================================================== *)

Module Cover.
Import Nodes Run Traverser Gen Props.

(** The attribute names that the walk of [find_self_initializers] records
    below a statement, in document order: an assignment whose first target
    is an attribute of the name [self] gives its attribute name. *)
Fixpoint self_names (o : stmt) : list string :=
  match o with
  | AssignmentStmt lvalues _ =>
      match lvalues !! 0 with
      | Some (MemberExpr (NameExpr receiver) name) =>
          if bool_decide (receiver = "self") then [name] else []
      | _ => []
      end
  | FuncDef _ _ _ _ body => concat (self_names <$> body)
  | Decorator func _ => self_names func
  | ClassDef _ _ defs => concat (self_names <$> defs)
  | IfStmt _ body else_body =>
      concat ((λ b, concat (self_names <$> b)) <$> body) ++
      match else_body with
      | Some b => concat (self_names <$> b)
      | None => []
      end
  | ImportAll _ | ExpressionStmt _ | PassStmt => []
  end.

(** Every assignment at or below a statement has a target, so that
    [o.lvalues[0]] exists. *)
Fixpoint has_targets (o : stmt) : bool :=
  match o with
  | AssignmentStmt lvalues _ =>
      match lvalues with [] => false | _ :: _ => true end
  | FuncDef _ _ _ _ body => forallb has_targets body
  | Decorator func _ => has_targets func
  | ClassDef _ _ defs => forallb has_targets defs
  | IfStmt _ body else_body =>
      forallb (forallb has_targets) body &&
      match else_body with
      | Some b => forallb has_targets b
      | None => true
      end
  | ImportAll _ | ExpressionStmt _ | PassStmt => true
  end.

(** A default value whose rendering does not raise: a unary expression
    needs an operand with a [value] attribute. *)
Definition default_ok (d : option expr) : bool :=
  match d with
  | Some (UnaryExpr _ e) =>
      match value_attr e with Ok _ => true | Raise _ => false end
  | _ => true
  end.

(** A condition on which the test of [visit_if_stmt] does not raise. *)
Definition cond_ok (e : expr) : bool :=
  match is_main_guard e with Ok _ => true | Raise _ => false end.

(** A statement on which no subscript of the generator is out of range and
    no [value] attribute is missing: every zipped parameter of a function
    has an entry in [init], the defaults render, the assignments in function
    bodies and elsewhere have a target, and a conditional has a first
    condition that can be tested.  The generator does not walk function
    bodies; [find_self_initializers] does. *)
Fixpoint safe (o : stmt) : bool :=
  match o with
  | FuncDef _ args arg_kinds init body =>
      bool_decide (length (zip args arg_kinds) ≤ length init) &&
      forallb default_ok init && forallb has_targets body
  | Decorator func _ => safe func
  | ClassDef _ _ defs => forallb safe defs
  | AssignmentStmt lvalues _ =>
      match lvalues with [] => false | _ :: _ => true end
  | IfStmt conds body else_body =>
      match conds with [] => false | e :: _ => cond_ok e end &&
      forallb (forallb safe) body &&
      match else_body with
      | Some b => forallb safe b
      | None => true
      end
  | ImportAll _ | ExpressionStmt _ | PassStmt => true
  end.

(** The conditionals that [visit_if_stmt] returns from at once: the test
    on the first condition holds. *)
Definition skipped (conds : list expr) : bool :=
  match conds with
  | cond :: _ =>
      match is_main_guard cond with Ok true => true | _ => false end
  | [] => false
  end.

(** The generator's walk reaches no class at or below a statement: it does
    not enter function bodies, nor the conditionals that it skips. *)
Fixpoint no_class (o : stmt) : bool :=
  match o with
  | ClassDef _ _ _ => false
  | Decorator func _ => no_class func
  | IfStmt conds body else_body =>
      skipped conds ||
      (forallb (forallb no_class) body &&
       match else_body with
       | Some b => forallb no_class b
       | None => true
       end)
  | FuncDef _ _ _ _ _ | AssignmentStmt _ _ | ImportAll _ | ExpressionStmt _
  | PassStmt => true
  end.

(** No class that the generator's walk reaches has a class in its body. *)
Fixpoint flat (o : stmt) : bool :=
  match o with
  | ClassDef _ _ defs => forallb no_class defs
  | Decorator func _ => flat func
  | IfStmt conds body else_body =>
      skipped conds ||
      (forallb (forallb flat) body &&
       match else_body with
       | Some b => forallb flat b
       | None => true
       end)
  | FuncDef _ _ _ _ _ | AssignmentStmt _ _ | ImportAll _ | ExpressionStmt _
  | PassStmt => true
  end.

(** How a visit behaves from fields with a scope on the stack: it raises
    nothing but [UnboundLocalError]; it returns when [closed] holds; and it
    returns at indentation zero when [level] holds. *)
Definition behaves (closed level : bool) (m : Visit unit) : Prop :=
  ∀ g, _vars g ≠ [] →
    (∀ e, m g = Raise e → e = UnboundLocalError) ∧
    (closed = true → ∃ g', m g = Ok (tt, g')) ∧
    (level = true → _indent g = "" → ∃ g', m g = Ok (tt, g')).

(** The placeholder line of [add_init]. *)
Definition declaration (indent name : string) : string :=
  indent +:+ name +:+ " = Undefined(Any)" +:+ Str.nl.

(** The names that a run of [add_init] over [names] declares in a scope
    that holds [scope]: those neither private nor in the scope, each at its
    first occurrence. *)
Fixpoint fresh (scope names : list string) : list string :=
  match names with
  | [] => []
  | name :: rest =>
      if bool_decide (name ∈ scope) || is_private_name name
      then fresh scope rest
      else name :: fresh (scope ++ [name]) rest
  end.

(** The blank line in front of a top-level function. *)
Definition blank_before_func (g : StubGenerator) : list string :=
  if bool_decide (_indent g = "") && negb (bool_decide (_state g ∈ [EMPTY; FUNC]))
  then [Str.nl] else [].

(** The line that [visit_decorator] emits for a decorator, if any. *)
Definition decorator_line (indent : string) (decorator : expr)
    : option string :=
  match decorator with
  | NameExpr name =>
      if bool_decide (name ∈ ["property"; "staticmethod"; "classmethod"])
      then Some (indent +:+ "@" +:+ name +:+ Str.nl) else None
  | MemberExpr (NameExpr name) attr =>
      if bool_decide (attr = "setter")
      then Some (indent +:+ "@" +:+ name +:+ ".setter" +:+ Str.nl) else None
  | _ => None
  end.

(** The modules of the wildcard imports that the generator's walk reaches
    at or below a statement, in document order: it does not enter function
    bodies, nor the conditionals that [visit_if_stmt] skips. *)
Fixpoint wildcards (o : stmt) : list string :=
  match o with
  | ImportAll id => [id]
  | Decorator func _ => wildcards func
  | ClassDef _ _ defs => concat (wildcards <$> defs)
  | IfStmt conds body else_body =>
      match conds with
      | cond :: _ =>
          match is_main_guard cond with
          | Ok false =>
              concat ((λ b, concat (wildcards <$> b)) <$> body) ++
              match else_body with
              | Some b => concat (wildcards <$> b)
              | None => []
              end
          | _ => []
          end
      | [] => []
      end
  | FuncDef _ _ _ _ _ | AssignmentStmt _ _ | ExpressionStmt _ | PassStmt => []
  end.

(** The line that [visit_import_all] records for a module. *)
Definition import_all_line (id : string) : string :=
  "from " +:+ id +:+ " import *" +:+ Str.nl.

(** The helper names are registered in one order only. *)
Definition helper_names (imports : list string) : Prop :=
  imports = [] ∨ imports = ["Undefined"] ∨ imports = ["Undefined"; "Any"].

(** Every scope of the stack holds distinct names, none of them private. *)
Definition scopes_clean (vs : list (list string)) : Prop :=
  Forall (λ scope, NoDup scope ∧
                   Forall (λ name, is_private_name name = false) scope) vs.

(** A method under which a property of the fields is kept. *)
Definition preserves {A} (I : StubGenerator → Prop) (m : Visit A) : Prop :=
  ∀ g a g', I g → m g = Ok (a, g') → I g'.

(** The names that [visit_assignment_stmt] requests for a first target:
    the bare names among its items, in their order. *)
Definition bare_name (item : expr) : option string :=
  match item with
  | NameExpr name => Some name
  | _ => None
  end.

Definition target_names (lvalue : expr) : list string :=
  omap bare_name (items_of lvalue).

(** The blank line of [visit_assignment_stmt]: emitted once, before the
    first request, at indentation zero in a formatting state other than
    [EMPTY] and [VAR]. *)
Definition blank_before_var (g : StubGenerator) (names : list string)
    : list string :=
  if bool_decide (_indent g = "") &&
     negb (bool_decide (_state g ∈ [EMPTY; VAR])) &&
     bool_decide (names ≠ [])
  then [Str.nl] else [].

(** The parameter at index [i] is keyword-only and has a default value:
    the first half of the test that guards [args.append('*')]. *)
Definition keyword_default (init : list (option expr)) (i : nat)
    (kind : arg_kind) : bool :=
  bool_decide (kind = ARG_NAMED) &&
  match init !! i with
  | Some (Some _) => true
  | _ => false
  end.

(** The position, among the zipped parameters from index [i] on, of the
    first one that is keyword-only with a default value. *)
Fixpoint first_keyword_default (init : list (option expr)) (i : nat)
    (zipped : list (string * arg_kind)) : option nat :=
  match zipped with
  | [] => None
  | (_, kind) :: rest =>
      if keyword_default init i kind then Some 0
      else S <$> first_keyword_default init (S i) rest
  end.

(** A list of entries with the ['*'] entry put in front of position [k]. *)
Definition with_star (entries : list string) (k : option nat) : list string :=
  match k with
  | None => entries
  | Some k => take k entries ++ ["*"] ++ drop k entries
  end.

(** The entry of a parameter without a default value. *)
Definition plain_entry (name : string) (kind : arg_kind) : string :=
  if bool_decide (kind = ARG_STAR) then "*" +:+ name
  else if bool_decide (kind = ARG_STAR2) then "**" +:+ name
  else name.

(** The entry that the parameter loop renders for the parameter at index
    [i]: the plain entry, or the name, an equals sign and the text that
    [render_default] gives for the default value. *)
Definition entry_for (init : list (option expr)) (i : nat) (name : string)
    (kind : arg_kind) (entry : string) : Prop :=
  match init !! i with
  | Some (Some rvalue) =>
      ∃ d g g', render_default rvalue g = Ok (d, g') ∧
                entry = name +:+ "=" +:+ d
  | Some None => entry = plain_entry name kind
  | None => False
  end.

(** The entries of the zipped parameters from index [i] on, one for each
    parameter and in their order; none of them is the bare ['*']. *)
Definition entries_of (init : list (option expr)) (i : nat)
    (zipped : list (string * arg_kind)) (entries : list string) : Prop :=
  length entries = length zipped ∧
  Forall (λ entry, entry ≠ "*") entries ∧
  ∀ j name kind,
    zipped !! j = Some (name, kind) →
    ∃ entry, entries !! j = Some entry ∧ entry_for init (i + j) name kind entry.

End Cover.

(* ===================================================================== *)
(** ** Facts about the string operations *)
(* ===================================================================== *)

Module StrFacts.
Import Str.

Lemma app_nil_l (s : string) : "" +:+ s = s.
Proof. reflexivity. Qed.

Lemma app_cons (a : ascii) (s t : string) :
  String a s +:+ t = String a (s +:+ t).
Proof. reflexivity. Qed.

Lemma app_nil_r (s : string) : s +:+ "" = s.
Proof. induction s as [|a s IH]; [done|]. by rewrite app_cons, IH. Qed.

Lemma app_assoc (s t u : string) : (s +:+ t) +:+ u = s +:+ (t +:+ u).
Proof.
  induction s as [|a s IH]; [done|]. by rewrite !app_cons, IH.
Qed.

Lemma length_app (s t : string) :
  String.length (s +:+ t) = String.length s + String.length t.
Proof.
  induction s as [|a s IH]; [done|]. rewrite app_cons. simpl. by rewrite IH.
Qed.

Lemma app_eq_nil (s t : string) : s +:+ t = "" → s = "" ∧ t = "".
Proof. destruct s; [done|]. by rewrite app_cons. Qed.

Lemma substring_app (s t : string) :
  String.substring 0 (String.length s) (s +:+ t) = s.
Proof.
  induction s as [|a s IH]; simpl.
  - by destruct t.
  - by rewrite IH.
Qed.

Lemma drop_last_app (s t : string) :
  drop_last (String.length t) (s +:+ t) = s.
Proof.
  unfold drop_last. rewrite length_app.
  replace (String.length s + String.length t - String.length t)
    with (String.length s) by lia.
  apply substring_app.
Qed.

Lemma startswith_spec (s p : string) :
  startswith s p = true ↔ ∃ r, s = p +:+ r.
Proof.
  unfold startswith. revert s.
  induction p as [|a p IH]; intros s.
  - destruct s; simpl; split; eauto.
  - destruct s as [|b s]; simpl.
    + split; [done|]. intros [r Hr]. by rewrite app_cons in Hr.
    + destruct (ascii_dec a b) as [->|Hab].
      * rewrite IH. split; intros [r Hr]; exists r.
        -- by rewrite app_cons, Hr.
        -- rewrite app_cons in Hr. congruence.
      * split; [done|]. intros [r Hr]. rewrite app_cons in Hr. congruence.
Qed.

Lemma endswith_spec (s suf : string) :
  endswith s suf = true ↔ ∃ p, s = p +:+ suf.
Proof.
  induction s as [|a s IH]; cbn [endswith].
  - destruct (String.eqb_spec "" suf) as [<-|Hne].
    + split; [by exists ""|done].
    + split; [done|]. intros [p Hp]. symmetry in Hp.
      apply app_eq_nil in Hp as [_ ->]. done.
  - destruct (String.eqb_spec (String a s) suf) as [<-|Hne].
    + split; [by exists ""|done].
    + rewrite IH. split.
      * intros [p ->]. exists (String a p). by rewrite app_cons.
      * intros [[|b p] Hp].
        -- rewrite app_nil_l in Hp. congruence.
        -- rewrite app_cons in Hp. exists p. congruence.
Qed.

Lemma contains_spec (sub s : string) :
  contains sub s = true ↔ ∃ a b, s = a +:+ sub +:+ b.
Proof.
  induction s as [|c s IH]; cbn [contains].
  - destruct (String.prefix sub "") eqn:Hp.
    + split; [|done]. intros _.
      apply (startswith_spec "" sub) in Hp as [r Hr]. by exists "", r.
    + split; [done|]. intros [a [b Hab]]. symmetry in Hab.
      apply app_eq_nil in Hab as [-> Hab].
      apply app_eq_nil in Hab as [-> _]. done.
  - destruct (String.prefix sub (String c s)) eqn:Hp.
    + split; [|done]. intros _.
      apply (startswith_spec (String c s) sub) in Hp as [r Hr].
      by exists "", r.
    + rewrite IH. split.
      * intros [a [b ->]]. exists (String c a), b. by rewrite app_cons.
      * intros [[|c' a] [b Hab]].
        -- rewrite app_nil_l in Hab.
           assert (startswith (String c s) sub = true) as Hs
             by (apply startswith_spec; eauto).
           unfold startswith in Hs. congruence.
        -- rewrite app_cons in Hab. exists a, b. congruence.
Qed.

End StrFacts.

(* ===================================================================== *)
(** ** Facts about the visitor monad and the frame *)
(* ===================================================================== *)

Module FrameFacts.
Import Nodes Run Traverser Gen Props.

Lemma bind_Ok {St A B} (m : M St A) (f : A → M St B) (g : St) r :
  (m ≫= f) g = Ok r ↔ ∃ a g1, m g = Ok (a, g1) ∧ f a g1 = Ok r.
Proof.
  unfold mbind, M_bind. split.
  - destruct (m g) as [[a g1]|e]; [eauto|done].
  - by intros (a & g1 & -> & ?).
Qed.

Lemma bind_Raise {St A B} (m : M St A) (f : A → M St B) (g : St) e :
  m g = Raise e → (m ≫= f) g = Raise e.
Proof. unfold mbind, M_bind. by intros ->. Qed.

Lemma bind_step {St A B} (m : M St A) (f : A → M St B) (g g1 : St) a :
  m g = Ok (a, g1) → (m ≫= f) g = f a g1.
Proof. unfold mbind, M_bind. by intros ->. Qed.

Lemma for_each_app {St A} (body : A → M St unit) (l1 l2 : list A) g :
  for_each body (l1 ++ l2) g = (for_each body l1 ;; for_each body l2) g.
Proof.
  revert g. induction l1 as [|x l1 IH]; intros g; simpl; [done|].
  unfold mbind, M_bind in *. destruct (body x g) as [[[] g1]|e]; [|done].
  apply IH.
Qed.

(** *** Growth of lists and of the scope stack *)

Lemma grows_refl {A} (l : list A) : grows l l.
Proof. exists []. by rewrite app_nil_r. Qed.

Lemma grows_trans {A} (l1 l2 l3 : list A) :
  grows l1 l2 → grows l2 l3 → grows l1 l3.
Proof. intros [e1 ->] [e2 ->]. exists (e1 ++ e2). by rewrite app_assoc. Qed.

Lemma grows_length {A} (l l' : list A) : grows l l' → length l ≤ length l'.
Proof. intros [e ->]. rewrite length_app. lia. Qed.

Lemma grows_same_length {A} (l l' : list A) :
  grows l l' → length l' = length l → l' = l.
Proof.
  intros [e ->]. rewrite length_app. intros He.
  assert (e = []) as -> by (apply length_zero_iff_nil; lia).
  by rewrite app_nil_r.
Qed.

Lemma scope_grows_refl (vs : list (list string)) : scope_grows vs vs.
Proof.
  exists []. symmetry. apply list_alter_id. intros sc. apply app_nil_r.
Qed.

Lemma scope_grows_trans (v1 v2 v3 : list (list string)) :
  scope_grows v1 v2 → scope_grows v2 v3 → scope_grows v1 v3.
Proof.
  intros [e1 ->] [e2 ->]. exists (e1 ++ e2).
  rewrite length_alter, list_alter_alter_eq.
  apply list_alter_ext; [|done]. intros sc _. simpl. by rewrite app_assoc.
Qed.

Lemma scope_grows_length (vs vs' : list (list string)) :
  scope_grows vs vs' → length vs' = length vs.
Proof. intros [e ->]. apply length_alter. Qed.

Lemma scope_grows_snoc (vs vs' : list (list string)) scope :
  scope_grows (vs ++ [scope]) vs' → ∃ ext, vs' = vs ++ [scope ++ ext].
Proof.
  intros [e ->]. exists e. rewrite length_app. simpl.
  replace (length vs + 1 - 1) with (length vs + 0) by lia.
  by rewrite alter_app_r.
Qed.

Lemma scope_grows_last (vs vs' : list (list string)) scope :
  scope_grows vs vs' → last vs = Some scope →
  ∃ ext, last vs' = Some (scope ++ ext).
Proof.
  intros Hg [l ->]%last_Some.
  apply scope_grows_snoc in Hg as [ext ->]. exists ext. apply last_snoc.
Qed.

Lemma scope_grows_pop (vs vs' : list (list string)) :
  scope_grows (vs ++ [[]]) vs' → removelast vs' = vs.
Proof. intros [ext ->]%scope_grows_snoc. apply removelast_last. Qed.

(** *** The frame is a preorder *)

Lemma frame0_refl g : frame0 g g.
Proof.
  split; auto using grows_refl, scope_grows_refl.
Qed.

Lemma frame0_trans g1 g2 g3 : frame0 g1 g2 → frame0 g2 g3 → frame0 g1 g3.
Proof.
  intros [] []. split; try congruence; eauto using grows_trans, scope_grows_trans.
Qed.

Lemma frame0_length g g' :
  frame0 g g' → length (_output g) ≤ length (_output g').
Proof. intros []. by apply grows_length. Qed.

Lemma frame_refl g : frame g g.
Proof. split; [apply frame0_refl|done]. Qed.

Lemma frame_trans g1 g2 g3 : frame g1 g2 → frame g2 g3 → frame g1 g3.
Proof.
  intros [F1 S1] [F2 S2]. split; [by eapply frame0_trans|].
  intros Hlen. pose proof (frame0_length _ _ F1).
  pose proof (frame0_length _ _ F2).
  rewrite S2, S1 by lia. done.
Qed.

Lemma frame_of_grown g g' :
  frame0 g g' → length (_output g) < length (_output g') → frame g g'.
Proof. intros F Hlt. split; [done|]. lia. Qed.

Lemma frame_quiet g g' :
  frame g g' → length (_output g') = length (_output g) →
  _output g' = _output g ∧ _state g' = _state g.
Proof.
  intros [F S] Hlen. split; [|auto].
  apply grows_same_length; [apply F|done].
Qed.

(** *** Steady methods *)

Lemma steady_framed {A} (m : Visit A) : steady m → framed m.
Proof. intros Hm g a g' [F S]%Hm. by split. Qed.

Lemma steady_ret {A} (a : A) : steady (mret a).
Proof. intros g b g' [= _ <-]. split; [apply frame0_refl|done]. Qed.

Lemma steady_raise {A} e : steady (raise (A:=A) e).
Proof. by intros g a g'. Qed.

Lemma steady_get : steady get.
Proof. intros g b g' [= _ <-]. split; [apply frame0_refl|done]. Qed.

Lemma steady_bind {A B} (m : Visit A) (f : A → Visit B) :
  steady m → (∀ a, steady (f a)) → steady (m ≫= f).
Proof.
  intros Hm Hf g b g' (a & g1 & H1 & H2)%bind_Ok.
  apply Hm in H1 as [F1 S1]. apply Hf in H2 as [F2 S2].
  split; [by eapply frame0_trans|congruence].
Qed.

Lemma steady_get_bind {B} (f : StubGenerator → Visit B) :
  (∀ g, steady (f g)) → steady (get ≫= f).
Proof. intros. by apply steady_bind; [apply steady_get|]. Qed.

Lemma steady_for_each {A} (body : A → Visit unit) (l : list A) :
  (∀ x, steady (body x)) → steady (for_each body l).
Proof.
  intros Hb. induction l as [|x l IH]; simpl; [apply steady_ret|].
  apply steady_bind; auto.
Qed.

Lemma steady_add (s : string) : steady (add s).
Proof.
  intros g [] g' [= <-]. split; [|done].
  split; simpl; auto using grows_refl, scope_grows_refl.
  by exists [s].
Qed.

Lemma steady_add_import (name : string) : steady (add_import name).
Proof.
  intros g [] g'. unfold add_import, mbind, M_bind, get.
  case_bool_decide as Hin; intros [= <-].
  { split; [apply frame0_refl|done]. }
  split; [|done].
  split; simpl; auto using grows_refl, scope_grows_refl.
  intros Hnd. apply NoDup_app. split_and!; [done| |apply NoDup_singleton].
  by intros x Hx ->%list_elem_of_singleton.
Qed.

Lemma steady_visit_import_all (id : string) : steady (visit_import_all id).
Proof.
  intros g [] g' [= <-]. split; [|done].
  split; simpl; auto using grows_refl, scope_grows_refl.
  intros Hl. apply Forall_app. split; [done|].
  apply Forall_singleton. by exists id.
Qed.

Lemma steady_declare (lvalue : string) :
  steady (modify (set_vars (λ vs,
    alter (λ sc, sc ++ [lvalue]) (length vs - 1) vs))).
Proof.
  intros g [] g' [= <-]. split; [|done].
  split; simpl; auto using grows_refl, scope_grows_refl.
  by exists [lvalue].
Qed.

(** From a run [H] of a method to the goal that the method is steady. *)
Ltac by_steady H :=
  match type of H with
  | ?m ?g = Ok (?a, ?g') =>
      cut (steady m); [intros Hsteady; exact (Hsteady g a g' H)|clear H]
  end.

Ltac steady_steps :=
  repeat first
    [ apply steady_ret | apply steady_raise | apply steady_add
    | apply steady_add_import | apply steady_declare
    | apply steady_bind; [|intros ?] ].

Lemma steady_add_init (lvalue : string) : steady (add_init lvalue).
Proof.
  intros g a g' H. unfold add_init in H.
  apply bind_Ok in H as (g0 & g1 & [= <- <-] & H).
  destruct (last (_vars g)) as [scope|]; [|done].
  case_bool_decide; [by_steady H; steady_steps|].
  destruct (is_private_name lvalue); by_steady H; steady_steps.
Qed.

Lemma steady_render_default (rvalue : expr) : steady (render_default rvalue).
Proof.
  destruct rvalue as [| | | |op e|name| | | | |]; simpl; steady_steps.
  - destruct (value_attr e); steady_steps.
  - case_bool_decide; steady_steps.
Qed.

Lemma steady_render_arg init args i name kind :
  steady (render_arg init args i name kind).
Proof.
  unfold render_arg. destruct (init !! i) as [[rvalue|]|]; steady_steps.
  - apply steady_render_default.
  - repeat case_bool_decide; steady_steps.
Qed.

Lemma steady_render_args init args i zipped :
  steady (render_args init args i zipped).
Proof.
  revert args i. induction zipped as [|[name kind] rest IH]; intros args i.
  - apply steady_ret.
  - simpl. apply steady_bind; [apply steady_render_arg|]. intros a. apply IH.
Qed.

Lemma steady_visit_one_decorator (decorator : expr) :
  steady (visit_one_decorator decorator).
Proof.
  apply steady_get_bind. intros g.
  destruct decorator as [| | | | |name|e attr| | | |]; steady_steps.
  - case_bool_decide; steady_steps.
  - destruct e; steady_steps. case_bool_decide; steady_steps.
Qed.

Lemma steady_declare_all (names : list string) :
  steady (for_each (λ i, add_init i ;; mret tt) names).
Proof.
  apply steady_for_each. intros x.
  apply steady_bind; [apply steady_add_init|]. intros _. apply steady_ret.
Qed.

(** Unfold the straight-line methods down to the fields. *)
Ltac run_unfold :=
  cbv [mbind M_bind modify add add_import add_import_line get mret M_ret
       raise].

Lemma add_output (s : string) g a g' :
  add s g = Ok (a, g') → _output g' = _output g ++ [s].
Proof. by intros [= _ <-]. Qed.

(** [add_init] emits exactly when it reports a new declaration. *)
Lemma add_init_false (lvalue : string) g g' :
  add_init lvalue g = Ok (false, g') → g' = g.
Proof.
  unfold add_init. intros (g0 & g1 & [= <- <-] & H)%bind_Ok.
  destruct (last (_vars g)); [|done].
  case_bool_decide; [by injection H|].
  destruct (is_private_name lvalue); [by injection H|].
  revert H. run_unfold. simpl. by repeat case_bool_decide.
Qed.

Lemma add_init_true (lvalue : string) g g' :
  add_init lvalue g = Ok (true, g') →
  ∃ vs scope,
    _vars g = vs ++ [scope] ∧ (lvalue ∉ scope) ∧
    is_private_name lvalue = false ∧
    _vars g' = vs ++ [scope ++ [lvalue]] ∧
    _output g' =
      _output g ++ [_indent g +:+ lvalue +:+ " = Undefined(Any)" +:+ Str.nl].
Proof.
  unfold add_init. intros (g0 & g1 & [= <- <-] & H)%bind_Ok.
  destruct (last (_vars g)) as [scope|] eqn:Hlast; [|done].
  apply last_Some in Hlast as [vs Hvs].
  case_bool_decide as Hin; [by injection H|].
  destruct (is_private_name lvalue); [by injection H|].
  exists vs, scope. split_and!; try done.
  - revert H. run_unfold. simpl.
    repeat case_bool_decide; intros [= <-]; simpl;
      rewrite Hvs, length_app; simpl;
      replace (length vs + 1 - 1) with (length vs + 0) by lia;
      by rewrite alter_app_r.
  - revert H. run_unfold. simpl. by repeat case_bool_decide; intros [= <-].
Qed.

(** The loop of [visit_assignment_stmt]: steady, and it reports a new
    declaration only after it emitted one. *)
Lemma assign_items_run items sep found g r g' :
  assign_items items sep found g = Ok (r, g') →
  frame0 g g' ∧ _state g' = _state g ∧
  (r = true → found = true ∨ length (_output g) < length (_output g')) ∧
  (r = false → found = false).
Proof.
  revert sep found g.
  induction items as [|item rest IH]; intros sep found g H.
  { injection H as <- <-. split_and!; auto using frame0_refl. }
  simpl in H.
  destruct item as [| | | | |name| | | | |];
    try (by apply IH in H).
  apply bind_Ok in H as (g0 & g1 & [= <- <-] & H).
  apply bind_Ok in H as ([] & g1 & H1 & H).
  apply bind_Ok in H as (declared & g2 & H2 & H).
  apply IH in H as (F3 & S3 & Hr & Hf).
  assert (frame0 g g1 ∧ _state g1 = _state g) as [F1 S1].
  { by_steady H1. destruct (_ && _); steady_steps. }
  pose proof (steady_add_init _ _ _ _ H2) as [F2 S2].
  split_and!.
  - eauto using frame0_trans.
  - congruence.
  - intros ->. destruct (Hr eq_refl) as [Hd|Hlt].
    + destruct declared; simpl in Hd; [|auto].
      right. apply add_init_true in H2 as (vs & sc & _ & _ & _ & _ & Ho).
      apply frame0_length in F1, F3. rewrite Ho, length_app in F3.
      simpl in F3. lia.
    + right. apply frame0_length in F1, F2. lia.
  - intros ->. specialize (Hf eq_refl). by destruct declared, found.
Qed.

(** *** The class visit *)

Lemma class_header_run name bases g :
  class_header name bases g =
  Ok ((slot g,
       length (_output (enter_class name bases g))),
      enter_class name bases g).
Proof.
  unfold class_header, enter_class, header_fragments, slot, reserved. run_unfold.
  unfold set_vars, set_indent, set_output.
  destruct (_ && _); simpl;
    destruct (base_types _ _); simpl;
    rewrite <- ?List.app_assoc; simpl; reflexivity.
Qed.

Lemma rewrite_last_run g pre frag :
  _output g = pre ++ [frag] →
  rewrite_last g =
  Ok (tt, set_output
            (λ _, pre ++ [Str.drop_last 1 frag +:+ " pass" +:+ Str.nl]) g).
Proof.
  intros Ho. unfold rewrite_last. run_unfold. rewrite Ho, last_snoc.
  unfold set_output. rewrite Ho, List.length_app. simpl.
  replace (length pre + 1 - 1) with (length pre + 0) by lia.
  by rewrite insert_app_r.
Qed.

Lemma retract_run g pre frag post :
  _output g = pre ++ frag :: post →
  retract (Some (length pre)) g =
  Ok (tt, set_output (λ _, pre ++ "" :: post) g).
Proof.
  intros Ho. unfold retract. run_unfold. rewrite Ho.
  rewrite bool_decide_eq_true_2 by (rewrite List.length_app; simpl; lia).
  unfold set_output. rewrite Ho.
  replace (length pre) with (length pre + 0) at 1 by lia.
  by rewrite insert_app_r.
Qed.

Lemma visit_class_def_unfold name bases super g g2 :
  super (enter_class name bases g) = Ok (tt, g2) →
  visit_class_def name bases super g =
  class_footer (slot g) (length (_output (enter_class name bases g))) g2.
Proof.
  intros Hs. unfold visit_class_def.
  rewrite (bind_step _ _ _ _ _ (class_header_run name bases g)).
  by rewrite (bind_step _ _ _ _ _ Hs).
Qed.

Lemma visit_class_def_raise name bases super g e :
  super (enter_class name bases g) = Raise e →
  visit_class_def name bases super g = Raise e.
Proof.
  intros Hs. unfold visit_class_def.
  rewrite (bind_step _ _ _ _ _ (class_header_run name bases g)).
  by rewrite (bind_Raise _ _ _ _ Hs).
Qed.

Lemma class_footer_nonempty sep n g2 :
  _vars g2 ≠ [] → length (_output g2) ≠ n →
  class_footer sep n g2 = Ok (tt, leave_class g2 (_output g2) CLASS).
Proof.
  intros Hv Hn. unfold class_footer. run_unfold. simpl.
  destruct (_vars g2) eqn:E; [done|].
  rewrite bool_decide_eq_false_2 by done.
  reflexivity.
Qed.

Lemma class_footer_empty sep n g2 pre frag :
  _vars g2 ≠ [] → length (_output g2) = n → _state g2 ≠ EMPTY_CLASS →
  _output g2 = pre ++ [frag] →
  class_footer sep n g2 =
  Ok (tt, leave_class g2
            (pre ++ [Str.drop_last 1 frag +:+ " pass" +:+ Str.nl])
            EMPTY_CLASS).
Proof.
  intros Hv Hn Hs Ho. unfold class_footer. run_unfold. simpl.
  destruct (_vars g2) eqn:E; [done|].
  rewrite bool_decide_eq_true_2 by done.
  rewrite bool_decide_eq_false_2 by done.
  erewrite rewrite_last_run by (simpl; exact Ho).
  reflexivity.
Qed.

Lemma class_footer_retract n g2 pre blank mid frag :
  _vars g2 ≠ [] → length (_output g2) = n → _state g2 = EMPTY_CLASS →
  _output g2 = pre ++ blank :: mid ++ [frag] →
  class_footer (Some (length pre)) n g2 =
  Ok (tt, leave_class g2
            (pre ++ "" :: mid ++
               [Str.drop_last 1 frag +:+ " pass" +:+ Str.nl])
            EMPTY_CLASS).
Proof.
  intros Hv Hn Hs Ho. unfold class_footer. run_unfold. simpl.
  destruct (_vars g2) eqn:E; [done|].
  rewrite bool_decide_eq_true_2 by done.
  rewrite bool_decide_eq_true_2 by done.
  erewrite retract_run by (simpl; exact Ho).
  erewrite (rewrite_last_run _ (pre ++ "" :: mid) frag)
    by (simpl; by rewrite <- List.app_assoc).
  unfold leave_class, set_state, set_vars, set_indent, set_output. simpl.
  by rewrite <- List.app_assoc.
Qed.

Lemma class_footer_unbound n g2 :
  _vars g2 ≠ [] → length (_output g2) = n → _state g2 = EMPTY_CLASS →
  class_footer None n g2 = Raise UnboundLocalError.
Proof.
  intros Hv Hn Hs. unfold class_footer. run_unfold. simpl.
  destruct (_vars g2) eqn:E; [done|].
  rewrite bool_decide_eq_true_2 by done.
  by rewrite bool_decide_eq_true_2 by done.
Qed.

Lemma header_fragments_snoc classes name bases :
  ∃ pre, pre ≠ [] ∧ ∀ t,
    header_fragments classes name bases t = pre ++ [":" +:+ t].
Proof.
  unfold header_fragments.
  exists (["class " +:+ name] ++ match base_types classes bases with
          | [] => []
          | b :: bs => ["(" +:+ Str.join ", " (b :: bs) +:+ ")"]
          end).
  split; [done|]. intros t. by rewrite <- List.app_assoc.
Qed.

Lemma entered_vars name bases g g2 :
  frame0 (enter_class name bases g) g2 →
  ∃ ext, _vars g2 = _vars g ++ [ext].
Proof.
  intros [_ _ _ Hv _ _]. simpl in Hv.
  apply scope_grows_snoc in Hv as [ext ->]. by exists ext.
Qed.

Lemma leave_frame name bases g g2 ext kind :
  frame0 (enter_class name bases g) g2 → ext ≠ [] →
  frame g (leave_class g2 (_output g ++ ext) kind).
Proof.
  intros F Hext. pose proof (entered_vars _ _ _ _ F) as [sc Hsc].
  destruct F as [Hi Hc _ _ Him Hl]. simpl in *.
  apply frame_of_grown.
  - split; simpl.
    + rewrite Hi. apply (StrFacts.drop_last_app (_indent g) "    ").
    + done.
    + by exists ext.
    + rewrite Hsc, removelast_last. apply scope_grows_refl.
    + done.
    + done.
  - simpl. rewrite List.length_app. destruct ext; [done|]. simpl. lia.
Qed.

Lemma visit_class_def_cases name bases super g g2 :
  super (enter_class name bases g) = Ok (tt, g2) →
  frame (enter_class name bases g) g2 →
  visit_class_def name bases super g =
  if bool_decide (length (_output g2) =
                  length (_output (enter_class name bases g))) then
    if bool_decide (_state g = EMPTY_CLASS) && negb (reserved g)
    then Raise UnboundLocalError
    else Ok (tt, leave_class g2
                   (_output g ++ slot_fragments g ++
                      header_fragments (_classes g) name bases
                        (" pass" +:+ Str.nl))
                   EMPTY_CLASS)
  else Ok (tt, leave_class g2 (_output g2) CLASS).
Proof.
  intros Hb F. rewrite (visit_class_def_unfold _ _ _ _ _ Hb).
  pose proof (entered_vars _ _ _ _ (proj1 F)) as [sc Hsc].
  assert (_vars g2 ≠ []) as Hne by (rewrite Hsc; by destruct (_vars g)).
  case_bool_decide as Hlen; [|by apply class_footer_nonempty].
  apply (frame_quiet _ _ F) in Hlen as Hq. destruct Hq as [Ho Hs].
  simpl in Ho, Hs.
  destruct (header_fragments_snoc (_classes g) name bases)
    as (pre & _ & Hpre).
  rewrite Hpre in Ho. unfold slot, slot_fragments.
  case_bool_decide as Hst; simpl.
  - destruct (reserved g); simpl.
    + rewrite (class_footer_retract _ _ (_output g) Str.nl pre (":" +:+ Str.nl));
        [|done|by rewrite Ho, Hpre|congruence|done].
      by rewrite Hpre.
    + apply class_footer_unbound; [done|by rewrite Ho, Hpre|congruence].
  - rewrite (class_footer_empty _ _ _
               (_output g ++ (if reserved g then [Str.nl] else []) ++ pre)
               (":" +:+ Str.nl));
      [|done|rewrite Ho, Hpre; by destruct (reserved g)|congruence|].
    + rewrite Hpre, <- !List.app_assoc. by destruct (reserved g).
    + rewrite Ho. by rewrite <- !List.app_assoc.
Qed.

Lemma visit_class_def_framed name bases super :
  framed super → framed (visit_class_def name bases super).
Proof.
  intros Hs g [] g' H.
  destruct (super (enter_class name bases g)) as [[[] g2]|e] eqn:Hb.
  2:{ by rewrite (visit_class_def_raise _ _ _ _ _ Hb) in H. }
  pose proof (Hs _ _ _ Hb) as F.
  rewrite (visit_class_def_cases _ _ _ _ _ Hb F) in H.
  case_bool_decide as Hlen.
  - destruct (_ && _); [done|]. injection H as <-.
    apply (leave_frame name bases); [apply F|].
    unfold header_fragments. by destruct (slot_fragments g).
  - injection H as <-.
    destruct F as [F _]. pose proof (frame_output _ _ F) as [ext Hext].
    simpl in Hext. rewrite Hext, <- !List.app_assoc.
    apply (leave_frame name bases); [done|].
    unfold header_fragments. by destruct (reserved g).
Qed.

(** *** The other visits *)

Lemma visit_func_def_run o name args arg_kinds init g a g' :
  visit_func_def o name args arg_kinds init g = Ok (a, g') →
  if is_private_name name then g' = g
  else frame0 g g' ∧ _state g' = FUNC ∧
       length (_output g) < length (_output g').
Proof.
  unfold visit_func_def. destruct (is_private_name name).
  { by intros [= _ <-]. }
  intros (g0 & g1 & [= <- <-] & H)%bind_Ok.
  apply bind_Ok in H as ([] & g1 & H1 & H).
  destruct (find_self_initializers o) as [self_inits|e]; [|done].
  apply bind_Ok in H as ([] & g2 & H2 & H).
  apply bind_Ok in H as ([] & g3 & H3 & H).
  apply bind_Ok in H as (rendered & g4 & H4 & H).
  apply bind_Ok in H as ([] & g5 & H5 & H).
  apply bind_Ok in H as ([] & g6 & H6 & H).
  injection H as <- <-.
  assert (steady (if bool_decide (_indent g = "") &&
                     negb (bool_decide (_state g ∈ [EMPTY; FUNC]))
                  then add Str.nl else mret ())) as S1
    by (destruct (_ && _); steady_steps).
  apply S1 in H1 as [F1 _].
  apply steady_declare_all in H2 as [F2 _].
  pose proof (add_output _ _ _ _ H3) as Ho.
  apply steady_add in H3 as [F3 _].
  apply steady_render_args in H4 as [F4 _].
  apply steady_add in H5 as [F5 _].
  apply steady_add in H6 as [F6 _].
  assert (frame0 g g6) as F by eauto 10 using frame0_trans.
  split_and!.
  - destruct F. by split.
  - done.
  - simpl. apply frame0_length in F1, F2, F4, F5, F6.
    rewrite Ho, List.length_app in F4. simpl in F4. lia.
Qed.

Lemma visit_assignment_stmt_run lvalues g a g' :
  visit_assignment_stmt lvalues g = Ok (a, g') →
  frame0 g g' ∧
  (_state g' = VAR ∧ length (_output g) < length (_output g') ∨
   _state g' = _state g).
Proof.
  unfold visit_assignment_stmt. destruct (lvalues !! 0); [|done].
  intros (found & g1 & H1 & H)%bind_Ok.
  apply assign_items_run in H1 as (F1 & S1 & Hr & _).
  destruct found.
  - injection H as <- <-. split; [by destruct F1|]. left.
    split; [done|]. simpl. by destruct (Hr eq_refl).
  - injection H as <- <-. auto.
Qed.

Lemma framed_ret {A} (a : A) : framed (mret a).
Proof. apply steady_framed, steady_ret. Qed.

Lemma framed_bind {A B} (m : Visit A) (f : A → Visit B) :
  framed m → (∀ a, framed (f a)) → framed (m ≫= f).
Proof.
  intros Hm Hf g b g' (a & g1 & H1 & H2)%bind_Ok.
  eapply frame_trans; [by eapply Hm|by eapply Hf].
Qed.

Lemma framed_for_each {A} (body : A → Visit unit) (l : list A) :
  Forall (λ x, framed (body x)) l → framed (for_each body l).
Proof.
  induction 1 as [|x l Hx _ IH]; simpl; [apply framed_ret|].
  by apply framed_bind.
Qed.

Lemma visit_if_stmt_framed conds super :
  framed super → framed (visit_if_stmt conds super).
Proof.
  intros Hs. unfold visit_if_stmt. destruct (conds !! 0) as [e|]; [|done].
  destruct (is_main_guard e) as [[]|]; [apply framed_ret|done..].
Qed.

(** Each statement class with the method that [accept] calls for it. *)
Lemma accept_stmt_eq (o : stmt) :
  accept_stmt o =
  visit o
    match o with
    | FuncDef _ _ _ _ body => accept_block body
    | Decorator func _ => accept_stmt func
    | ClassDef _ _ defs => accept_block defs
    | IfStmt _ body else_body =>
        for_each accept_block body ;;
        match else_body with
        | Some b => accept_block b
        | None => mret tt
        end
    | AssignmentStmt _ _ | ImportAll _ | ExpressionStmt _ | PassStmt =>
        mret tt
    end.
Proof. by destruct o. Qed.

Lemma accept_stmt_framed (o : stmt) : framed (accept_stmt o).
Proof.
  induction o as [name args kinds init body _|func decorators IH|
                  name bases defs IH|lvalues rvalue|conds body else_body IHb IHe|
                  id|e|] using stmt_nested_ind;
    rewrite accept_stmt_eq; simpl.
  - intros g a g' H. apply visit_func_def_run in H.
    destruct (is_private_name name); [subst; apply frame_refl|].
    destruct H as (F & _ & Hlt). by apply frame_of_grown.
  - apply framed_bind; [|done].
    apply steady_framed, steady_for_each, steady_visit_one_decorator.
  - apply visit_class_def_framed. by apply framed_for_each.
  - intros g a g' [F [[_ Hlt]|Hs]]%visit_assignment_stmt_run.
    + by apply frame_of_grown.
    + by split.
  - apply visit_if_stmt_framed. apply framed_bind.
    + apply framed_for_each. eapply Forall_impl; [exact IHb|].
      intros b Hb. by apply framed_for_each.
    + intros _. destruct else_body as [b|]; [|apply framed_ret].
      by apply framed_for_each.
  - apply steady_framed, steady_visit_import_all.
  - apply framed_ret.
  - apply framed_ret.
Qed.

Lemma accept_block_framed (l : list stmt) : framed (accept_block l).
Proof.
  apply framed_for_each, Forall_forall. intros o _.
  apply accept_stmt_framed.
Qed.

End FrameFacts.

(* ===================================================================== *)
(** ** Facts about the collectors, the loops and the errors *)
(* ===================================================================== *)

Module CoverFacts.
Import Nodes Run Traverser Gen Props FrameFacts Cover.

(** *** The walk of [find_self_initializers] *)

Lemma self_traverser_block (l : list stmt) :
  Forall (λ o, ∀ results,
            accept SelfTraverser o results =
            if has_targets o then Ok (tt, results ++ self_names o)
            else Raise IndexError) l →
  ∀ results,
    for_each (accept SelfTraverser) l results =
    if forallb has_targets l
    then Ok (tt, results ++ concat (self_names <$> l))
    else Raise IndexError.
Proof.
  induction 1 as [|o l Ho _ IH]; intros results; simpl.
  - by rewrite app_nil_r.
  - unfold mbind, M_bind. rewrite Ho. destruct (has_targets o); [|done].
    simpl. rewrite IH. destruct (forallb has_targets l); [|done].
    by rewrite app_assoc.
Qed.

Lemma self_traverser_stmt (o : stmt) (results : list string) :
  accept SelfTraverser o results =
  if has_targets o then Ok (tt, results ++ self_names o) else Raise IndexError.
Proof.
  revert results.
  induction o as [name args kinds init body IH|func decorators IH|
                  name bases defs IH|lvalues rvalue|conds body else_body IHb IHe|
                  id|e|] using stmt_nested_ind; intros results; simpl;
    try (by rewrite app_nil_r).
  - by apply self_traverser_block.
  - apply IH.
  - by apply self_traverser_block.
  - destruct lvalues as [|lvalue rest]; [done|]. simpl.
    destruct lvalue as [| | | | | |e attr| | | |]; try (by rewrite app_nil_r).
    destruct e; try (by rewrite app_nil_r).
    case_bool_decide; [done|by rewrite app_nil_r].
  - assert (∀ results,
              for_each (for_each (accept SelfTraverser)) body results =
              if forallb (forallb has_targets) body
              then Ok (tt, results ++
                        concat ((λ b, concat (self_names <$> b)) <$> body))
              else Raise IndexError) as Hb.
    { clear IHe. induction IHb as [|b bs Hb _ IH]; intros r; simpl.
      - by rewrite app_nil_r.
      - unfold mbind, M_bind. rewrite (self_traverser_block b Hb r).
        destruct (forallb has_targets b); [|done]. simpl. rewrite IH.
        destruct (forallb (forallb has_targets) bs); [|done].
        by rewrite app_assoc. }
    unfold mbind, M_bind. rewrite Hb.
    destruct (forallb (forallb has_targets) body); [|done]. simpl.
    destruct else_body as [b|]; simpl in *.
    + rewrite (self_traverser_block b IHe).
      destruct (forallb has_targets b); [|done]. by rewrite app_assoc.
    + by rewrite app_nil_r.
Qed.

Lemma find_self_initializers_eq (fdef : stmt) :
  find_self_initializers fdef =
  if has_targets fdef then Ok (self_names fdef) else Raise IndexError.
Proof.
  unfold find_self_initializers, exec. rewrite self_traverser_stmt.
  by destruct (has_targets fdef).
Qed.

(** *** Methods that return *)

Lemma vars_kept g g' : frame0 g g' → _vars g ≠ [] → _vars g' ≠ [].
Proof.
  intros [_ _ _ Hv%scope_grows_length _ _] Hne Hnil.
  rewrite Hnil in Hv. by destruct (_vars g).
Qed.

Lemma add_init_cases (lvalue : string) g vs scope :
  _vars g = vs ++ [scope] →
  add_init lvalue g =
  if bool_decide (lvalue ∈ scope) || is_private_name lvalue
  then Ok (false, g)
  else Ok (true,
           set_imports (λ l, if bool_decide ("Any" ∈ l) then l else l ++ ["Any"])
             (set_imports
                (λ l, if bool_decide ("Undefined" ∈ l) then l
                      else l ++ ["Undefined"])
                (mkGen (_output g ++ [declaration (_indent g) lvalue])
                       (_import_lines g) (_imports g) (_indent g)
                       (vs ++ [scope ++ [lvalue]]) (_state g) (_classes g)))).
Proof.
  intros Hv. unfold add_init. run_unfold. rewrite Hv, last_snoc.
  case_bool_decide as Hin; [done|]. simpl.
  destruct (is_private_name lvalue); [done|].
  unfold set_vars, set_output, set_imports. simpl.
  rewrite Hv, length_app. simpl.
  replace (length vs + 1 - 1) with (length vs + 0) by lia.
  rewrite alter_app_r. simpl.
  by repeat case_bool_decide.
Qed.

Lemma add_init_total (lvalue : string) g :
  _vars g ≠ [] → ∃ declared g', add_init lvalue g = Ok (declared, g').
Proof.
  intros Hne. destruct (last (_vars g)) as [scope|] eqn:Hl.
  - apply last_Some in Hl as [vs Hv].
    rewrite (add_init_cases _ _ _ _ Hv). destruct (_ || _); eauto.
  - by apply last_None in Hl.
Qed.

(** The loop of [visit_func_def] over the collected names. *)
Lemma declare_all_run (names : list string) g vs scope :
  _vars g = vs ++ [scope] →
  ∃ g',
    for_each (λ i, add_init i ;; mret tt) names g = Ok (tt, g') ∧
    _output g' =
      _output g ++ (declaration (_indent g) <$> fresh scope names) ∧
    _vars g' = vs ++ [scope ++ fresh scope names] ∧
    _indent g' = _indent g ∧ _state g' = _state g.
Proof.
  revert g scope. induction names as [|name rest IH]; intros g scope Hv.
  { exists g. simpl. by rewrite !app_nil_r. }
  simpl. unfold mbind at 1, M_bind at 1. unfold mbind at 1, M_bind at 1.
  rewrite (add_init_cases _ _ _ _ Hv).
  destruct (_ || _); simpl.
  - apply (IH g scope Hv).
  - edestruct (IH) as (g' & Hrun & Ho & Hvs & Hi & Hs);
      [|exists g'; split; [exact Hrun|]].
    { simpl. by repeat case_bool_decide. }
    revert Ho Hvs Hi Hs. repeat case_bool_decide; simpl;
      intros -> -> -> ->; by rewrite <- !app_assoc.
Qed.

Lemma fresh_spec (names : list string) :
  ∀ scope,
    NoDup (fresh scope names) ∧
    ∀ name, name ∈ fresh scope names ↔
            name ∈ names ∧ (name ∉ scope) ∧ is_private_name name = false.
Proof.
  induction names as [|n rest IH]; intros scope; simpl.
  { split; [constructor|]. intros name. rewrite elem_of_nil. tauto. }
  destruct (bool_decide (n ∈ scope) || is_private_name n) eqn:E.
  - destruct (IH scope) as [Hnd Hin]. split; [done|]. intros name.
    rewrite Hin, elem_of_cons. split; [tauto|].
    intros [[->|?] [Hs Hp]]; [|tauto].
    apply orb_true_iff in E as [E%bool_decide_eq_true|E]; [done|congruence].
  - apply orb_false_iff in E as [Hs%bool_decide_eq_false Hp].
    destruct (IH (scope ++ [n])) as [Hnd Hin]. split.
    + constructor; [|done]. rewrite Hin, not_elem_of_app.
      rewrite list_elem_of_singleton. tauto.
    + intros name. rewrite !elem_of_cons, Hin, not_elem_of_app.
      rewrite list_elem_of_singleton. split.
      * intros [->|?]; tauto.
      * intros [[->|?] [? ?]]; [tauto|].
        destruct (decide (name = n)); tauto.
Qed.

Lemma forallb_lookup {A} (f : A → bool) (l : list A) (i : nat) (x : A) :
  forallb f l = true → l !! i = Some x → f x = true.
Proof.
  intros Hf Hx. apply (proj1 (forallb_forall f l) Hf).
  apply list_elem_of_In. by eapply list_elem_of_lookup_2.
Qed.

Lemma forallb_Forall {A} (f : A → bool) (l : list A) :
  forallb f l = true ↔ Forall (λ x, f x = true) l.
Proof.
  rewrite forallb_forall, Forall_forall.
  by setoid_rewrite list_elem_of_In.
Qed.

Lemma render_default_total (rvalue : expr) g :
  default_ok (Some rvalue) = true →
  ∃ d g', render_default rvalue g = Ok (d, g').
Proof.
  intros Hok. destruct rvalue as [| | | |op e|name| | | | |];
    cbn [render_default]; try (run_unfold; by repeat case_bool_decide; eauto).
  simpl in Hok. destruct (value_attr e); [|done]. eauto.
Qed.

Lemma render_args_total init args i zipped g :
  forallb default_ok init = true →
  i + length zipped ≤ length init →
  ∃ rendered g', render_args init args i zipped g = Ok (rendered, g').
Proof.
  intros Hok. revert args i g.
  induction zipped as [|[name kind] rest IH]; intros args i g Hlen.
  { simpl. eauto. }
  simpl in *.
  destruct (lookup_lt_is_Some_2 init i) as [d Hd]; [lia|].
  assert (default_ok d = true) as Hdok.
  { by apply (forallb_lookup _ _ _ _ Hok Hd). }
  assert (∃ args1 g1, render_arg init args i name kind g = Ok (args1, g1))
    as (args1 & g1 & H1).
  { unfold render_arg. rewrite Hd. destruct d as [rvalue|].
    - destruct (render_default_total rvalue g Hdok) as (t & g1 & Ht).
      rewrite (bind_step _ _ _ _ _ Ht). eauto.
    - repeat case_bool_decide; eauto. }
  rewrite (bind_step _ _ _ _ _ H1). apply IH. lia.
Qed.

Lemma decorators_run (decorators : list expr) g :
  for_each visit_one_decorator decorators g =
  Ok (tt, set_output
            (λ out, out ++ omap (decorator_line (_indent g)) decorators) g).
Proof.
  assert (∀ out,
    for_each visit_one_decorator decorators (set_output (λ o, o ++ out) g) =
    Ok (tt, set_output
              (λ o, o ++ out ++ omap (decorator_line (_indent g)) decorators)
              g)) as H.
  { induction decorators as [|d rest IH]; intros out; simpl.
    - by rewrite app_nil_r.
    - assert (visit_one_decorator d (set_output (λ o, o ++ out) g) =
              Ok (tt, set_output
                        (λ o, o ++ out ++
                              match decorator_line (_indent g) d with
                              | Some line => [line]
                              | None => []
                              end) g)) as Hd.
      { unfold visit_one_decorator, decorator_line. run_unfold.
        unfold set_output. simpl.
        destruct d as [| | | | |name|e attr| | | |]; simpl;
          try (by rewrite app_nil_r).
        - case_bool_decide; simpl; by rewrite ?app_nil_r, <- ?app_assoc.
        - destruct e; simpl; try (by rewrite app_nil_r).
          case_bool_decide; simpl; by rewrite ?app_nil_r, <- ?app_assoc. }
      rewrite (bind_step _ _ _ _ _ Hd), IH.
      unfold set_output. simpl.
      destruct (decorator_line (_indent g) d); simpl;
        by rewrite <- ?app_assoc. }
  specialize (H []). unfold set_output in *. simpl in *.
  rewrite app_nil_r in H. by destruct g.
Qed.

Lemma assign_items_total items sep found g :
  _vars g ≠ [] → ∃ r g', assign_items items sep found g = Ok (r, g').
Proof.
  revert sep found g.
  induction items as [|item rest IH]; intros sep found g Hne; simpl.
  { eauto. }
  destruct item as [| | | | |name| | | | |]; try (by apply IH).
  unfold mbind at 1, M_bind at 1, get.
  set (blank := negb sep && _ && _).
  assert (∃ g1, (if blank then add Str.nl else mret tt) g = Ok (tt, g1) ∧
                _vars g1 = _vars g) as (g1 & H1 & Hv1).
  { destruct blank; eauto. }
  rewrite (bind_step _ _ _ _ _ H1).
  destruct (add_init_total name g1) as (declared & g2 & H2);
    [by rewrite Hv1|].
  rewrite (bind_step _ _ _ _ _ H2). apply IH.
  apply steady_add_init in H2 as [F _]. apply (vars_kept _ _ F).
  by rewrite Hv1.
Qed.

Lemma visit_assignment_stmt_total lvalue rest g :
  _vars g ≠ [] →
  ∃ g', visit_assignment_stmt (lvalue :: rest) g = Ok (tt, g').
Proof.
  intros Hne. unfold visit_assignment_stmt. simpl.
  destruct (assign_items_total (items_of lvalue) false false g Hne)
    as (found & g1 & H1).
  rewrite (bind_step _ _ _ _ _ H1). destruct found; eauto.
Qed.

Lemma visit_func_def_total o name args arg_kinds init body g :
  o = FuncDef name args arg_kinds init body →
  safe o = true → _vars g ≠ [] →
  ∃ g', visit_func_def o name args arg_kinds init g = Ok (tt, g').
Proof.
  intros -> Hsafe Hne. simpl in Hsafe.
  apply andb_true_iff in Hsafe as [[Hlen%bool_decide_eq_true Hd]%andb_true_iff Hb].
  unfold visit_func_def. destruct (is_private_name name); [eauto|].
  unfold mbind at 1, M_bind at 1, get.
  set (blank := _ && _).
  assert (∃ g1, (if blank then add Str.nl else mret tt) g = Ok (tt, g1) ∧
                _vars g1 = _vars g) as (g1 & H1 & Hv1).
  { destruct blank; eauto. }
  rewrite (bind_step _ _ _ _ _ H1).
  rewrite find_self_initializers_eq. simpl. rewrite Hb.
  destruct (last (_vars g1)) as [scope|] eqn:Hl;
    [|apply last_None in Hl; congruence].
  apply last_Some in Hl as [vs Hv].
  destruct (declare_all_run (concat (self_names <$> body)) g1 vs scope Hv)
    as (g2 & H2 & _).
  rewrite (bind_step _ _ _ _ _ H2).
  unfold mbind at 1, M_bind at 1, add at 1, modify at 1.
  edestruct (render_args_total init [] 0 (zip args arg_kinds)) as (r & g3 & H3);
    [exact Hd|simpl; lia|].
  rewrite (bind_step _ _ _ _ _ H3). eauto.
Qed.

(** *** Which exceptions a visit can raise *)

Lemma behaves_total closed level (m : Visit unit) :
  (∀ g, _vars g ≠ [] → ∃ g', m g = Ok (tt, g')) → behaves closed level m.
Proof.
  intros Hm g Hne. destruct (Hm g Hne) as [g' Hg].
  split_and!; [by rewrite Hg|eauto..].
Qed.

Lemma behaves_bind c1 l1 c2 l2 (m1 m2 : Visit unit) :
  framed m1 → behaves c1 l1 m1 → behaves c2 l2 m2 →
  behaves (c1 && c2) (l1 && l2) (m1 ;; m2).
Proof.
  intros F1 B1 B2 g Hne. destruct (B1 g Hne) as (R1 & C1 & L1).
  destruct (m1 g) as [[[] g1]|e1] eqn:H1.
  - pose proof (F1 _ _ _ H1) as [F _].
    destruct (B2 g1 (vars_kept _ _ F Hne)) as (R2 & C2 & L2).
    rewrite (bind_step _ _ _ _ _ H1). split_and!.
    + done.
    + intros [_ ?]%andb_true_iff. auto.
    + intros [_ ?]%andb_true_iff Hi. apply L2; [done|].
      by rewrite (frame_indent _ _ F).
  - rewrite (bind_Raise _ _ _ _ H1). split_and!.
    + intros e [= <-]. by apply R1.
    + intros [Hc _]%andb_true_iff. by destruct (C1 Hc).
    + intros [Hl _]%andb_true_iff Hi. by destruct (L1 Hl Hi).
Qed.

Lemma behaves_for_each {A} (c l : A → bool) (body : A → Visit unit) xs :
  Forall (λ x, framed (body x) ∧ behaves (c x) (l x) (body x)) xs →
  behaves (forallb c xs) (forallb l xs) (for_each body xs).
Proof.
  induction 1 as [|x xs [Fx Bx] Hxs IH]; simpl.
  - apply behaves_total. eauto.
  - by apply behaves_bind.
Qed.

Lemma behaves_block (l : list stmt) :
  Forall (λ o, safe o = true →
               behaves (no_class o) (flat o) (accept_stmt o)) l →
  forallb safe l = true →
  behaves (forallb no_class l) (forallb flat l) (accept_block l).
Proof.
  intros IH Hs. apply behaves_for_each.
  apply forallb_Forall in Hs.
  eapply Forall_impl; [apply Forall_and; split; [exact IH|exact Hs]|]. simpl.
  intros o [Ho Hso]. split; [apply accept_stmt_framed|auto].
Qed.

Lemma behaves_class name bases defs :
  behaves (forallb no_class defs) (forallb flat defs) (accept_block defs) →
  behaves false (forallb no_class defs)
          (visit_class_def name bases (accept_block defs)).
Proof.
  intros Hb g Hne.
  assert (_vars (enter_class name bases g) ≠ []) as Hne1
    by (simpl; by destruct (_vars g)).
  destruct (Hb _ Hne1) as (R & C & _).
  destruct (accept_block defs (enter_class name bases g))
    as [[[] g2]|e2] eqn:H2.
  - pose proof (accept_block_framed _ _ _ _ H2) as F.
    rewrite (visit_class_def_cases _ _ _ _ _ H2 F).
    split_and!; [|done|].
    + intros e. case_bool_decide; [|done].
      destruct (_ && _); [by intros [= <-]|done].
    + intros _ Hi. case_bool_decide; [|eauto].
      unfold reserved. rewrite Hi.
      rewrite (bool_decide_eq_true_2 ("" = "")) by done. simpl.
      case_bool_decide as Hs; simpl; [|eauto].
      rewrite Hs. simpl. eauto.
  - rewrite (visit_class_def_raise _ _ _ _ _ H2). split_and!; [|done|].
    + intros e [= <-]. by apply R.
    + intros Hc _. by destruct (C Hc).
Qed.

Lemma accept_stmt_behaves (o : stmt) :
  safe o = true → behaves (no_class o) (flat o) (accept_stmt o).
Proof.
  induction o as [name args kinds init body _|func decorators IH|
                  name bases defs IH|lvalues rvalue|conds body else_body IHb IHe|
                  id|e|] using stmt_nested_ind;
    intros Hs; rewrite accept_stmt_eq; cbn [visit no_class flat].
  - apply behaves_total. intros g Hne.
    by eapply visit_func_def_total.
  - change (no_class func) with (true && no_class func).
    change (flat func) with (true && flat func).
    apply behaves_bind; [| |by apply IH].
    + apply steady_framed, steady_for_each, steady_visit_one_decorator.
    + apply behaves_total. intros g _. rewrite decorators_run. eauto.
  - apply behaves_class. by apply behaves_block.
  - apply behaves_total. intros g Hne. simpl in Hs.
    destruct lvalues as [|lvalue rest]; [done|].
    by apply visit_assignment_stmt_total.
  - simpl in Hs.
    apply andb_true_iff in Hs as [[Hc Hb]%andb_true_iff He].
    destruct conds as [|cond conds]; [done|].
    unfold visit_if_stmt, cond_ok, skipped in *. simpl.
    destruct (is_main_guard cond) as [[]|]; [by apply behaves_total; eauto| |done].
    simpl. apply behaves_bind.
    + apply framed_for_each, Forall_forall. intros b _.
      apply accept_block_framed.
    + apply behaves_for_each.
      apply forallb_Forall in Hb.
      eapply Forall_impl; [apply Forall_and; split; [exact IHb|exact Hb]|]. simpl.
      intros b [IH Hsb]. split; [apply accept_block_framed|].
      by apply behaves_block.
    + destruct else_body as [b|]; [by apply behaves_block|].
      apply behaves_total. eauto.
  - apply behaves_total. eauto.
  - apply behaves_total. eauto.
  - apply behaves_total. eauto.
Qed.

(** *** Properties of the fields that every visit keeps *)

Section invariant.
Variable I : StubGenerator → Prop.
Hypothesis I_output : ∀ f g, I g → I (set_output f g).
Hypothesis I_indent : ∀ f g, I g → I (set_indent f g).
Hypothesis I_state : ∀ s g, I g → I (set_state s g).
Hypothesis I_import_lines : ∀ f g, I g → I (set_import_lines f g).
Hypothesis I_push : ∀ g, I g → I (set_vars (λ vs, vs ++ [[]]) g).
Hypothesis I_pop : ∀ g, I g → I (set_vars (λ vs, removelast vs) g).
Hypothesis I_add_init : ∀ lvalue, preserves I (add_init lvalue).
Hypothesis I_undefined : preserves I (add_import "Undefined").

Lemma preserves_ret {A} (a : A) : preserves I (mret a).
Proof. by intros g b g' Hg [= _ <-]. Qed.

Lemma preserves_raise {A} e : preserves I (raise (A:=A) e).
Proof. by intros g a g'. Qed.

Lemma preserves_get : preserves I get.
Proof. by intros g b g' Hg [= _ <-]. Qed.

Lemma preserves_modify (f : StubGenerator → StubGenerator) :
  (∀ g, I g → I (f g)) → preserves I (modify f).
Proof. intros Hf g [] g' Hg [= <-]. by apply Hf. Qed.

Lemma preserves_bind {A B} (m : Visit A) (f : A → Visit B) :
  preserves I m → (∀ a, preserves I (f a)) → preserves I (m ≫= f).
Proof.
  intros Hm Hf g b g' Hg (a & g1 & H1 & H2)%bind_Ok.
  eapply Hf; [|exact H2]. by eapply Hm.
Qed.

Lemma preserves_for_each {A} (body : A → Visit unit) (l : list A) :
  Forall (λ x, preserves I (body x)) l → preserves I (for_each body l).
Proof.
  induction 1 as [|x l Hx _ IH]; simpl; [apply preserves_ret|].
  by apply preserves_bind.
Qed.

Ltac preserves_step :=
  first
    [ assumption
    | apply preserves_ret | apply preserves_raise | apply preserves_get
    | apply I_add_init | apply I_undefined
    | apply preserves_modify; intros ? ?;
      first [ by apply I_output | by apply I_indent | by apply I_state
            | by apply I_import_lines | by apply I_push | by apply I_pop ]
    | apply preserves_bind; [|intros ?]
    | match goal with
      | |- preserves _ (if ?b then _ else _) => destruct b
      | |- preserves _ (match ?x with _ => _ end) => destruct x
      end ].

Ltac preserves_steps := repeat preserves_step.

Lemma preserves_render_args init args i zipped :
  preserves I (render_args init args i zipped).
Proof.
  revert args i. induction zipped as [|[name kind] rest IH]; intros args i;
    simpl; [apply preserves_ret|].
  apply preserves_bind; [|intros ?; apply IH].
  unfold render_arg, render_default. preserves_steps.
Qed.

Lemma preserves_visit_func_def o name args arg_kinds init :
  preserves I (visit_func_def o name args arg_kinds init).
Proof.
  unfold visit_func_def. preserves_steps.
  - apply preserves_for_each, Forall_forall. intros x _. preserves_steps.
  - apply preserves_render_args.
Qed.

Lemma preserves_visit_class_def name bases super :
  preserves I super → preserves I (visit_class_def name bases super).
Proof.
  intros Hs. unfold visit_class_def, class_header, class_footer, retract,
    rewrite_last. preserves_steps.
Qed.

Lemma preserves_assign_items items sep found :
  preserves I (assign_items items sep found).
Proof.
  revert sep found. induction items as [|item rest IH]; intros sep found;
    simpl; [apply preserves_ret|].
  destruct item; try apply IH. preserves_steps. apply IH.
Qed.

Lemma preserves_accept_stmt (o : stmt) : preserves I (accept_stmt o).
Proof.
  induction o as [name args kinds init body _|func decorators IH|
                  name bases defs IH|lvalues rvalue|conds body else_body IHb IHe|
                  id|e|] using stmt_nested_ind;
    rewrite accept_stmt_eq; cbn [visit].
  - apply preserves_visit_func_def.
  - unfold visit_decorator. apply preserves_bind; [|done].
    apply preserves_for_each, Forall_forall. intros d _.
    unfold visit_one_decorator. preserves_steps.
  - apply preserves_visit_class_def. by apply preserves_for_each.
  - unfold visit_assignment_stmt. preserves_steps.
    apply preserves_assign_items.
  - unfold visit_if_stmt. destruct (conds !! 0) as [cond|]; preserves_steps.
    + eapply preserves_for_each, Forall_impl; [exact IHb|].
      intros b Hb. by apply preserves_for_each.
    + by apply preserves_for_each.
  - unfold visit_import_all, add_import_line. preserves_steps.
  - preserves_steps.
  - preserves_steps.
Qed.

Lemma preserves_accept_block (l : list stmt) : preserves I (accept_block l).
Proof.
  apply preserves_for_each, Forall_forall. intros o _.
  apply preserves_accept_stmt.
Qed.

End invariant.

(** *** A default value that cannot be rendered *)

Lemma default_not_ok (d : option expr) :
  default_ok d = false →
  ∃ op e, d = Some (UnaryExpr op e) ∧ value_attr e = Raise AttributeError.
Proof.
  destruct d as [[| | | |op e| | | | | |]|]; try done. simpl.
  intros H. exists op, e. split; [done|]. by destruct e.
Qed.

Lemma render_args_unrenderable init args i zipped g j op e :
  i + length zipped ≤ length init →
  i ≤ j < i + length zipped →
  init !! j = Some (Some (UnaryExpr op e)) →
  value_attr e = Raise AttributeError →
  render_args init args i zipped g = Raise AttributeError.
Proof.
  intros Hlen Hj Hbad He. revert args i g Hlen Hj.
  induction zipped as [|[name kind] rest IH]; intros args i g Hlen Hj;
    simpl in *; [lia|].
  destruct (lookup_lt_is_Some_2 init i) as [d Hd]; [lia|].
  destruct (default_ok d) eqn:Hok.
  - assert (∃ args1 g1, render_arg init args i name kind g = Ok (args1, g1))
      as (args1 & g1 & H1).
    { unfold render_arg. rewrite Hd. destruct d as [rvalue|].
      - destruct (render_default_total rvalue g Hok) as (t & g1 & Ht).
        rewrite (bind_step _ _ _ _ _ Ht). eauto.
      - repeat case_bool_decide; eauto. }
    rewrite (bind_step _ _ _ _ _ H1). apply IH; [lia|].
    assert (i ≠ j); [|lia]. intros ->. rewrite Hbad in Hd.
    injection Hd as <-. simpl in Hok. by rewrite He in Hok.
  - destruct (default_not_ok _ Hok) as (op' & e' & -> & He').
    apply bind_Raise. unfold render_arg. rewrite Hd. simpl. by rewrite He'.
Qed.

(** *** The parameter loop touches the helper names only *)

Lemma render_default_fields (rvalue : expr) g d g' :
  render_default rvalue g = Ok (d, g') →
  g' = set_imports (λ _, _imports g') g.
Proof.
  assert (g = set_imports (λ _, _imports g) g) as Hg by (by destruct g).
  destruct rvalue as [| | | |op e|name| | | | |]; cbn [render_default];
    try (by intros [= _ <-]).
  - destruct (value_attr e); [by intros [= _ <-]|done].
  - case_bool_decide; [by intros [= _ <-]|].
    run_unfold. by case_bool_decide; intros [= _ <-].
  - run_unfold. by case_bool_decide; intros [= _ <-].
  - run_unfold. by case_bool_decide; intros [= _ <-].
  - run_unfold. by case_bool_decide; intros [= _ <-].
  - run_unfold. by case_bool_decide; intros [= _ <-].
  - run_unfold. by case_bool_decide; intros [= _ <-].
Qed.

Lemma render_args_fields init args i zipped g rendered g' :
  render_args init args i zipped g = Ok (rendered, g') →
  g' = set_imports (λ _, _imports g') g.
Proof.
  revert args i g. induction zipped as [|[name kind] rest IH];
    intros args i g; simpl.
  { intros [= _ <-]. by destruct g. }
  intros (args1 & g1 & H1 & H2)%bind_Ok.
  apply IH in H2.
  assert (g1 = set_imports (λ _, _imports g1) g) as Hg1.
  { unfold render_arg in H1. destruct (init !! i) as [[rvalue|]|]; [| |done].
    - apply bind_Ok in H1 as (d & g0 & Hd & [= _ <-]).
      by apply render_default_fields in Hd.
    - revert H1. repeat case_bool_decide; intros [= _ <-]; by destruct g. }
  rewrite H2, Hg1. reflexivity.
Qed.

(** *** Requests and the targets of an assignment *)

Lemma add_init_after (name : string) g declared g' :
  add_init name g = Ok (declared, g') →
  ∃ vs scope, _vars g' = vs ++ [scope] ∧
              (name ∈ scope ∨ is_private_name name = true).
Proof.
  intros H. destruct (last (_vars g)) as [scope|] eqn:Hl.
  - apply last_Some in Hl as [vs Hv].
    rewrite (add_init_cases _ _ _ _ Hv) in H.
    destruct (bool_decide (name ∈ scope)) eqn:Hin; simpl in H.
    + injection H as <- <-. apply bool_decide_eq_true in Hin. eauto.
    + destruct (is_private_name name) eqn:Hp; injection H as <- <-.
      * eauto.
      * exists vs, (scope ++ [name]). split; [done|]. left. set_solver.
  - revert H. unfold add_init. run_unfold. by rewrite Hl.
Qed.

(** The visit of an assignment whose first target is a name that is in
    the scope, or private. *)
Lemma assignment_refused name rest rvalue g vs scope :
  _vars g = vs ++ [scope] →
  name ∈ scope ∨ is_private_name name = true →
  accept_stmt (AssignmentStmt (NameExpr name :: rest) rvalue) g =
  Ok (tt, set_output (λ out, out ++ blank_before_var g [name]) g).
Proof.
  intros Hv Hname. rewrite accept_stmt_eq. cbn [visit].
  unfold visit_assignment_stmt, blank_before_var. simpl.
  assert (bool_decide (name ∈ scope) || is_private_name name = true) as Hr.
  { destruct Hname as [Hin| ->]; [|apply orb_true_r].
    by rewrite (bool_decide_eq_true_2 _ Hin). }
  rewrite andb_true_r.
  unfold mbind, M_bind, get. cbv beta.
  destruct (bool_decide (_indent g = "") &&
            negb (bool_decide (_state g ∈ [EMPTY; VAR]))) eqn:Hb.
  - set (g1 := set_output (λ out, out ++ [Str.nl]) g).
    assert (add_init name g1 = Ok (false, g1)) as Ha.
    { rewrite (add_init_cases name g1 vs scope) by done. by rewrite Hr. }
    unfold add, modify. fold g1. by rewrite Ha.
  - assert (add_init name g = Ok (false, g)) as Ha.
    { rewrite (add_init_cases name g vs scope) by done. by rewrite Hr. }
    unfold mret, M_ret. rewrite Ha. simpl.
    unfold set_output. rewrite app_nil_r. by destruct g.
Qed.

Lemma blank_before_var_nil g : blank_before_var g [] = [].
Proof.
  unfold blank_before_var. rewrite (bool_decide_eq_false_2 ([] ≠ [])) by auto.
  by rewrite andb_false_r.
Qed.

Lemma blank_before_var_cons g (name : string) names :
  blank_before_var g (name :: names) =
  if bool_decide (_indent g = "") &&
     negb (bool_decide (_state g ∈ [EMPTY; VAR]))
  then [Str.nl] else [].
Proof.
  unfold blank_before_var.
  rewrite (bool_decide_eq_true_2 (name :: names ≠ [])) by done.
  by rewrite andb_true_r.
Qed.

Lemma blank_before_var_fields g g' names :
  _indent g' = _indent g → _state g' = _state g →
  blank_before_var g' names = blank_before_var g names.
Proof. unfold blank_before_var. by intros -> ->. Qed.

(** The loop of [visit_assignment_stmt], in full: one blank line at most,
    in front of the first request, and one declaration for each requested
    name that is neither private nor in the scope, at its first
    occurrence. *)
Lemma assign_items_exact (items : list expr) :
  ∀ sep found g vs scope,
    _vars g = vs ++ [scope] →
    let declared := fresh scope (omap bare_name items) in
    ∃ g',
      assign_items items sep found g =
        Ok (found || negb (bool_decide (declared = [])), g') ∧
      _output g' =
        _output g ++
        (if sep then [] else blank_before_var g (omap bare_name items)) ++
        (declaration (_indent g) <$> declared) ∧
      _vars g' = vs ++ [scope ++ declared] ∧
      _state g' = _state g ∧ _indent g' = _indent g ∧
      _classes g' = _classes g ∧ _import_lines g' = _import_lines g.
Proof.
  induction items as [|item rest IH]; intros sep found g vs scope Hv; simpl.
  { exists g. rewrite blank_before_var_nil, orb_false_r, !app_nil_r.
    split_and!; try done. by destruct sep; rewrite app_nil_r. }
  destruct item as [| | | | |name| | | | |]; try (by apply IH).
  simpl. rewrite blank_before_var_cons.
  unfold mbind at 1, M_bind at 1, get. rewrite <- !andb_assoc.
  set (top := bool_decide (_indent g = "") &&
              negb (bool_decide (_state g ∈ [EMPTY; VAR]))).
  set (g1 := if negb sep && top
             then set_output (λ out, out ++ [Str.nl]) g else g).
  assert ((if negb sep && top then add Str.nl else mret tt) g = Ok (tt, g1))
    as H1 by (unfold g1; by destruct (negb sep && top)).
  assert (_vars g1 = vs ++ [scope] ∧ _indent g1 = _indent g ∧
          _state g1 = _state g ∧ _classes g1 = _classes g ∧
          _import_lines g1 = _import_lines g ∧
          _output g1 = _output g ++ (if negb sep && top then [Str.nl] else []))
    as (Hv1 & Hi1 & Hs1 & Hc1 & Hl1 & Ho1).
  { unfold g1. destruct (negb sep && top); simpl; by rewrite ?app_nil_r. }
  rewrite (bind_step _ _ _ _ _ H1).
  unfold mbind at 1, M_bind at 1. rewrite (add_init_cases _ _ _ _ Hv1).
  destruct (bool_decide (name ∈ scope) || is_private_name name).
  - destruct (IH (sep || negb sep && top) (false || found) g1 vs scope Hv1)
      as (g' & H & Ho & Hvs & Hs & Hi & Hc & Hl).
    exists g'. split; [exact H|].
    rewrite Ho, Ho1, Hi1, Hs, Hi, Hc, Hl.
    rewrite (blank_before_var_fields g g1) by done.
    split_and!; try done.
    rewrite <- !app_assoc. f_equal.
    unfold blank_before_var. fold top.
    by destruct sep, top; simpl.
  - set (g2 := set_imports _ _).
    assert (_vars g2 = vs ++ [scope ++ [name]] ∧ _indent g2 = _indent g ∧
            _state g2 = _state g ∧ _classes g2 = _classes g ∧
            _import_lines g2 = _import_lines g ∧
            _output g2 = _output g1 ++ [declaration (_indent g) name])
      as (Hv2 & Hi2 & Hs2 & Hc2 & Hl2 & Ho2).
    { unfold g2. simpl. by rewrite Hi1. }
    destruct (IH (sep || negb sep && top) (true || found) g2 vs
                 (scope ++ [name]) Hv2)
      as (g' & H & Ho & Hvs & Hs & Hi & Hc & Hl).
    exists g'. split.
    { rewrite H. simpl. by rewrite orb_true_r. }
    rewrite Ho, Ho2, Ho1, Hi2, Hs, Hi, Hc, Hl, Hvs.
    rewrite (blank_before_var_fields g g2) by done.
    split_and!; try done.
    + rewrite <- !app_assoc. f_equal.
      unfold blank_before_var. fold top.
      destruct sep, top; simpl; try done.
    + by rewrite <- !app_assoc.
Qed.

(** The visit of an assignment, in full. *)
Lemma assignment_run lvalue rest rvalue g vs scope :
  _vars g = vs ++ [scope] →
  let declared := fresh scope (target_names lvalue) in
  ∃ g',
    accept_stmt (AssignmentStmt (lvalue :: rest) rvalue) g = Ok (tt, g') ∧
    _output g' =
      _output g ++ blank_before_var g (target_names lvalue) ++
      (declaration (_indent g) <$> declared) ∧
    _vars g' = vs ++ [scope ++ declared] ∧
    _state g' = (if bool_decide (declared = []) then _state g else VAR) ∧
    _indent g' = _indent g.
Proof.
  intros Hv declared. rewrite accept_stmt_eq. cbn [visit].
  unfold visit_assignment_stmt. simpl.
  destruct (assign_items_exact (items_of lvalue) false false g vs scope Hv)
    as (g1 & H & Ho & Hvs & Hs & Hi & _).
  rewrite (bind_step _ _ _ _ _ H). simpl. fold (target_names lvalue).
  fold declared. fold (target_names lvalue) in Ho, Hvs. fold declared in Ho, Hvs.
  destruct (bool_decide (declared = [])); simpl.
  - exists g1. by split_and!.
  - eexists. split; [reflexivity|]. by split_and!.
Qed.

(** *** The parameter loop and its ['*'] entry *)

Lemma plain_entry_not_star (name : string) (kind : arg_kind) :
  name ≠ "" → name ≠ "*" → plain_entry name kind ≠ "*".
Proof.
  intros Hne Hns. unfold plain_entry. repeat case_bool_decide; [| |done].
  - change ("*" +:+ name) with (String "*"%char name). congruence.
  - change ("**" +:+ name) with (String "*"%char (String "*"%char name)).
    congruence.
Qed.

Lemma default_entry_not_star (name d : string) : name +:+ "=" +:+ d ≠ "*".
Proof.
  destruct name as [|c name].
  - change ("" +:+ "=" +:+ d) with (String "="%char d). congruence.
  - change (String c name +:+ "=" +:+ d)
      with (String c (name +:+ String "="%char d)).
    intros [= _ H]. by apply StrFacts.app_eq_nil in H as [_ ?].
Qed.

Lemma with_star_cons (entry : string) entries (k : option nat) :
  with_star (entry :: entries) (S <$> k) = entry :: with_star entries k.
Proof. by destruct k. Qed.

Lemma render_arg_entry init args i name kind g args1 g1 :
  name ≠ "" → name ≠ "*" →
  render_arg init args i name kind g = Ok (args1, g1) →
  ∃ entry,
    entry ≠ "*" ∧ entry_for init i name kind entry ∧
    args1 =
      (if keyword_default init i kind && negb (bool_decide ("*" ∈ args))
       then args ++ ["*"] else args) ++ [entry].
Proof.
  intros Hne Hns. unfold render_arg, entry_for, keyword_default.
  destruct (init !! i) as [[rvalue|]|]; [| |done].
  - intros (d & g0 & Hd & [= <- _])%bind_Ok.
    exists (name +:+ "=" +:+ d). rewrite andb_true_r.
    split; [apply default_entry_not_star|]. split; [eauto|done].
  - intros H. exists (plain_entry name kind). rewrite andb_false_r. simpl.
    split; [by apply plain_entry_not_star|]. split; [done|].
    unfold plain_entry. by repeat case_bool_decide; injection H as <- _.
Qed.

Lemma render_args_star init zipped :
  Forall (λ p, p.1 ≠ "" ∧ p.1 ≠ "*") zipped →
  ∀ args i g rendered g',
    render_args init args i zipped g = Ok (rendered, g') →
    ∃ entries,
      entries_of init i zipped entries ∧
      rendered =
        args ++
        with_star entries
          (if bool_decide ("*" ∈ args) then None
           else first_keyword_default init i zipped).
Proof.
  induction 1 as [|[name kind] rest [Hne Hns] _ IH];
    intros args i g rendered g'; simpl.
  { intros [= <- _]. exists []. split.
    - split; [done|]. split; [constructor|]. intros j n k. by rewrite lookup_nil.
    - case_bool_decide; simpl; by rewrite app_nil_r. }
  simpl in Hne, Hns.
  intros (args1 & g1 & H1 & H2)%bind_Ok.
  apply (render_arg_entry _ _ _ _ _ _ _ _ Hne Hns) in H1
    as (entry & Hentry & Hfor & ->).
  apply IH in H2 as (entries & (Hlen & Hall & Hlook) & ->).
  exists (entry :: entries). split.
  - split; [simpl; by rewrite Hlen|]. split; [by constructor|].
    intros [|j] n k; simpl.
    + intros [= <- <-]. exists entry. by rewrite Nat.add_0_r.
    + intros Hj. destruct (Hlook j n k Hj) as (e & He & Hf). exists e.
      split; [done|]. by replace (i + S j) with (S i + j) by lia.
  - destruct (keyword_default init i kind);
      destruct (decide ("*" ∈ args)) as [Hin|Hin];
      rewrite ?(bool_decide_eq_true_2 _ Hin), ?(bool_decide_eq_false_2 _ Hin);
      simpl.
    + rewrite bool_decide_eq_true_2 by (apply elem_of_app; by left).
      simpl. by rewrite <- app_assoc.
    + rewrite bool_decide_eq_true_2
        by (rewrite !elem_of_app, list_elem_of_singleton; auto).
      simpl. by rewrite <- !app_assoc.
    + rewrite bool_decide_eq_true_2 by (apply elem_of_app; by left).
      simpl. by rewrite <- app_assoc.
    + rewrite bool_decide_eq_false_2.
      2:{ rewrite elem_of_app, list_elem_of_singleton. intros [?|?]; auto. }
      rewrite with_star_cons. by rewrite <- app_assoc.
Qed.

Lemma visit_func_def_signature o name args arg_kinds init g g' :
  is_private_name name = false →
  visit_func_def o name args arg_kinds init g = Ok (tt, g') →
  ∃ pre rendered gm gm',
    render_args init [] 0 (zip args arg_kinds) gm = Ok (rendered, gm') ∧
    _output g' = pre ++ [Str.join ", " rendered; "): pass" +:+ Str.nl].
Proof.
  intros Hp. unfold visit_func_def. rewrite Hp.
  intros (g0 & g1 & [= <- <-] & H)%bind_Ok.
  apply bind_Ok in H as ([] & g1 & H1 & H).
  destruct (find_self_initializers o) as [self_inits|e]; [|done].
  apply bind_Ok in H as ([] & g2 & H2 & H).
  apply bind_Ok in H as ([] & g3 & H3 & H).
  apply bind_Ok in H as (rendered & g4 & H4 & H).
  apply bind_Ok in H as ([] & g5 & H5 & H).
  apply bind_Ok in H as ([] & g6 & H6 & H).
  injection H as <-.
  apply add_output in H5, H6.
  exists (_output g4), rendered, g3, g4. split; [done|].
  cbn [set_state _output]. by rewrite H6, H5, <- app_assoc.
Qed.

(** *** The rendered parameters do not depend on the fields *)

Lemma render_default_text (rvalue : expr) g h d d' g' h' :
  render_default rvalue g = Ok (d, g') →
  render_default rvalue h = Ok (d', h') → d = d'.
Proof.
  destruct rvalue as [| | | |op e|name| | | | |]; cbn [render_default];
    try (by intros [= <- _] [= <- _]);
    try (run_unfold; by repeat case_bool_decide; intros [= <- _] [= <- _]).
  destruct (value_attr e); [|done]. by intros [= <- _] [= <- _].
Qed.

Lemma render_arg_text init args i name kind g h args1 args2 g' h' :
  render_arg init args i name kind g = Ok (args1, g') →
  render_arg init args i name kind h = Ok (args2, h') → args1 = args2.
Proof.
  unfold render_arg. destruct (init !! i) as [[rvalue|]|]; [| |done].
  - intros (d & g1 & Hd & [= <- _])%bind_Ok (d' & h1 & Hd' & [= <- _])%bind_Ok.
    by rewrite (render_default_text _ _ _ _ _ _ _ Hd Hd').
  - by repeat case_bool_decide; intros [= <- _] [= <- _].
Qed.

Lemma render_args_text init zipped :
  ∀ args i g h rendered rendered' g' h',
    render_args init args i zipped g = Ok (rendered, g') →
    render_args init args i zipped h = Ok (rendered', h') →
    rendered = rendered'.
Proof.
  induction zipped as [|[name kind] rest IH];
    intros args i g h rendered rendered' g' h'; simpl.
  { by intros [= <- _] [= <- _]. }
  intros (args1 & g1 & H1 & H2)%bind_Ok (args2 & h1 & H3 & H4)%bind_Ok.
  rewrite (render_arg_text _ _ _ _ _ _ _ _ _ _ _ H1 H3) in H2.
  by eapply IH.
Qed.

End CoverFacts.

(* ===================================================================== *)
(** ** Private names *)
(* ===================================================================== *)

Module Privacy.
Import Nodes Run Traverser Gen Props FrameFacts.

Lemma is_private_name_iff (name : string) :
  is_private_name name = true ↔
  (∃ r, name = "_" +:+ r) ∧
  ((¬ ∃ p, name = p +:+ "__") ∨
   name = "__all__" ∨ name = "__author__" ∨ name = "__version__").
Proof.
  unfold is_private_name.
  rewrite andb_true_iff, orb_true_iff, negb_true_iff, bool_decide_eq_true.
  rewrite StrFacts.startswith_spec, <- not_true_iff_false.
  rewrite StrFacts.endswith_spec.
  rewrite !elem_of_cons, elem_of_nil. tauto.
Qed.

Lemma add_init_private (name : string) g :
  is_private_name name = true → _vars g ≠ [] →
  add_init name g = Ok (false, g).
Proof.
  intros Hp Hv. unfold add_init. run_unfold.
  destruct (last (_vars g)) as [scope|] eqn:Hl.
  - case_bool_decide; [done|]. by rewrite Hp.
  - by apply last_None in Hl.
Qed.

(** C6: [is_private_name] depends on the name alone; it holds exactly of
    the names that start with an underscore and do not end with two
    underscores, and of [__all__], [__author__] and [__version__];
    a function with a private name is skipped without output or change of
    the fields, and a variable or attribute with a private name is not
    declared. *)
Theorem private_names_excluded :
  (∀ name,
     is_private_name name = true ↔
     (∃ r, name = "_" +:+ r) ∧
     ((¬ ∃ p, name = p +:+ "__") ∨
      name = "__all__" ∨ name = "__author__" ∨ name = "__version__")) ∧
  (is_private_name "__all__" = true ∧ is_private_name "__author__" = true ∧
   is_private_name "__version__" = true) ∧
  (∀ name, is_private_name name = true →
     (∀ args arg_kinds init body g,
        accept_stmt (FuncDef name args arg_kinds init body) g = Ok (tt, g)) ∧
     (∀ g, _vars g ≠ [] → add_init name g = Ok (false, g)) ∧
     (∀ g declared g', add_init name g = Ok (declared, g') →
        declared = false ∧ g' = g)).
Proof.
  split; [exact is_private_name_iff|]. split; [done|].
  intros name Hp. split_and!.
  - intros args arg_kinds init body g. rewrite accept_stmt_eq. simpl.
    unfold visit_func_def. by rewrite Hp.
  - intros g. by apply add_init_private.
  - intros g declared g' H. destruct (_vars g) eqn:E.
    + unfold add_init in H. revert H. run_unfold. by rewrite E.
    + rewrite add_init_private in H; [|done|by rewrite E]. by injection H.
Qed.

Lemma private_names_excluded_witness :
  is_private_name "_cache" = true ∧
  accept_stmt (FuncDef "_cache" [] [] [] []) init = Ok (tt, init) ∧
  add_init "_cache" init = Ok (false, init).
Proof.
  destruct private_names_excluded as (_ & _ & H).
  destruct (H "_cache" eq_refl) as (Hf & Hv & _).
  split; [reflexivity|]. split; [apply Hf|apply Hv; discriminate].
Defined.

End Privacy.

(* ===================================================================== *)
(** ** One declaration per name and scope *)
(* ===================================================================== *)

Module Scopes.
Import Nodes Run Traverser Gen Props FrameFacts Cover CoverFacts.

Lemma add_init_declared (lvalue : string) g scope :
  last (_vars g) = Some scope → lvalue ∈ scope →
  add_init lvalue g = Ok (false, g).
Proof.
  intros Hl Hin. unfold add_init. run_unfold. rewrite Hl.
  by rewrite bool_decide_eq_true_2.
Qed.

Lemma later_fields g g' : _vars g' = _vars g → later g g'.
Proof. unfold later. intros ->. apply scope_grows_refl. Qed.

(** C5: once [add_init] has declared a name, every later request for the
    same name in that scope returns [False] and leaves the output and all
    other fields as they are, where later in the scope means that the
    scope stack is the same but for names appended to its innermost scope.
    Every step of a run within the scope leads to such fields: the visit
    of a statement or of a block, a request, the loops over the targets of
    an assignment and over the attributes of a function, and every change
    of the output and of the formatting state.  So, in a run: when an
    assignment to a name is followed in its block by any statements and
    then by another assignment to the name, the second one declares
    nothing, and emits at most its blank line; and the loop over the
    attributes of a function declares each name once, whatever the
    repetitions. *)
Theorem declared_once :
  (∀ lvalue g g1 g2,
     add_init lvalue g = Ok (true, g1) →
     later g1 g2 →
     add_init lvalue g2 = Ok (false, g2)) ∧
  ((∀ g, later g g) ∧
   (∀ g1 g2 g3, later g1 g2 → later g2 g3 → later g1 g3) ∧
   (∀ o g g', accept_stmt o g = Ok (tt, g') → later g g') ∧
   (∀ l g g', accept_block l g = Ok (tt, g') → later g g') ∧
   (∀ name declared g g', add_init name g = Ok (declared, g') → later g g') ∧
   (∀ items sep found g r g',
      assign_items items sep found g = Ok (r, g') → later g g') ∧
   (∀ names g g',
      for_each (λ i, add_init i ;; mret tt) names g = Ok (tt, g') →
      later g g') ∧
   (∀ f g, later g (set_output f g)) ∧
   (∀ s g, later g (set_state s g))) ∧
  (∀ name rest rvalue between rest' rvalue' g g2,
     accept_block (AssignmentStmt (NameExpr name :: rest) rvalue :: between) g =
       Ok (tt, g2) →
     accept_stmt (AssignmentStmt (NameExpr name :: rest') rvalue') g2 =
       Ok (tt, set_output (λ out, out ++ blank_before_var g2 [name]) g2)) ∧
  (∀ names g vs scope,
     _vars g = vs ++ [scope] →
     ∃ g',
       for_each (λ i, add_init i ;; mret tt) names g = Ok (tt, g') ∧
       _vars g' = vs ++ [scope ++ fresh scope names] ∧
       _output g' =
         _output g ++ (declaration (_indent g) <$> fresh scope names) ∧
       NoDup (fresh scope names) ∧
       ∀ name, name ∈ fresh scope names → name ∉ scope).
Proof.
  split_and!.
  - intros lvalue g g1 g2 (vs & scope & _ & _ & _ & Hv & _)%add_init_true Hl.
    unfold later in Hl. rewrite Hv in Hl.
    apply scope_grows_snoc in Hl as [ext Hl].
    apply (add_init_declared _ _ ((scope ++ [lvalue]) ++ ext)).
    + rewrite Hl. apply last_snoc.
    + set_solver.
  - intros g. apply scope_grows_refl.
  - intros g1 g2 g3. apply scope_grows_trans.
  - intros o g g' [F _]%accept_stmt_framed. apply F.
  - intros l g g' [F _]%accept_block_framed. apply F.
  - intros name declared g g' [F _]%steady_add_init. apply F.
  - intros items sep found g r g' [F _]%assign_items_run. apply F.
  - intros names g g' [F _]%steady_declare_all. apply F.
  - intros f g. by apply later_fields.
  - intros s g. by apply later_fields.
  - intros name rest rvalue between rest' rvalue' g g2 H.
    simpl in H. apply bind_Ok in H as ([] & g1 & H1 & H2).
    assert (∃ vs scope, _vars g1 = vs ++ [scope] ∧
                        (name ∈ scope ∨ is_private_name name = true))
      as (vs & scope & Hv & Hname).
    { rewrite accept_stmt_eq in H1. cbn [visit] in H1.
      unfold visit_assignment_stmt in H1. simpl in H1.
      apply bind_Ok in H1 as (found & g0 & H0 & H1).
      assert (_vars g1 = _vars g0) as ->
        by (destruct found; by injection H1 as <-).
      apply bind_Ok in H0 as (ga & gb & [= <- <-] & H0).
      apply bind_Ok in H0 as ([] & gc & Hc & H0).
      apply bind_Ok in H0 as (declared & gd & Hd & [= _ <-]).
      by apply add_init_after in Hd. }
    apply accept_block_framed in H2 as [F _].
    pose proof (frame_vars _ _ F) as Hg. rewrite Hv in Hg.
    apply scope_grows_snoc in Hg as [ext Hv2].
    apply (assignment_refused name rest' rvalue' g2 vs (scope ++ ext) Hv2).
    destruct Hname as [Hin|Hp]; [left; set_solver|by right].
  - intros names g vs scope Hv.
    destruct (declare_all_run names g vs scope Hv) as (g' & H & Ho & Hvs & _).
    destruct (fresh_spec names scope) as [Hnd Hin].
    exists g'. split_and!; try done. intros name Hn.
    by apply Hin in Hn as (_ & Hs & _).
Qed.

Lemma declared_once_witness :
  let first := AssignmentStmt [NameExpr "x"] (IntExpr 1) in
  let second := AssignmentStmt [NameExpr "x"] (IntExpr 2) in
  let g1 := mkGen ["x = Undefined(Any)" +:+ Str.nl] [] ["Undefined"; "Any"]
                  "" [["x"]] EMPTY ∅ in
  let g2 := set_state VAR g1 in
  (add_init "x" init = Ok (true, g1) ∧
   accept_stmt first init = Ok (tt, g2) ∧
   add_init "x" g2 = Ok (false, g2)) ∧
  accept_stmt second g2 = Ok (tt, g2) ∧
  generate_stub [first; second] =
  Ok ("from typing import Undefined, Any" +:+ Str.nl +:+ Str.nl +:+
      "x = Undefined(Any)" +:+ Str.nl).
Proof.
  intros first second g1 g2.
  destruct declared_once as (Honce & (_ & _ & _ & _ & _ & _ & _ & _ & Hstate)
                             & Hblock & _).
  split; [split; [reflexivity|split; [reflexivity|]]|split; [|reflexivity]].
  - apply (Honce "x" init g1 g2 eq_refl). apply Hstate.
  - apply (Hblock "x" [] (IntExpr 1) [] [] (IntExpr 2) init g2). reflexivity.
Defined.

End Scopes.

(* ===================================================================== *)
(** ** Serialization *)
(* ===================================================================== *)

Module Serialization.
Import Nodes Run Traverser Gen Props FrameFacts.

Lemma app_nonempty (s t : string) : s ≠ "" → s +:+ t ≠ "".
Proof. intros Hs Hst. by apply StrFacts.app_eq_nil in Hst as [? _]. Qed.

Lemma wildcard_line_nonempty (line : string) : wildcard_line line → line ≠ "".
Proof. intros [id ->]. by apply app_nonempty. Qed.

Lemma cat_nonempty (line : string) (lines : list string) :
  line ≠ "" → Str.cat (line :: lines) ≠ "".
Proof.
  intros Hl. unfold Str.cat. simpl. destruct lines; [done|].
  by apply app_nonempty.
Qed.

Lemma output_parts g :
  Forall wildcard_line (_import_lines g) →
  output g =
  helper_import (_imports g) +:+ Str.cat (_import_lines g) +:+
  blank_after_imports (_imports g) (_import_lines g) +:+
  Str.cat (_output g).
Proof.
  intros Hl. unfold output, helper_import, blank_after_imports. cbv zeta.
  destruct (_imports g) as [|name names];
    destruct (_import_lines g) as [|line lines].
  - done.
  - apply Forall_cons in Hl as [Hline%wildcard_line_nonempty _].
    rewrite bool_decide_eq_false_2
      by (rewrite StrFacts.app_nil_l; by apply cat_nonempty).
    by rewrite !StrFacts.app_nil_l, StrFacts.app_assoc.
  - rewrite bool_decide_eq_false_2 by done.
    by rewrite !StrFacts.app_nil_l, !StrFacts.app_assoc.
  - rewrite bool_decide_eq_false_2 by done.
    by rewrite !StrFacts.app_nil_l, !StrFacts.app_assoc.
Qed.

Lemma visit_mypy_file_frame defs g :
  exec (visit_mypy_file defs) init = Ok g →
  NoDup (_imports g) ∧ Forall wildcard_line (_import_lines g).
Proof.
  unfold exec, visit_mypy_file.
  destruct (find_classes defs) as [classes|e]; [|done].
  destruct ((modify (set_classes classes) ;; accept_file visit defs) init)
    as [[[] g']|e] eqn:H; [|done].
  intros [= ->].
  apply bind_Ok in H as ([] & g1 & [= <-] & H).
  apply (accept_block_framed defs) in H as [[_ _ _ _ Hi Hl] _].
  split; [apply Hi|apply Hl]; simpl; constructor.
Qed.

(** C8: the text that [generate_stub] writes is, in this order: one line
    importing from [typing] the helper names joined by a comma and a
    space, if there are any, in the order [add_import] first saw them and
    without repetition; the recorded wildcard-import lines as they were
    recorded, repetitions included; one empty line if there was either;
    the fragments of the output buffer in the order they were emitted. *)
Theorem generate_stub_text :
  (∀ defs text,
     generate_stub defs = Ok text →
     ∃ g, exec (visit_mypy_file defs) init = Ok g ∧
          NoDup (_imports g) ∧
          text =
            helper_import (_imports g) +:+ Str.cat (_import_lines g) +:+
            blank_after_imports (_imports g) (_import_lines g) +:+
            Str.cat (_output g)) ∧
  (∀ name g,
     exec (add_import name) g =
     Ok (if bool_decide (name ∈ _imports g) then g
         else set_imports (λ l, l ++ [name]) g)) ∧
  (∀ id g,
     exec (visit_import_all id) g =
     Ok (set_import_lines
           (λ l, l ++ ["from " +:+ id +:+ " import *" +:+ Str.nl]) g)).
Proof.
  split_and!.
  - intros defs text. unfold generate_stub.
    destruct (exec (visit_mypy_file defs) init) as [g|e] eqn:H; [|done].
    intros [= <-]. exists g.
    apply visit_mypy_file_frame in H as [Hi Hl].
    split_and!; [done..|]. by apply output_parts.
  - intros name g. unfold exec, add_import. run_unfold.
    by case_bool_decide.
  - done.
Qed.

Lemma generate_stub_text_witness :
  let defs := [ImportAll "os"; AssignmentStmt [NameExpr "x"] (IntExpr 1);
               ImportAll "os"] in
  let text := "from typing import Undefined, Any" +:+ Str.nl +:+
              "from os import *" +:+ Str.nl +:+
              "from os import *" +:+ Str.nl +:+
              Str.nl +:+ "x = Undefined(Any)" +:+ Str.nl in
  generate_stub defs = Ok text ∧
  ∃ g, exec (visit_mypy_file defs) init = Ok g ∧
       NoDup (_imports g) ∧
       text =
         helper_import (_imports g) +:+ Str.cat (_import_lines g) +:+
         blank_after_imports (_imports g) (_import_lines g) +:+
         Str.cat (_output g).
Proof.
  split; [reflexivity|].
  apply (proj1 generate_stub_text). reflexivity.
Defined.

End Serialization.

(* ===================================================================== *)
(** ** Parameters and their default values *)
(* ===================================================================== *)

Module Defaults.
Import Nodes Run Traverser Gen Props FrameFacts Cover CoverFacts.

Lemma render_default_other (rvalue : expr) g :
  literal_shape rvalue = false →
  render_default rvalue g =
  Ok ("Undefined",
      if bool_decide ("Undefined" ∈ _imports g) then g
      else set_imports (λ l, l ++ ["Undefined"]) g).
Proof.
  intros Hs.
  destruct rvalue as [| | | | |name| | | | |]; cbn [literal_shape] in Hs;
    try done; cbn [render_default]; try rewrite Hs; clear Hs; run_unfold;
    by case_bool_decide.
Qed.

(** C1, as the code has it: a default value that is none of the shapes
    tested for (an integer, string, byte-string or float literal, a unary
    expression, the name [None]) is rendered as [name=Undefined], and the
    only helper name the rendering registers is [Undefined]: [Any] is
    among the helper names afterwards only if it was there before. *)
Theorem unknown_default_registers_undefined
    (init : list (option expr)) (args : list string) (i : nat)
    (name : string) (kind : arg_kind) (rvalue : expr) g :
  init !! i = Some (Some rvalue) →
  literal_shape rvalue = false →
  ∃ g',
    render_arg init args i name kind g =
      Ok ((if bool_decide (kind = ARG_NAMED) && negb (bool_decide ("*" ∈ args))
           then args ++ ["*"] else args) ++ [name +:+ "=Undefined"], g') ∧
    g' = (if bool_decide ("Undefined" ∈ _imports g) then g
          else set_imports (λ l, l ++ ["Undefined"]) g) ∧
    "Undefined" ∈ _imports g' ∧
    ("Any" ∈ _imports g' ↔ "Any" ∈ _imports g).
Proof.
  intros Hi Hs. eexists. split; [|split; [reflexivity|]].
  - unfold render_arg. rewrite Hi.
    rewrite (bind_step _ _ _ _ _ (render_default_other _ _ Hs)).
    reflexivity.
  - case_bool_decide as Hin; [done|]. simpl.
    rewrite !elem_of_app, !list_elem_of_singleton. split; [auto|].
    split; [by intros [?|?]|auto].
Qed.

Lemma unknown_default_registers_undefined_witness :
  ∃ g',
    render_arg [Some (CallExpr (NameExpr "some_call") [])] [] 0 "x" ARG_OPT
               init = Ok (["x=Undefined"], g') ∧
    g' = set_imports (λ l, l ++ ["Undefined"]) init ∧
    "Undefined" ∈ _imports g' ∧
    ("Any" ∈ _imports g' ↔ "Any" ∈ _imports init).
Proof.
  exact (unknown_default_registers_undefined
           [Some (CallExpr (NameExpr "some_call") [])] [] 0 "x" ARG_OPT
           (CallExpr (NameExpr "some_call") []) init eq_refl eq_refl).
Defined.

(** C1 as stated fails: for [def f(x=some_call()): pass] the generator
    registers [Undefined] alone, and the text written imports no [Any]. *)
Lemma unknown_default_does_not_register_any :
  let some_call := CallExpr (NameExpr "some_call") [] in
  let defs := [FuncDef "f" ["x"] [ARG_OPT] [Some some_call] [PassStmt]] in
  literal_shape some_call = false ∧
  generate_stub defs =
    Ok ("from typing import Undefined" +:+ Str.nl +:+ Str.nl +:+
        "def f(x=Undefined): pass" +:+ Str.nl) ∧
  ∃ g, exec (visit_mypy_file defs) init = Ok g ∧
       ¬ ("Undefined" ∈ _imports g ∧ "Any" ∈ _imports g).
Proof.
  split; [reflexivity|]. split; [reflexivity|].
  eexists. split; [reflexivity|]. simpl.
  by intros [_ [=]%list_elem_of_singleton].
Qed.

(** C10: a keyword-only parameter without a default value is rendered as
    its bare name, exactly as a positional parameter is, and no ['*'] entry
    is put before it; an iteration of the parameter loop puts a ['*'] entry
    before the parameter exactly when the parameter is keyword-only, has a
    default value, and the list built so far holds no ['*'] entry.  The
    list tested is the one the loop has built: continued from any list, the
    loop appends the entries of the parameters, one for each and in their
    order, with a single ['*'] entry in front of the first keyword-only
    parameter with a default value when the list held none, and with no
    ['*'] entry when it held one; so the parameter list of a function that
    is emitted has at most one ['*'] entry.  (A parameter named by the
    empty string or by an asterisk would itself give that entry.) *)
Theorem keyword_only_without_default :
  (∀ init args i name g,
     init !! i = Some None →
     render_arg init args i name ARG_NAMED g = Ok (args ++ [name], g) ∧
     render_arg init args i name ARG_NAMED g =
     render_arg init args i name ARG_POS g) ∧
  (∀ init args i name kind g args' g',
     render_arg init args i name kind g = Ok (args', g') →
     ∃ rendered,
       (kind = ARG_NAMED ∧ has_default init i ∧ ("*" ∉ args) ∧
        args' = args ++ ["*"; rendered]) ∨
       (¬ (kind = ARG_NAMED ∧ has_default init i ∧ ("*" ∉ args)) ∧
        args' = args ++ [rendered])) ∧
  (∀ init zipped args i g rendered g',
     Forall (λ p, p.1 ≠ "" ∧ p.1 ≠ "*") zipped →
     render_args init args i zipped g = Ok (rendered, g') →
     ∃ entries,
       entries_of init i zipped entries ∧
       rendered =
         args ++
         with_star entries
           (if bool_decide ("*" ∈ args) then None
            else first_keyword_default init i zipped)) ∧
  (∀ name args arg_kinds init body g g',
     is_private_name name = false →
     Forall (λ p, p.1 ≠ "" ∧ p.1 ≠ "*") (zip args arg_kinds) →
     accept_stmt (FuncDef name args arg_kinds init body) g = Ok (tt, g') →
     ∃ pre entries,
       entries_of init 0 (zip args arg_kinds) entries ∧
       _output g' =
         pre ++
         [Str.join ", "
            (with_star entries
               (first_keyword_default init 0 (zip args arg_kinds)));
          "): pass" +:+ Str.nl]).
Proof.
  split_and!.
  - intros init args i name g Hi. unfold render_arg. by rewrite Hi.
  - intros init args i name kind g args' g'. unfold render_arg, has_default.
    destruct (init !! i) as [[rvalue|]|] eqn:Hi; [| |done].
    + intros (d & g1 & _ & [= <- _])%bind_Ok.
      exists (name +:+ "=" +:+ d).
      case_bool_decide as Hk; simpl.
      * case_bool_decide as Hin; simpl.
        -- right. split; [tauto|done].
        -- left. split_and!; eauto. by rewrite <- List.app_assoc.
      * right. split; [tauto|done].
    + intros H.
      assert (∃ rendered, args' = args ++ [rendered]) as [r ->].
      { repeat case_bool_decide; injection H as <- _; eauto. }
      exists r. right. split; [|done]. by intros (_ & [? [=]] & _).
  - intros init zipped args i g rendered g' Hnames.
    by apply render_args_star.
  - intros name args arg_kinds init body g g' Hp Hnames H.
    rewrite accept_stmt_eq in H. cbn [visit] in H.
    apply (visit_func_def_signature _ _ _ _ _ _ _ Hp) in H
      as (pre & rendered & gm & gm' & Hr & Ho).
    apply (render_args_star _ _ Hnames) in Hr as (entries & He & ->).
    by exists pre, entries.
Qed.

Lemma keyword_only_without_default_witness :
  let zipped := [("a", ARG_POS); ("b", ARG_NAMED); ("c", ARG_NAMED)] in
  let defaults := [None; Some (IntExpr 2); Some (IntExpr 3)] in
  (render_arg [None] [] 0 "c" ARG_NAMED init = Ok (["c"], init) ∧
   render_arg [None] [] 0 "c" ARG_NAMED init =
   render_arg [None] [] 0 "c" ARG_POS init) ∧
  (∃ rendered,
     (ARG_NAMED = ARG_NAMED ∧ has_default [None; Some (IntExpr 3)] 1 ∧
      ("*" ∉ ["a"]) ∧ ["a"; "*"; "b=3"] = ["a"] ++ ["*"; rendered]) ∨
     (¬ (ARG_NAMED = ARG_NAMED ∧ has_default [None; Some (IntExpr 3)] 1 ∧
         ("*" ∉ ["a"])) ∧
      ["a"; "*"; "b=3"] = ["a"] ++ [rendered])) ∧
  (render_args defaults [] 0 zipped init =
     Ok (["a"; "*"; "b=2"; "c=3"], init) ∧
   first_keyword_default defaults 0 zipped = Some 1 ∧
   ∃ entries,
     entries_of defaults 0 zipped entries ∧
     ["a"; "*"; "b=2"; "c=3"] = [] ++ with_star entries (Some 1)) ∧
  generate_stub [FuncDef "f" ["c"] [ARG_NAMED] [None] []] =
  generate_stub [FuncDef "f" ["c"] [ARG_POS] [None] []] ∧
  generate_stub [FuncDef "f" ["a"; "b"; "c"] [ARG_POS; ARG_NAMED; ARG_NAMED]
                   [None; Some (IntExpr 3); None] []] =
  Ok ("def f(a, *, b=3, c): pass" +:+ Str.nl) ∧
  generate_stub [FuncDef "f" ["a"; "b"; "c"] [ARG_POS; ARG_NAMED; ARG_NAMED]
                   defaults []] =
  Ok ("def f(a, *, b=2, c=3): pass" +:+ Str.nl).
Proof.
  intros zipped defaults.
  destruct keyword_only_without_default as (Hbare & Hstar & Hloop & _).
  split; [apply (Hbare [None] [] 0 "c" init eq_refl)|].
  split; [|split; [|split; [|split]]; try reflexivity].
  - apply (Hstar [None; Some (IntExpr 3)] ["a"] 1 "b" ARG_NAMED init
             ["a"; "*"; "b=3"] init eq_refl).
  - split; [reflexivity|]. split; [reflexivity|].
    apply (Hloop defaults zipped [] 0 init ["a"; "*"; "b=2"; "c=3"] init);
      [|reflexivity].
    repeat constructor; discriminate.
Defined.

End Defaults.

(* ===================================================================== *)
(** ** Conditionals *)
(* ===================================================================== *)

Module Conditionals.
Import Nodes Run Traverser Gen Props FrameFacts.

Lemma is_main_guard_true (expr : Nodes.expr) :
  is_main_guard expr = Ok true ↔
  ∃ operators value rest,
    expr = ComparisonExpr operators
             (NameExpr "__name__" :: StrExpr value :: rest) ∧
    ∃ a b, value = a +:+ "__main__" +:+ b.
Proof.
  split.
  - intros H. destruct expr as [| | | | | | | | |operators operands|];
      try done.
    destruct operands as [|[| | | | |name| | | | |] operands]; try done.
    destruct operands as [|[|value| | | | | | | | |] rest]; try done.
    simpl in H. injection H as H.
    apply andb_true_iff in H as [->%bool_decide_eq_true H].
    apply StrFacts.contains_spec in H. eauto 6.
  - intros (operators & value & rest & -> & H).
    apply StrFacts.contains_spec in H. simpl. by rewrite H.
Qed.

(** The test of [visit_if_stmt], as the code has it: the visit returns at
    once, visiting no branch and emitting nothing, exactly when the first
    condition is a comparison, with any operators, whose first operand is
    the name [__name__] and whose second operand is a string literal that
    contains [__main__]; when the test is false the inherited method
    visits every branch body and then the else body. *)
Theorem main_guard_skipped :
  (∀ expr,
     is_main_guard expr = Ok true ↔
     ∃ operators value rest,
       expr = ComparisonExpr operators
                (NameExpr "__name__" :: StrExpr value :: rest) ∧
       ∃ a b, value = a +:+ "__main__" +:+ b) ∧
  (∀ expr conds body else_body g,
     is_main_guard expr = Ok true →
     accept_stmt (IfStmt (expr :: conds) body else_body) g = Ok (tt, g)) ∧
  (∀ expr conds body else_body,
     is_main_guard expr = Ok false →
     accept_stmt (IfStmt (expr :: conds) body else_body) =
     (for_each accept_block body ;;
      match else_body with
      | Some b => accept_block b
      | None => mret tt
      end)).
Proof.
  split; [exact is_main_guard_true|]. split.
  - intros expr conds body else_body g H. rewrite accept_stmt_eq. simpl.
    unfold visit_if_stmt. simpl. by rewrite H.
  - intros expr conds body else_body H. rewrite accept_stmt_eq. simpl.
    unfold visit_if_stmt. simpl. by rewrite H.
Qed.

Lemma main_guard_skipped_witness :
  let guard := ComparisonExpr ["=="] [NameExpr "__name__"; StrExpr "__main__"] in
  let other := ComparisonExpr ["=="] [NameExpr "DEBUG"; StrExpr "yes"] in
  let f := FuncDef "f" [] [] [] [] in
  is_main_guard guard = Ok true ∧
  accept_stmt (IfStmt [guard] [[f]] None) init = Ok (tt, init) ∧
  is_main_guard other = Ok false ∧
  accept_stmt (IfStmt [other] [[f]] None) =
  (for_each accept_block [[f]] ;; mret tt).
Proof.
  destruct main_guard_skipped as (_ & Hskip & Hvisit).
  split; [reflexivity|]. split; [by apply Hskip|].
  split; [reflexivity|]. by apply Hvisit.
Defined.

(** C4: the test of [visit_if_stmt] never looks at the operators of the
    comparison, although the comment above it reads "Ignore if
    __name__ == '__main__'".  On the module
    [if __name__ != '__main__': def f(): pass] the test holds and the
    conditional is skipped, so that the run writes nothing, where the
    claim has a comparison with another operator traversed and
    [def f(): pass] written, as it is under a condition on another name
    and for the function alone. *)
Lemma other_operator_skipped_too :
  let guard := ComparisonExpr ["!="] [NameExpr "__name__"; StrExpr "__main__"] in
  let other := ComparisonExpr ["!="] [NameExpr "DEBUG"; StrExpr "__main__"] in
  let f := FuncDef "f" [] [] [] [] in
  is_main_guard guard = Ok true ∧
  accept_stmt (IfStmt [guard] [[f]] None) init = Ok (tt, init) ∧
  (for_each accept_block [[f]] ;; mret tt) init ≠ Ok (tt, init) ∧
  generate_stub [IfStmt [guard] [[f]] None] = Ok "" ∧
  generate_stub [IfStmt [other] [[f]] None] =
    Ok ("def f(): pass" +:+ Str.nl) ∧
  generate_stub [f] = Ok ("def f(): pass" +:+ Str.nl).
Proof. by split_and!. Qed.

End Conditionals.

(* ===================================================================== *)
(** ** Base classes *)
(* ===================================================================== *)

Module Bases.
Import Nodes Run Traverser Gen Props FrameFacts Cover CoverFacts.

Lemma kept_base_Some (classes : gset string) (base : expr) (name : string) :
  kept_base classes base = Some name ↔
  base = NameExpr name ∧
  (name ∈ classes ∨ (∃ p, name = p +:+ "Exception") ∨
   (∃ p, name = p +:+ "Error")).
Proof.
  rewrite <- !StrFacts.endswith_spec, <- (bool_decide_eq_true (name ∈ classes)).
  rewrite <- !orb_true_iff, orb_assoc.
  destruct base as [| | | | |name'| | | | |]; simpl;
    try (split; [done|by intros [? _]]).
  destruct (_ || _ || _) eqn:E; split.
  - by intros [= <-].
  - by intros [[= <-] _].
  - done.
  - intros [[= <-] H]. congruence.
Qed.

Lemma class_traverser_block (l : list stmt) :
  Forall (λ o, ∀ results,
            accept ClassTraverser o results =
            Ok (tt, results ∪ outer_classes o)) l →
  ∀ results,
    for_each (accept ClassTraverser) l results =
    Ok (tt, results ∪ ⋃ (outer_classes <$> l)).
Proof.
  induction 1 as [|o l Ho _ IH]; intros results; simpl.
  - by rewrite (right_id_L ∅ (∪)).
  - rewrite (bind_step _ _ _ _ _ (Ho results)), IH.
    by rewrite (assoc_L (∪)).
Qed.

Lemma class_traverser_stmt (o : stmt) (results : gset string) :
  accept ClassTraverser o results = Ok (tt, results ∪ outer_classes o).
Proof.
  revert results.
  induction o as [name args kinds init body IH|func decorators IH|
                  name bases defs _|lvalues rvalue|conds body else_body IHb IHe|
                  id|e|] using stmt_nested_ind; intros results; simpl;
    try (by rewrite (right_id_L ∅ (∪))).
  - by apply class_traverser_block.
  - apply IH.
  - done.
  - assert (∀ results,
              for_each (for_each (accept ClassTraverser)) body results =
              Ok (tt, results ∪
                        ⋃ ((λ b, ⋃ (outer_classes <$> b)) <$> body))) as Hb.
    { clear IHe. induction IHb as [|b bs Hb _ IH]; intros r; simpl.
      - by rewrite (right_id_L ∅ (∪)).
      - rewrite (bind_step _ _ _ _ _ (class_traverser_block b Hb r)), IH.
        by rewrite (assoc_L (∪)). }
    rewrite (bind_step _ _ _ _ _ (Hb results)).
    destruct else_body as [b|]; simpl in *.
    + rewrite (class_traverser_block b IHe). by rewrite (assoc_L (∪)).
    + by rewrite (right_id_L ∅ (∪)).
Qed.

Lemma find_classes_outer (defs : list stmt) :
  find_classes defs = Ok (outer_classes_block defs).
Proof.
  unfold find_classes, exec, accept_file.
  rewrite class_traverser_block.
  - by rewrite (left_id_L ∅ (∪)).
  - apply Forall_forall. intros o _. apply class_traverser_stmt.
Qed.

(** The visit of a class that stands in a block: the fields it starts
    from, and the fragments of its header in the output. *)
Lemma class_in_block before name bases body after g g' :
  accept_block (before ++ ClassDef name bases body :: after) g = Ok (tt, g') →
  ∃ g1 g2 slot tail emitted,
    accept_block before g = Ok (tt, g1) ∧ _classes g1 = _classes g ∧
    accept_stmt (ClassDef name bases body) g1 = Ok (tt, g2) ∧
    accept_block after g2 = Ok (tt, g') ∧
    _output g2 =
      _output g1 ++ slot ++
      header_fragments (_classes g) name bases tail ++ emitted ∧
    (slot = [] ∨ slot = [""] ∨ slot = [Str.nl]) ∧
    (tail = Str.nl ∨ tail = " pass" +:+ Str.nl ∧ emitted = []) ∧
    grows (_output g2) (_output g').
Proof.
  unfold accept_block. rewrite for_each_app.
  intros ([] & g1 & H1 & H)%bind_Ok. cbn [for_each] in H.
  apply bind_Ok in H as ([] & g2 & H2 & H3).
  pose proof (accept_block_framed _ _ _ _ H1) as [F1 _].
  pose proof (accept_block_framed _ _ _ _ H3) as [F3 _].
  pose proof (frame_classes _ _ F1) as Hc.
  assert (∃ slot tail emitted,
    _output g2 =
      _output g1 ++ slot ++
      header_fragments (_classes g1) name bases tail ++ emitted ∧
    (slot = [] ∨ slot = [""] ∨ slot = [Str.nl]) ∧
    (tail = Str.nl ∨ tail = " pass" +:+ Str.nl ∧ emitted = []))
    as (slot & tail & emitted & Ho & Hslot & Htail).
  { pose proof H2 as H. rewrite accept_stmt_eq in H. cbn [visit] in H.
    destruct (accept_block body (enter_class name bases g1))
      as [[[] gb]|e] eqn:Hb;
      [|by rewrite (visit_class_def_raise _ _ _ _ _ Hb) in H].
    pose proof (accept_block_framed _ _ _ _ Hb) as Fb.
    rewrite (visit_class_def_cases _ _ _ _ _ Hb Fb) in H.
    case_bool_decide.
    - destruct (_ && _); [done|]. injection H as <-.
      exists (slot_fragments g1), (" pass" +:+ Str.nl), []. simpl.
      rewrite app_nil_r. split; [done|]. split; [|by right].
      unfold slot_fragments. destruct (reserved g1); [|by left].
      case_bool_decide; auto.
    - injection H as <-.
      destruct (frame_output _ _ (proj1 Fb)) as [emitted He].
      exists (if reserved g1 then [Str.nl] else []), Str.nl, emitted.
      cbn [leave_class _output]. split.
      { rewrite He. unfold enter_class. cbn [_output].
        by rewrite <- !app_assoc. }
      split; [|by left]. destruct (reserved g1); auto. }
  exists g1, g2, slot, tail, emitted. rewrite <- Hc.
  split_and!; try done. apply F3.
Qed.

(** C7, as the code has it: a base is kept in the header exactly when it
    is a bare name that is in the set [find_classes] collected or ends
    with [Exception] or [Error]; the kept names are written in their
    order, in parentheses and joined by a comma and a space; and
    [find_classes] collects the names of the classes of the module that
    are not in the body of another class (its walk enters functions and
    conditionals but not class bodies).  The set is collected before the
    walk and the walk runs on it: [visit_mypy_file] is the visit of the
    top-level statements from the fields with the collected set, no visit
    changes the set, the body of a class is visited with the set its
    header was rendered with, and so the header of every class that stands
    in a visited block, at the top level of the module in particular, has
    the bases kept by that set. *)
Theorem base_classes_filtered :
  (∀ classes base name,
     kept_base classes base = Some name ↔
     base = NameExpr name ∧
     (name ∈ classes ∨ (∃ p, name = p +:+ "Exception") ∨
      (∃ p, name = p +:+ "Error"))) ∧
  (∀ classes base_type_exprs name,
     name ∈ base_types classes base_type_exprs ↔
     ∃ base, base ∈ base_type_exprs ∧ kept_base classes base = Some name) ∧
  (∀ name base_type_exprs g,
     ∃ sep n g1,
       class_header name base_type_exprs g = Ok ((sep, n), g1) ∧
       _output g1 =
         _output g ++ (if reserved g then [Str.nl] else []) ++
         ["class " +:+ name] ++
         match base_types (_classes g) base_type_exprs with
         | [] => []
         | b :: bases => ["(" +:+ Str.join ", " (b :: bases) +:+ ")"]
         end ++ [":" +:+ Str.nl]) ∧
  (∀ defs, find_classes defs = Ok (outer_classes_block defs)) ∧
  (∀ defs classes g,
     find_classes defs = Ok classes →
     exec (visit_mypy_file defs) init = Ok g → _classes g = classes) ∧
  (∀ defs g,
     visit_mypy_file defs g =
     accept_block defs (set_classes (outer_classes_block defs) g)) ∧
  ((∀ o g g', accept_stmt o g = Ok (tt, g') → _classes g' = _classes g) ∧
   (∀ l g g', accept_block l g = Ok (tt, g') → _classes g' = _classes g) ∧
   (∀ name base_type_exprs g sep n g1,
      class_header name base_type_exprs g = Ok ((sep, n), g1) →
      _classes g1 = _classes g)) ∧
  (∀ before name bases body after g g',
     accept_block (before ++ ClassDef name bases body :: after) g =
       Ok (tt, g') →
     ∃ g1 g2 slot tail emitted,
       accept_block before g = Ok (tt, g1) ∧ _classes g1 = _classes g ∧
       accept_stmt (ClassDef name bases body) g1 = Ok (tt, g2) ∧
       accept_block after g2 = Ok (tt, g') ∧
       _output g2 =
         _output g1 ++ slot ++
         header_fragments (_classes g) name bases tail ++ emitted ∧
       (slot = [] ∨ slot = [""] ∨ slot = [Str.nl]) ∧
       (tail = Str.nl ∨ tail = " pass" +:+ Str.nl ∧ emitted = []) ∧
       grows (_output g2) (_output g')) ∧
  (∀ before name bases body after g,
     let defs := before ++ ClassDef name bases body :: after in
     exec (visit_mypy_file defs) init = Ok g →
     ∃ g1 g2 slot tail emitted,
       accept_block before (set_classes (outer_classes_block defs) init) =
         Ok (tt, g1) ∧
       accept_stmt (ClassDef name bases body) g1 = Ok (tt, g2) ∧
       _output g2 =
         _output g1 ++ slot ++
         header_fragments (outer_classes_block defs) name bases tail ++
         emitted ∧
       (slot = [] ∨ slot = [""] ∨ slot = [Str.nl]) ∧
       (tail = Str.nl ∨ tail = " pass" +:+ Str.nl ∧ emitted = []) ∧
       grows (_output g2) (_output g)).
Proof.
  assert (∀ defs g,
     visit_mypy_file defs g =
     accept_block defs (set_classes (outer_classes_block defs) g)) as Hrun.
  { intros defs g. unfold visit_mypy_file. by rewrite find_classes_outer. }
  split_and!.
  - exact kept_base_Some.
  - intros classes base_type_exprs name. unfold base_types.
    apply list_elem_of_omap.
  - intros name base_type_exprs g. eexists _, _, _.
    split; [apply class_header_run|done].
  - exact find_classes_outer.
  - intros defs classes g Hc. unfold exec, visit_mypy_file. rewrite Hc.
    destruct ((modify (set_classes classes) ;; accept_file visit defs) init)
      as [[[] g']|e] eqn:H; [|done].
    intros [= ->].
    apply bind_Ok in H as ([] & g1 & [= <-] & H).
    by apply (accept_block_framed defs) in H as [[_ -> _ _ _ _] _].
  - exact Hrun.
  - intros o g g' [F _]%accept_stmt_framed. apply F.
  - intros l g g' [F _]%accept_block_framed. apply F.
  - intros name base_type_exprs g sep n g1. rewrite class_header_run.
    by intros [= _ _ <-].
  - exact class_in_block.
  - intros before name bases body after g defs. unfold exec. rewrite Hrun.
    destruct (accept_block defs _) as [[[] g']|e] eqn:H; [|done].
    intros [= ->].
    apply class_in_block in H
      as (g1 & g2 & slot & tail & emitted & H1 & _ & H2 & _ & Ho & Hs & Ht & Hg).
    by exists g1, g2, slot, tail, emitted.
Qed.

Lemma base_classes_filtered_witness :
  let f := FuncDef "f" [] [] [] [] in
  let A := ClassDef "A" [] [f] in
  let defs := [A; ClassDef "B" [NameExpr "A"; NameExpr "X"] [f]] in
  find_classes defs = Ok {["A"; "B"]} ∧
  (∃ g, exec (visit_mypy_file defs) init = Ok g ∧ _classes g = {["A"; "B"]}) ∧
  generate_stub defs =
    Ok ("class A:" +:+ Str.nl +:+ "    def f(): pass" +:+ Str.nl +:+
        Str.nl +:+
        "class B(A):" +:+ Str.nl +:+ "    def f(): pass" +:+ Str.nl) ∧
  base_types (outer_classes_block defs) [NameExpr "A"; NameExpr "X"] = ["A"] ∧
  ∃ g1 g2 slot tail emitted,
    accept_block [A] (set_classes (outer_classes_block defs) init) =
      Ok (tt, g1) ∧
    accept_stmt (ClassDef "B" [NameExpr "A"; NameExpr "X"] [f]) g1 =
      Ok (tt, g2) ∧
    _output g2 =
      _output g1 ++ slot ++
      header_fragments (outer_classes_block defs) "B"
        [NameExpr "A"; NameExpr "X"] tail ++ emitted.
Proof.
  intros f A defs.
  destruct base_classes_filtered
    as (_ & _ & _ & H & Hend & _ & _ & _ & Hrun).
  split; [rewrite H; reflexivity|]. split; [|split; [reflexivity|]].
  { eexists. split; [vm_compute; reflexivity|].
    apply (Hend defs); vm_compute; reflexivity. }
  split; [vm_compute; reflexivity|].
  assert (∃ g, exec (visit_mypy_file defs) init = Ok g) as [g Hg]
    by (eexists; vm_compute; reflexivity).
  destruct (Hrun [A] "B" [NameExpr "A"; NameExpr "X"] [f] [] g Hg)
    as (g1 & g2 & slot & tail & emitted & H1 & H2 & Ho & _).
  by exists g1, g2, slot, tail, emitted.
Defined.

(** C7 as stated fails: a class declared in the body of another class of
    the module is not collected, so a base that names it is dropped. *)
Lemma nested_class_base_dropped :
  let f := FuncDef "f" [] [] [] [] in
  let defs := [ClassDef "C" [] [ClassDef "A" [] [f]];
               ClassDef "B" [NameExpr "A"; NameExpr "X"] [f]] in
  find_classes defs = Ok {["C"; "B"]} ∧
  generate_stub defs =
    Ok ("class C:" +:+ Str.nl +:+ "class A:" +:+ Str.nl +:+
        "        def f(): pass" +:+ Str.nl +:+ Str.nl +:+
        "class B:" +:+ Str.nl +:+ "    def f(): pass" +:+ Str.nl).
Proof.
  split; reflexivity.
Qed.

End Bases.

(* ===================================================================== *)
(** ** The formatting state and empty classes *)
(* ===================================================================== *)

Module Formatting.
Import Nodes Run Traverser Gen Props FrameFacts Cover CoverFacts.

(** The visit of a class, from its header and the visit of its body. *)
Lemma class_visit_cases name bases defs g sep n g1 g2 :
  class_header name bases g = Ok ((sep, n), g1) →
  accept_block defs g1 = Ok (tt, g2) →
  accept_stmt (ClassDef name bases defs) g =
  if bool_decide (length (_output g2) = n) then
    if bool_decide (_state g = EMPTY_CLASS) && negb (reserved g)
    then Raise UnboundLocalError
    else Ok (tt, leave_class g2
                   (_output g ++ slot_fragments g ++
                      header_fragments (_classes g) name bases
                        (" pass" +:+ Str.nl))
                   EMPTY_CLASS)
  else Ok (tt, leave_class g2 (_output g2) CLASS).
Proof.
  rewrite class_header_run. intros [= <- <- <-] Hb.
  rewrite accept_stmt_eq. simpl.
  apply visit_class_def_cases; [done|].
  by apply accept_block_framed in Hb.
Qed.

(** C2, as the code has it: at any indentation, the visit of a function
    that is not private sets the formatting state to [FUNC], the visit of
    a class sets it to [EMPTY_CLASS] when the body emitted nothing and to
    [CLASS] otherwise, and the visit of an assignment sets it to [VAR]
    when it declared a name and leaves it otherwise; a visit that emitted
    nothing leaves the state as it was.  The visit of an assignment
    returns, and it declares the bare names of its first target that are
    neither private nor in the innermost scope: the state afterwards is
    [VAR] exactly when there is such a name.  The visit of a function that
    is not private returns with the state [FUNC] when its subscripts are
    in range and its default values can be rendered. *)
Theorem formatting_state_after_visit :
  (∀ name args arg_kinds init body g g',
     is_private_name name = false →
     accept_stmt (FuncDef name args arg_kinds init body) g = Ok (tt, g') →
     _state g' = FUNC) ∧
  (∀ name bases defs g sep n g1 g2 g',
     class_header name bases g = Ok ((sep, n), g1) →
     accept_block defs g1 = Ok (tt, g2) →
     accept_stmt (ClassDef name bases defs) g = Ok (tt, g') →
     _state g' =
       if bool_decide (length (_output g2) = n) then EMPTY_CLASS else CLASS) ∧
  (∀ lvalues rvalue g g',
     accept_stmt (AssignmentStmt lvalues rvalue) g = Ok (tt, g') →
     _state g' = VAR ∧ length (_output g) < length (_output g') ∨
     _state g' = _state g) ∧
  (∀ o g g',
     accept_stmt o g = Ok (tt, g') →
     length (_output g') = length (_output g) →
     _state g' = _state g) ∧
  (∀ lvalue rest rvalue g vs scope,
     _vars g = vs ++ [scope] →
     let declared := fresh scope (target_names lvalue) in
     (∀ name, name ∈ declared ↔
              name ∈ target_names lvalue ∧ (name ∉ scope) ∧
              is_private_name name = false) ∧
     ∃ g',
       accept_stmt (AssignmentStmt (lvalue :: rest) rvalue) g = Ok (tt, g') ∧
       _vars g' = vs ++ [scope ++ declared] ∧
       _state g' = if bool_decide (declared = []) then _state g else VAR) ∧
  (∀ name args arg_kinds init body g,
     is_private_name name = false →
     safe (FuncDef name args arg_kinds init body) = true →
     _vars g ≠ [] →
     ∃ g',
       accept_stmt (FuncDef name args arg_kinds init body) g = Ok (tt, g') ∧
       _state g' = FUNC).
Proof.
  assert (∀ name args arg_kinds init body g g',
     is_private_name name = false →
     accept_stmt (FuncDef name args arg_kinds init body) g = Ok (tt, g') →
     _state g' = FUNC) as Hfunc.
  { intros name args arg_kinds init body g g' Hp H.
    rewrite accept_stmt_eq in H. simpl in H.
    apply visit_func_def_run in H. rewrite Hp in H. tauto. }
  split_and!.
  - exact Hfunc.
  - intros name bases defs g sep n g1 g2 g' Hh Hb.
    rewrite (class_visit_cases _ _ _ _ _ _ _ _ Hh Hb).
    case_bool_decide.
    + destruct (_ && _); [done|]. by intros [= <-].
    + by intros [= <-].
  - intros lvalues rvalue g g' H. rewrite accept_stmt_eq in H. simpl in H.
    by apply visit_assignment_stmt_run in H as [_ ?].
  - intros o g g' H Hlen. apply accept_stmt_framed in H.
    by apply (frame_quiet _ _ H).
  - intros lvalue rest rvalue g vs scope Hv declared.
    split; [apply fresh_spec|].
    destruct (assignment_run lvalue rest rvalue g vs scope Hv)
      as (g' & H & _ & Hvs & Hs & _).
    by exists g'.
  - intros name args arg_kinds init body g Hp Hs Hne.
    destruct (visit_func_def_total _ name args arg_kinds init body g
                eq_refl Hs Hne) as [g' H].
    exists g'. rewrite accept_stmt_eq. cbn [visit]. split; [done|].
    apply (Hfunc name args arg_kinds init body g g' Hp).
    by rewrite accept_stmt_eq.
Qed.

Lemma formatting_state_after_visit_witness :
  let g := mkGen ["class C"; ":" +:+ Str.nl] [] [] "    " [[]; []] EMPTY ∅ in
  let g' := mkGen ["class C"; ":" +:+ Str.nl; "    def f("; "self";
                   "): pass" +:+ Str.nl]
                  [] [] "    " [[]; []] FUNC ∅ in
  let g'' := mkGen ["class C"; ":" +:+ Str.nl; "    def f("; "self";
                    "): pass" +:+ Str.nl; "    x = Undefined(Any)" +:+ Str.nl]
                   [] ["Undefined"; "Any"] "    " [[]; ["x"]] VAR ∅ in
  let h := set_state FUNC g'' in
  (accept_stmt (FuncDef "f" ["self"] [ARG_POS] [None] []) g = Ok (tt, g') ∧
   _state g' = FUNC) ∧
  (accept_stmt (AssignmentStmt [NameExpr "x"] (IntExpr 1)) g' = Ok (tt, g'') ∧
   (_state g'' = VAR ∧ length (_output g') < length (_output g'') ∨
    _state g'' = _state g')) ∧
  (accept_stmt PassStmt g'' = Ok (tt, g'') ∧ _state g'' = _state g'') ∧
  (∃ k, accept_stmt (AssignmentStmt [NameExpr "x"] (IntExpr 1)) g' =
          Ok (tt, k) ∧
        _vars k = [[]] ++ [[] ++ ["x"]] ∧ _state k = VAR) ∧
  (∃ k, accept_stmt (AssignmentStmt
                       [TupleExpr [NameExpr "x"; NameExpr "_y"]] (IntExpr 2))
                    h = Ok (tt, k) ∧
        _vars k = [[]] ++ [["x"] ++ []] ∧ _state k = FUNC).
Proof.
  intros g g' g'' h.
  destruct formatting_state_after_visit
    as (Hfunc & _ & Hvar & Hquiet & Hexact & _).
  split; [split; [reflexivity|]|split; [split; [reflexivity|]|split; [|split]]].
  - apply (Hfunc "f" ["self"] [ARG_POS] [None] [] g g'); reflexivity.
  - apply (Hvar [NameExpr "x"] (IntExpr 1) g' g''). reflexivity.
  - split; [reflexivity|]. apply (Hquiet PassStmt g'' g''); reflexivity.
  - apply (Hexact (NameExpr "x") [] (IntExpr 1) g' [[]] [] eq_refl).
  - apply (Hexact (TupleExpr [NameExpr "x"; NameExpr "_y"]) [] (IntExpr 2) h
             [[]] ["x"] eq_refl).
Defined.

(** C2 as stated fails: in the run on [class C: def f(self): pass] the
    visit of the indented method changes the formatting state from
    [EMPTY] to [FUNC]; and the change shows: after an empty class [E], a
    class whose body is an empty class aborts the run, while with a method
    before the nested class the run completes. *)
Lemma indented_function_changes_state :
  let f := FuncDef "f" ["self"] [ARG_POS] [None] [] in
  let E := ClassDef "E" [] [PassStmt] in
  let N := ClassDef "N" [] [PassStmt] in
  (∃ sep n g1 g2,
     class_header "C" [] init = Ok ((sep, n), g1) ∧
     _indent g1 = "    " ∧ _state g1 = EMPTY ∧
     accept_stmt f g1 = Ok (tt, g2) ∧ _state g2 = FUNC) ∧
  generate_stub [E; ClassDef "T" [] [N]] = Raise UnboundLocalError ∧
  generate_stub [E; ClassDef "T" [] [f; N]] =
    Ok ("class E: pass" +:+ Str.nl +:+ Str.nl +:+ "class T:" +:+ Str.nl +:+
        "    def f(self): pass" +:+ Str.nl +:+ "class N: pass" +:+ Str.nl).
Proof.
  split; [|split; reflexivity].
  eexists _, _, _, _. split_and!; reflexivity.
Qed.

(** C3, as the code has it: when the body of a class emits nothing, and
    the class is not an indented one visited in state [EMPTY_CLASS], the
    visit rewrites the line break after the colon into [ pass] and a line
    break, so that the output gains the one line [class Name: pass] (with
    the kept bases); the reserved blank-line slot is emptied only when the
    formatting state is [EMPTY_CLASS], and stays a line break after a
    function, a variable or a class that is not empty. *)
Theorem empty_class_one_line name bases defs g sep n g1 g2 :
  class_header name bases g = Ok ((sep, n), g1) →
  accept_block defs g1 = Ok (tt, g2) →
  length (_output g2) = n →
  _indent g = "" ∨ _state g ≠ EMPTY_CLASS →
  ∃ g',
    accept_stmt (ClassDef name bases defs) g = Ok (tt, g') ∧
    _output g' =
      _output g ++
      (if reserved g
       then [if bool_decide (_state g = EMPTY_CLASS) then "" else Str.nl]
       else []) ++
      header_fragments (_classes g) name bases (" pass" +:+ Str.nl) ∧
    _state g' = EMPTY_CLASS.
Proof.
  intros Hh Hb Hlen Hok.
  assert (bool_decide (_state g = EMPTY_CLASS) && negb (reserved g) = false)
    as Hc.
  { unfold reserved. destruct Hok as [->|Hs].
    - repeat case_bool_decide; try done. congruence.
    - by rewrite (bool_decide_eq_false_2 _ Hs). }
  eexists. split.
  { rewrite (class_visit_cases _ _ _ _ _ _ _ _ Hh Hb).
    rewrite bool_decide_eq_true_2 by done. rewrite Hc. reflexivity. }
  split; reflexivity.
Qed.

Lemma empty_class_one_line_witness :
  let E := ClassDef "E" [] [PassStmt] in
  let g := mkGen ["class D"; ": pass" +:+ Str.nl] [] [] "" [[]]
                 EMPTY_CLASS ∅ in
  ∃ g',
    accept_stmt E g = Ok (tt, g') ∧
    _output g' = ["class D"; ": pass" +:+ Str.nl; ""; "class E";
                  ": pass" +:+ Str.nl] ∧
    _state g' = EMPTY_CLASS.
Proof.
  intros E g.
  eapply (empty_class_one_line "E" [] [PassStmt] g);
    [reflexivity|reflexivity|reflexivity|by left].
Defined.

(** C3 as stated fails: after a function the slot reserved for the empty
    class [C] stays a line break, and the text has a blank line before
    [class C: pass]. *)
Lemma slot_kept_after_function :
  let f := FuncDef "f" [] [] [] [] in
  let C := ClassDef "C" [] [PassStmt] in
  generate_stub [f; C] =
    Ok ("def f(): pass" +:+ Str.nl +:+ Str.nl +:+
        "class C: pass" +:+ Str.nl) ∧
  ∃ g g',
    accept_stmt f init = Ok (tt, g) ∧ reserved g = true ∧
    accept_stmt C g = Ok (tt, g') ∧
    _output g' !! length (_output g) = Some Str.nl ∧
    _output g' !! length (_output g) ≠ Some "".
Proof.
  split; [reflexivity|]. eexists _, _. by split_and!.
Qed.

(** C9: the visit of a class whose body emits nothing raises
    [UnboundLocalError] when the class is indented and the formatting
    state is [EMPTY_CLASS]; a class body with two empty classes in a row,
    and an empty class followed by a class that holds an empty class,
    abort the run in this way. *)
Theorem nested_empty_class_aborts :
  (∀ name bases defs g sep n g1 g2,
     class_header name bases g = Ok ((sep, n), g1) →
     accept_block defs g1 = Ok (tt, g2) →
     length (_output g2) = n →
     _indent g ≠ "" →
     _state g = EMPTY_CLASS →
     sep = None ∧
     accept_stmt (ClassDef name bases defs) g = Raise UnboundLocalError) ∧
  generate_stub
    [ClassDef "T" [] [ClassDef "A" [] [PassStmt];
                       ClassDef "B" [] [PassStmt]]] =
    Raise UnboundLocalError ∧
  generate_stub
    [ClassDef "E" [] [PassStmt];
     ClassDef "T" [] [ClassDef "N" [] [PassStmt]]] =
    Raise UnboundLocalError.
Proof.
  split; [|split; reflexivity].
  intros name bases defs g sep n g1 g2 Hh Hb Hlen Hi Hs.
  assert (reserved g = false) as Hr.
  { unfold reserved. by rewrite (bool_decide_eq_false_2 _ Hi). }
  split.
  - rewrite class_header_run in Hh. injection Hh as <- _ _.
    unfold slot. by rewrite Hr.
  - rewrite (class_visit_cases _ _ _ _ _ _ _ _ Hh Hb).
    rewrite bool_decide_eq_true_2 by done.
    by rewrite Hr, bool_decide_eq_true_2.
Qed.

Lemma nested_empty_class_aborts_witness :
  let g := mkGen ["class T"; ":" +:+ Str.nl; "class A"; ": pass" +:+ Str.nl]
                 [] [] "    " [[]; []] EMPTY_CLASS ∅ in
  accept_block [ClassDef "A" [] [PassStmt]]
    (mkGen ["class T"; ":" +:+ Str.nl] [] [] "    " [[]; []] EMPTY ∅) =
    Ok (tt, g) ∧
  accept_stmt (ClassDef "B" [] [PassStmt]) g = Raise UnboundLocalError.
Proof.
  intros g. split; [reflexivity|].
  eapply (proj1 nested_empty_class_aborts "B" [] [PassStmt] g);
    [reflexivity|reflexivity|reflexivity|discriminate|reflexivity].
Defined.

End Formatting.


(* ===================================================================== *)
(** ** The walk as a whole *)
(* ===================================================================== *)

Module Walk.
Import Nodes Run Traverser Gen Props FrameFacts Cover CoverFacts.

(** X1: the visit of any statement, when it returns, leaves the
    indentation, the set of class names and the height of the scope stack
    as they were, only appends names to the innermost scope, and keeps
    every fragment that was in the output before it; so a run ends at
    indentation zero with the module scope alone on the stack. *)
Theorem visit_restores_context :
  (∀ o g g',
     accept_stmt o g = Ok (tt, g') →
     _indent g' = _indent g ∧ _classes g' = _classes g ∧
     length (_vars g') = length (_vars g) ∧
     (∀ vs scope, _vars g = vs ++ [scope] →
                  ∃ names, _vars g' = vs ++ [scope ++ names]) ∧
     ∃ fragments, _output g' = _output g ++ fragments) ∧
  (∀ defs g,
     exec (visit_mypy_file defs) init = Ok g →
     _indent g = "" ∧ ∃ scope, _vars g = [scope]).
Proof.
  split.
  - intros o g g' [F _]%accept_stmt_framed. split_and!.
    + apply F.
    + apply F.
    + apply scope_grows_length, F.
    + intros vs scope Hv. apply scope_grows_snoc. rewrite <- Hv. apply F.
    + apply F.
  - intros defs g. unfold exec, visit_mypy_file.
    destruct (find_classes defs) as [classes|e]; [|done].
    destruct ((modify (set_classes classes) ;; accept_file visit defs) init)
      as [[[] g']|e] eqn:H; [|done].
    intros [= ->].
    apply bind_Ok in H as ([] & g1 & [= <-] & H).
    apply (accept_block_framed defs) in H as [F _]. split; [apply F|].
    destruct (scope_grows_snoc [] _ [] (frame_vars _ _ F)) as [names ->].
    eauto.
Qed.

Lemma visit_restores_context_witness :
  let method := FuncDef "__init__" ["self"] [ARG_POS] [None]
                  [AssignmentStmt [MemberExpr (NameExpr "self") "y"] (IntExpr 1)] in
  let defs := [ClassDef "C" [] [method]] in
  ∃ g, exec (visit_mypy_file defs) init = Ok g ∧
       _indent g = "" ∧ ∃ scope, _vars g = [scope].
Proof.
  intros method defs. eexists. split; [vm_compute; reflexivity|].
  apply (proj2 visit_restores_context defs). vm_compute. reflexivity.
Defined.

End Walk.

(* ===================================================================== *)
(** ** The exceptions of a run *)
(* ===================================================================== *)

Module Errors.
Import Nodes Run Traverser Gen Props FrameFacts Cover CoverFacts.

Lemma run_behaves (defs : list stmt) :
  forallb safe defs = true →
  ∃ g0, _vars g0 ≠ [] ∧ _indent g0 = "" ∧
        exec (visit_mypy_file defs) init = exec (accept_block defs) g0 ∧
        behaves (forallb no_class defs) (forallb flat defs) (accept_block defs).
Proof.
  intros Hs. exists (set_classes (outer_classes_block defs) init).
  split_and!; [done|done| |].
  - unfold exec, visit_mypy_file. by rewrite Bases.find_classes_outer.
  - apply behaves_block; [|done]. apply Forall_forall. intros o _.
    apply accept_stmt_behaves.
Qed.

(** X2: on a module in which every subscript of the generator is in range
    and every default value can be rendered, a run raises neither
    [IndexError] nor [AttributeError]: the only exception it can end in is
    [UnboundLocalError]. *)
Theorem safe_run_raises_unbound_only (defs : list stmt) (e : exn) :
  forallb safe defs = true →
  generate_stub defs = Raise e →
  e = UnboundLocalError.
Proof.
  intros (g0 & Hne & _ & Hrun & Hb)%run_behaves. unfold generate_stub.
  rewrite Hrun. unfold exec. destruct (Hb g0 Hne) as (R & _ & _).
  destruct (accept_block defs g0) as [[[] g]|e'] eqn:H; [done|].
  intros [= <-]. by apply R.
Qed.

Lemma safe_run_raises_unbound_only_witness :
  let E := ClassDef "E" [] [PassStmt] in
  let defs := [E; ClassDef "T" [] [ClassDef "N" [] [PassStmt]]] in
  forallb safe defs = true ∧
  generate_stub defs = Raise UnboundLocalError.
Proof.
  intros E defs. split; [reflexivity|].
  assert (∃ e, generate_stub defs = Raise e) as [e He]
    by (eexists; vm_compute; reflexivity).
  rewrite He. f_equal.
  exact (safe_run_raises_unbound_only defs e eq_refl He).
Defined.

(** X3: on such a module a run returns the text of the stub whenever no
    class that the walk reaches has a class in its body; the walk reaches
    the classes in class bodies, under decorators and in the conditionals
    that are visited, and neither those in function bodies nor those in a
    conditional that [visit_if_stmt] skips. *)
Theorem flat_safe_run_returns (defs : list stmt) :
  forallb safe defs = true →
  forallb flat defs = true →
  ∃ text, generate_stub defs = Ok text.
Proof.
  intros (g0 & Hne & Hi & Hrun & Hb)%run_behaves Hflat. unfold generate_stub.
  rewrite Hrun. unfold exec. destruct (Hb g0 Hne) as (_ & _ & L).
  destruct (L Hflat Hi) as [g ->]. eauto.
Qed.

Lemma flat_safe_run_returns_witness :
  let f := FuncDef "f" ["x"] [ARG_OPT] [Some (UnaryExpr "-" (IntExpr 5))] [] in
  let guard := ComparisonExpr ["=="] [NameExpr "__name__"; StrExpr "__main__"] in
  let T := ClassDef "T" [] [ClassDef "N" [] [PassStmt]] in
  let defs := [ClassDef "E" [] [PassStmt]; IfStmt [guard] [[T]] None;
               ClassDef "C" [] [f]; f] in
  forallb flat defs = true ∧ flat T = false ∧
  ∃ text, generate_stub defs = Ok text.
Proof.
  intros f guard T defs. split; [vm_compute; reflexivity|].
  split; [reflexivity|].
  apply (flat_safe_run_returns defs); vm_compute; reflexivity.
Defined.

(** X10: a function that is emitted and has, among its zipped parameters,
    a default value that is a unary expression over an operand without a
    [value] attribute (as in [x=-y] or [x=not flag]) aborts the visit with
    [AttributeError], whatever its other parameters are. *)
Theorem unrenderable_default_aborts
    name args arg_kinds init body g (j : nat) op e :
  is_private_name name = false →
  forallb has_targets body = true →
  _vars g ≠ [] →
  length (zip args arg_kinds) ≤ length init →
  j < length (zip args arg_kinds) →
  init !! j = Some (Some (UnaryExpr op e)) →
  value_attr e = Raise AttributeError →
  accept_stmt (FuncDef name args arg_kinds init body) g = Raise AttributeError.
Proof.
  intros Hp Hb Hne Hlen Hj Hbad He. rewrite accept_stmt_eq. cbn [visit].
  unfold visit_func_def. rewrite Hp.
  unfold mbind at 1, M_bind at 1, get.
  set (blank := _ && _).
  assert (∃ g1, (if blank then add Str.nl else mret tt) g = Ok (tt, g1) ∧
                _vars g1 = _vars g) as (g1 & H1 & Hv1).
  { destruct blank; eauto. }
  rewrite (bind_step _ _ _ _ _ H1).
  rewrite find_self_initializers_eq. simpl. rewrite Hb.
  destruct (last (_vars g1)) as [scope|] eqn:Hl;
    [|apply last_None in Hl; congruence].
  apply last_Some in Hl as [vs Hv].
  destruct (declare_all_run (concat (self_names <$> body)) g1 vs scope Hv)
    as (g2 & H2 & _).
  rewrite (bind_step _ _ _ _ _ H2).
  unfold mbind at 1, M_bind at 1, add at 1, modify at 1.
  apply bind_Raise.
  apply (render_args_unrenderable _ _ _ _ _ j op e); [simpl; lia|lia|done..].
Qed.

Lemma unrenderable_default_aborts_witness :
  accept_stmt (FuncDef "f" ["x"; "y"] [ARG_OPT; ARG_OPT]
                 [Some (IntExpr 1); Some (UnaryExpr "-" (NameExpr "z"))] [])
              init = Raise AttributeError ∧
  generate_stub [FuncDef "f" ["flag"] [ARG_OPT]
                   [Some (UnaryExpr "not" (NameExpr "debug"))] []] =
  Raise AttributeError.
Proof.
  split; [|reflexivity].
  apply (unrenderable_default_aborts "f" _ _ _ [] init 1 "-" (NameExpr "z"));
    [reflexivity|reflexivity|discriminate|simpl; lia|simpl; lia|reflexivity|
     reflexivity].
Defined.

(** X11: the test of [visit_if_stmt] raises exactly on a comparison with no
    operand, or with a single operand that is a name, and then
    [IndexError]; a conditional with no condition raises [IndexError] too,
    and an exception of the test ends the visit of the conditional. *)
Theorem conditional_subscripts :
  (∀ expr e,
     is_main_guard expr = Raise e ↔
     e = IndexError ∧
     ∃ operators,
       expr = ComparisonExpr operators [] ∨
       ∃ name, expr = ComparisonExpr operators [NameExpr name]) ∧
  (∀ body else_body g,
     accept_stmt (IfStmt [] body else_body) g = Raise IndexError) ∧
  (∀ expr conds body else_body g e,
     is_main_guard expr = Raise e →
     accept_stmt (IfStmt (expr :: conds) body else_body) g = Raise e).
Proof.
  split_and!.
  - intros expr e. split.
    + destruct expr as [| | | | | | | | |operators operands|]; try done.
      destruct operands as [|[| | | | |name| | | | |] operands]; try done.
      * intros [= <-]. eauto.
      * destruct operands as [|[] rest]; try done.
        intros [= <-]. eauto 6.
    + by intros [-> [operators [->|[name ->]]]].
  - done.
  - intros expr conds body else_body g e H. rewrite accept_stmt_eq.
    cbn [visit]. unfold visit_if_stmt. simpl. by rewrite H.
Qed.

Lemma conditional_subscripts_witness :
  is_main_guard (ComparisonExpr ["=="] [NameExpr "__name__"]) =
    Raise IndexError ∧
  accept_stmt (IfStmt [ComparisonExpr ["=="] [NameExpr "__name__"]]
                 [[PassStmt]] None) init = Raise IndexError.
Proof.
  split; [reflexivity|].
  by apply (proj2 (proj2 conditional_subscripts)).
Defined.

End Errors.

(* ===================================================================== *)
(** ** Functions and the attributes of their receiver *)
(* ===================================================================== *)

Module Functions.
Import Nodes Run Traverser Gen Props FrameFacts Cover CoverFacts.

(** X4: [find_self_initializers] returns the attribute names of the
    assignments through [self] at or below the function, in document order
    and with repetitions, entering nested functions, classes and
    conditionals; it raises [IndexError] exactly when an assignment there
    has no target. *)
Theorem find_self_initializers_names (fdef : stmt) :
  find_self_initializers fdef =
  if has_targets fdef then Ok (self_names fdef) else Raise IndexError.
Proof.
  unfold find_self_initializers, exec. rewrite self_traverser_stmt.
  by destruct (has_targets fdef).
Qed.

(** X5: the visit of a function that is emitted, whose zipped parameters
    all have an entry in [init], whose default values can all be rendered
    and in whose body every assignment has a target, returns and appends,
    in this order: a blank line when the function is at indentation zero
    and the formatting state is neither [EMPTY] nor [FUNC]; one
    placeholder line for each collected attribute name that is neither
    private nor in the innermost scope, once each in the order of first
    occurrence; and the three fragments of the signature, the middle one
    joining the list that the parameter loop renders, which is the same
    from whatever fields the loop runs.  The declared names join the scope
    and the formatting state becomes [FUNC]. *)
Theorem function_output name args arg_kinds init body g vs scope :
  safe (FuncDef name args arg_kinds init body) = true →
  is_private_name name = false →
  _vars g = vs ++ [scope] →
  let attributes := fresh scope (concat (self_names <$> body)) in
  (NoDup attributes ∧
   ∀ a, a ∈ attributes ↔
        a ∈ concat (self_names <$> body) ∧ (a ∉ scope) ∧
        is_private_name a = false) ∧
  ∃ g' rendered gm gm',
    accept_stmt (FuncDef name args arg_kinds init body) g = Ok (tt, g') ∧
    render_args init [] 0 (zip args arg_kinds) gm = Ok (rendered, gm') ∧
    (∀ h rendered' h',
       render_args init [] 0 (zip args arg_kinds) h = Ok (rendered', h') →
       rendered' = rendered) ∧
    _output g' =
      _output g ++ blank_before_func g ++
      (declaration (_indent g) <$> attributes) ++
      [_indent g +:+ "def " +:+ name +:+ "("; Str.join ", " rendered;
       "): pass" +:+ Str.nl] ∧
    _vars g' = vs ++ [scope ++ attributes] ∧
    _state g' = FUNC.
Proof.
  intros Hsafe Hp Hv attributes. split; [apply fresh_spec|].
  simpl in Hsafe.
  apply andb_true_iff in Hsafe as [[Hlen%bool_decide_eq_true Hd]%andb_true_iff Hb].
  rewrite accept_stmt_eq. cbn [visit]. unfold visit_func_def. rewrite Hp.
  unfold mbind at 1, M_bind at 1, get.
  assert (∃ g1, (if bool_decide (_indent g = "") &&
                    negb (bool_decide (_state g ∈ [EMPTY; FUNC]))
                 then add Str.nl else mret tt) g = Ok (tt, g1) ∧
                _vars g1 = _vars g ∧ _indent g1 = _indent g ∧
                _output g1 = _output g ++ blank_before_func g)
    as (g1 & H1 & Hv1 & Hi1 & Ho1).
  { unfold blank_before_func. destruct (_ && _).
    - eexists. split; [reflexivity|done].
    - exists g. by rewrite app_nil_r. }
  rewrite (bind_step _ _ _ _ _ H1).
  rewrite find_self_initializers_eq. simpl. rewrite Hb.
  rewrite Hv in Hv1.
  destruct (declare_all_run (concat (self_names <$> body)) g1 vs scope Hv1)
    as (g2 & H2 & Ho2 & Hv2 & Hi2 & _).
  rewrite (bind_step _ _ _ _ _ H2).
  unfold mbind at 1, M_bind at 1, add at 1, modify at 1.
  edestruct (render_args_total init [] 0 (zip args arg_kinds)) as (r & g3 & H3);
    [exact Hd|simpl; lia|].
  rewrite (bind_step _ _ _ _ _ H3).
  eexists _, r, _, g3. split; [reflexivity|]. split; [exact H3|].
  split.
  { intros h r' h' Hr. exact (render_args_text _ _ _ _ _ _ _ _ _ _ Hr H3). }
  apply render_args_fields in H3. rewrite H3. simpl.
  rewrite Ho2, Hi1, Ho1, Hv2. split; [|done].
  by rewrite <- !app_assoc.
Qed.

Lemma function_output_witness :
  let body := [AssignmentStmt [MemberExpr (NameExpr "self") "y"] (IntExpr 1);
               AssignmentStmt [MemberExpr (NameExpr "self") "_z"] (IntExpr 2);
               AssignmentStmt [MemberExpr (NameExpr "self") "y"] (IntExpr 3)] in
  let g := mkGen ["class C"; ":" +:+ Str.nl] [] [] "    " [[]; []] EMPTY ∅ in
  fresh [] (concat (Cover.self_names <$> body)) = ["y"] ∧
  render_args [None] [] 0 (zip ["self"] [ARG_POS]) g = Ok (["self"], g) ∧
  ∃ g' rendered gm gm',
    accept_stmt (FuncDef "__init__" ["self"] [ARG_POS] [None] body) g =
      Ok (tt, g') ∧
    render_args [None] [] 0 (zip ["self"] [ARG_POS]) gm = Ok (rendered, gm') ∧
    (∀ h rendered' h',
       render_args [None] [] 0 (zip ["self"] [ARG_POS]) h =
         Ok (rendered', h') →
       rendered' = rendered) ∧
    _output g' =
      _output g ++ blank_before_func g ++
      (declaration "    " <$> ["y"]) ++
      ["    " +:+ "def " +:+ "__init__" +:+ "("; Str.join ", " rendered;
       "): pass" +:+ Str.nl] ∧
    _vars g' = [[]] ++ [[] ++ ["y"]] ∧
    _state g' = FUNC.
Proof.
  intros body g. split; [reflexivity|]. split; [reflexivity|].
  apply (function_output "__init__" ["self"] [ARG_POS] [None] body g [[]] []);
    reflexivity.
Defined.

(** X6: the generator does not walk the body of a function: two functions
    that differ in their bodies only, with the same assignments through
    [self], are visited alike, so that functions and classes declared in a
    function body are never emitted. *)
Theorem function_body_not_visited name args arg_kinds init body body' g :
  forallb has_targets body = true →
  forallb has_targets body' = true →
  concat (self_names <$> body) = concat (self_names <$> body') →
  accept_stmt (FuncDef name args arg_kinds init body) g =
  accept_stmt (FuncDef name args arg_kinds init body') g.
Proof.
  intros Hb Hb' Hn. rewrite !accept_stmt_eq. cbn [visit].
  unfold visit_func_def. rewrite !find_self_initializers_eq. simpl.
  by rewrite Hb, Hb', Hn.
Qed.

Lemma function_body_not_visited_witness :
  let inner := [ClassDef "Local" [] [PassStmt];
                FuncDef "helper" [] [] [] [];
                AssignmentStmt [NameExpr "x"] (IntExpr 1)] in
  accept_stmt (FuncDef "f" [] [] [] inner) init =
  accept_stmt (FuncDef "f" [] [] [] []) init.
Proof.
  intros inner. by apply function_body_not_visited.
Defined.

(** X15: a default value of one of the tested shapes is rendered without
    registering a helper name or changing any other field; the text does
    not depend on the value of a string, byte-string or float literal, nor
    on the operator of a unary expression, which is always rendered as a
    minus sign in front of the text of its operand. *)
Theorem literal_defaults_register_nothing :
  (∀ rvalue g d g',
     literal_shape rvalue = true →
     render_default rvalue g = Ok (d, g') → g' = g) ∧
  (∀ v v' g,
     render_default (StrExpr v) g = render_default (StrExpr v') g ∧
     render_default (BytesExpr v) g = render_default (BytesExpr v') g ∧
     render_default (FloatExpr v) g = render_default (FloatExpr v') g) ∧
  (∀ op op' e g,
     render_default (UnaryExpr op e) g = render_default (UnaryExpr op' e) g) ∧
  (∀ op e v g,
     value_attr e = Ok v →
     render_default (UnaryExpr op e) g = Ok ("-" +:+ v, g)).
Proof.
  split_and!.
  - intros rvalue g d g' Hs.
    destruct rvalue as [| | | |op e|name| | | | |]; cbn [literal_shape] in Hs;
      try done; cbn [render_default]; try (by intros [= _ <-]).
    + destruct (value_attr e); [by intros [= _ <-]|done].
    + rewrite Hs. by intros [= _ <-].
  - done.
  - done.
  - intros op e v g Hv. cbn [render_default]. by rewrite Hv.
Qed.

Lemma literal_defaults_register_nothing_witness :
  render_default (UnaryExpr "not" (IntExpr 5)) init = Ok ("-5", init) ∧
  generate_stub [FuncDef "f" ["a"; "b"; "c"] [ARG_OPT; ARG_OPT; ARG_OPT]
                   [Some (StrExpr "text"); Some (FloatExpr "2.5");
                    Some (UnaryExpr "+" (IntExpr 5))] []] =
  Ok ("def f(a='', b=0.0, c=-5): pass" +:+ Str.nl).
Proof.
  split; [|reflexivity].
  by apply (proj2 (proj2 (proj2 literal_defaults_register_nothing))).
Defined.

End Functions.

(* ===================================================================== *)
(** ** Classes with a body, decorators and assignments *)
(* ===================================================================== *)

Module Declarations.
Import Nodes Run Traverser Gen Props FrameFacts Cover CoverFacts.

(** X7: when the body of a class emits output, the visit of the class
    returns with, in the output: a blank line if the class is at
    indentation zero and is not the first declaration, the header
    fragments ending in a colon and a line break, then what the body
    emitted; the formatting state is [CLASS], and the indentation and the
    scope stack are those before the visit. *)
Theorem class_with_body name bases defs g sep n g1 g2 :
  class_header name bases g = Ok ((sep, n), g1) →
  accept_block defs g1 = Ok (tt, g2) →
  length (_output g2) ≠ n →
  ∃ g' emitted,
    accept_stmt (ClassDef name bases defs) g = Ok (tt, g') ∧
    emitted ≠ [] ∧
    _output g2 = _output g1 ++ emitted ∧
    _output g' =
      _output g ++ (if reserved g then [Str.nl] else []) ++
      header_fragments (_classes g) name bases Str.nl ++ emitted ∧
    _state g' = CLASS ∧ _indent g' = _indent g ∧ _vars g' = _vars g.
Proof.
  intros Hh Hb Hlen.
  rewrite (Formatting.class_visit_cases _ _ _ _ _ _ _ _ Hh Hb).
  rewrite bool_decide_eq_false_2 by done.
  rewrite class_header_run in Hh. injection Hh as <- <- <-.
  pose proof (accept_block_framed _ _ _ _ Hb) as [F _].
  destruct (frame_output _ _ F) as [emitted He].
  destruct (entered_vars _ _ _ _ F) as [names Hn].
  eexists _, emitted. split; [reflexivity|]. split_and!.
  - intros ->. apply Hlen. rewrite He, app_nil_r. reflexivity.
  - done.
  - unfold leave_class, enter_class in *. cbn [_output] in *.
    rewrite He, <- !app_assoc. reflexivity.
  - done.
  - simpl. rewrite (frame_indent _ _ F). simpl.
    apply (StrFacts.drop_last_app (_indent g) "    ").
  - simpl. rewrite Hn. apply removelast_last.
Qed.

Lemma class_with_body_witness :
  let f := FuncDef "f" [] [] [] [] in
  let g := mkGen ["def f("; ""; "): pass" +:+ Str.nl] [] [] "" [[]] FUNC ∅ in
  ∃ g' emitted,
    accept_stmt (ClassDef "C" [] [f]) g = Ok (tt, g') ∧
    emitted ≠ [] ∧
    _output g' =
      _output g ++ [Str.nl] ++ ["class C"; ":" +:+ Str.nl] ++ emitted ∧
    _state g' = CLASS.
Proof.
  intros f g.
  edestruct (class_with_body "C" [] [f] g) as (g' & emitted & H);
    [vm_compute; reflexivity|vm_compute; reflexivity|vm_compute; lia|].
  exists g', emitted. tauto.
Defined.

(** X8: the visit of a decorated declaration appends one line for each
    decorator that is the name [property], [staticmethod] or [classmethod]
    or an attribute [setter] of a name, in their order, drops the other
    decorators, and then visits the declaration; the lines are there even
    when the function is private and so not emitted. *)
Theorem decorator_lines :
  (∀ func decorators g,
     accept_stmt (Decorator func decorators) g =
     accept_stmt func
       (set_output
          (λ out, out ++ omap (decorator_line (_indent g)) decorators) g)) ∧
  (∀ name args arg_kinds init body decorators g,
     is_private_name name = true →
     accept_stmt (Decorator (FuncDef name args arg_kinds init body)
                            decorators) g =
     Ok (tt, set_output
               (λ out, out ++ omap (decorator_line (_indent g)) decorators)
               g)).
Proof.
  assert (∀ func decorators g,
     accept_stmt (Decorator func decorators) g =
     accept_stmt func
       (set_output
          (λ out, out ++ omap (decorator_line (_indent g)) decorators) g))
    as H.
  { intros func decorators g. rewrite accept_stmt_eq. cbn [visit].
    unfold visit_decorator.
    by rewrite (bind_step _ _ _ _ _ (decorators_run decorators g)). }
  split; [exact H|].
  intros name args arg_kinds init body decorators g Hp.
  rewrite H, accept_stmt_eq. cbn [visit]. unfold visit_func_def.
  by rewrite Hp.
Qed.

Lemma decorator_lines_witness :
  let decorators := [NameExpr "property"; CallExpr (NameExpr "cache") [];
                     MemberExpr (NameExpr "x") "setter"] in
  accept_stmt (Decorator (FuncDef "_x" ["self"] [ARG_POS] [None] [])
                         decorators) init =
  Ok (tt, set_output
            (λ out, out ++ ["@property" +:+ Str.nl; "@x.setter" +:+ Str.nl])
            init).
Proof.
  intros decorators.
  by rewrite (proj2 decorator_lines "_x" ["self"] [ARG_POS] [None] []
                decorators init eq_refl).
Defined.

Lemma assign_items_no_names (items : list expr) sep found g :
  Forall (λ item, ∀ name, item ≠ NameExpr name) items →
  assign_items items sep found g = Ok (found, g).
Proof.
  induction 1 as [|item rest Hitem _ IH]; simpl; [done|].
  destruct item; try done. by destruct (Hitem name).
Qed.

(** X9: an assignment is read through its first target only, which must
    exist: with no target the visit raises [IndexError]; targets that are
    not bare names, alone or in a tuple or list, emit nothing and change
    nothing; and at indentation zero, in a formatting state other than
    [EMPTY] and [VAR], a name that is private or already in the scope
    still costs one blank line, with no declaration and no change of the
    formatting state. *)
Theorem assignment_targets :
  (∀ rvalue g, accept_stmt (AssignmentStmt [] rvalue) g = Raise IndexError) ∧
  (∀ lvalue rest rest' rvalue rvalue' g,
     accept_stmt (AssignmentStmt (lvalue :: rest) rvalue) g =
     accept_stmt (AssignmentStmt (lvalue :: rest') rvalue') g) ∧
  (∀ lvalue rest rvalue g,
     Forall (λ item, ∀ name, item ≠ NameExpr name) (items_of lvalue) →
     accept_stmt (AssignmentStmt (lvalue :: rest) rvalue) g = Ok (tt, g)) ∧
  (∀ name rest rvalue g vs scope,
     _vars g = vs ++ [scope] →
     name ∈ scope ∨ is_private_name name = true →
     _indent g = "" →
     _state g ∉ [EMPTY; VAR] →
     accept_stmt (AssignmentStmt (NameExpr name :: rest) rvalue) g =
     Ok (tt, set_output (λ out, out ++ [Str.nl]) g)).
Proof.
  split_and!.
  - done.
  - done.
  - intros lvalue rest rvalue g Hitems. rewrite accept_stmt_eq. cbn [visit].
    unfold visit_assignment_stmt. simpl.
    by rewrite (bind_step _ _ _ _ _ (assign_items_no_names _ _ _ _ Hitems)).
  - intros name rest rvalue g vs scope Hv Hname Hi Hs.
    rewrite accept_stmt_eq. cbn [visit].
    unfold visit_assignment_stmt. simpl.
    assert (bool_decide (name ∈ scope) || is_private_name name = true) as Hr.
    { destruct Hname as [Hin| ->]; [|apply orb_true_r].
      by rewrite (bool_decide_eq_true_2 _ Hin). }
    set (g1 := set_output (λ out, out ++ [Str.nl]) g).
    assert (add_init name g1 = Ok (false, g1)) as Ha.
    { rewrite (add_init_cases name g1 vs scope) by done. by rewrite Hr. }
    match goal with
    | |- (?m ≫= _) g = _ => assert (m g = Ok (false, g1)) as Hinner
    end.
    { erewrite bind_step; [|reflexivity]. cbv beta.
      rewrite Hi, (bool_decide_eq_true_2 ("" = "")) by done.
      rewrite (bool_decide_eq_false_2 _ Hs). simpl.
      erewrite bind_step; [|reflexivity].
      erewrite bind_step; [|exact Ha]. reflexivity. }
    by rewrite (bind_step _ _ _ _ _ Hinner).
Qed.

Lemma assignment_targets_witness :
  let g := mkGen ["x = Undefined(Any)" +:+ Str.nl; Str.nl; "def f("; "";
                  "): pass" +:+ Str.nl]
                 [] ["Undefined"; "Any"] "" [["x"]] FUNC ∅ in
  accept_stmt (AssignmentStmt [MemberExpr (NameExpr "a") "b"] (IntExpr 1)) g =
    Ok (tt, g) ∧
  accept_stmt (AssignmentStmt [NameExpr "x"] (IntExpr 2)) g =
    Ok (tt, set_output (λ out, out ++ [Str.nl]) g).
Proof.
  intros g. destruct assignment_targets as (_ & _ & Hnone & Hblank). split.
  - apply Hnone. simpl. by repeat constructor.
  - apply (Hblank "x" [] (IntExpr 2) g [] ["x"]).
    + reflexivity.
    + left. apply list_elem_of_singleton. reflexivity.
    + reflexivity.
    + intros H. apply elem_of_cons in H as [H|H]; [discriminate|].
      apply list_elem_of_singleton in H. discriminate.
Defined.

End Declarations.

(* ===================================================================== *)
(** ** Properties of the fields kept throughout a run *)
(* ===================================================================== *)

Module Invariants.
Import Nodes Run Traverser Gen Props FrameFacts Cover CoverFacts.

Lemma run_preserves (I : StubGenerator → Prop) (defs : list stmt) g :
  (∀ classes, I (set_classes classes init)) →
  (∀ o, preserves I (accept_stmt o)) →
  exec (visit_mypy_file defs) init = Ok g → I g.
Proof.
  intros H0 HI. unfold exec, visit_mypy_file.
  destruct (find_classes defs) as [classes|e]; [|done].
  destruct ((modify (set_classes classes) ;; accept_file visit defs) init)
    as [[[] g']|e] eqn:H; [|done].
  intros [= ->].
  apply bind_Ok in H as ([] & g1 & [= <-] & H).
  revert H. generalize (set_classes classes init), (H0 classes).
  induction defs as [|o defs IH]; intros g0 Hg0; simpl.
  - by intros [= <-].
  - intros ([] & g1 & H1 & H2)%bind_Ok. eapply IH; [|exact H2].
    by eapply HI.
Qed.

Lemma helper_names_add_init (lvalue : string) :
  preserves (λ g, helper_names (_imports g)) (add_init lvalue).
Proof.
  intros g declared g' Hg. unfold add_init. run_unfold.
  destruct (last (_vars g)); [|done].
  case_bool_decide; [by intros [= _ <-]|].
  destruct (is_private_name lvalue); [by intros [= _ <-]|].
  destruct g as [out lines imports indent vars st classes]. simpl in *.
  destruct Hg as [-> | [-> | ->]]; vm_compute; intros [= _ <-]; simpl;
    unfold helper_names; auto.
Qed.

Lemma helper_names_undefined :
  preserves (λ g, helper_names (_imports g)) (add_import "Undefined").
Proof.
  intros g [] g' Hg. unfold add_import. run_unfold.
  destruct g as [out lines imports indent vars st classes]. simpl in *.
  destruct Hg as [-> | [-> | ->]]; vm_compute; intros [= <-]; simpl;
    unfold helper_names; auto.
Qed.

(** X12: the helper names are registered in one order only: whatever was
    visited, the list is empty, or [Undefined] alone, or [Undefined]
    followed by [Any]; so the import line of a run, if there is one, is one
    of two lines. *)
Theorem helper_names_order :
  (∀ o g g',
     helper_names (_imports g) →
     accept_stmt o g = Ok (tt, g') →
     helper_names (_imports g')) ∧
  (∀ defs g,
     exec (visit_mypy_file defs) init = Ok g →
     helper_import (_imports g) = "" ∨
     helper_import (_imports g) =
       "from typing import Undefined" +:+ Str.nl ∨
     helper_import (_imports g) =
       "from typing import Undefined, Any" +:+ Str.nl).
Proof.
  assert (∀ o, preserves (λ g, helper_names (_imports g)) (accept_stmt o))
    as HI.
  { intros o. apply preserves_accept_stmt; try done.
    - apply helper_names_add_init.
    - apply helper_names_undefined. }
  split.
  - intros o g g' Hg H. by apply (HI o g tt g').
  - intros defs g H.
    apply (run_preserves (λ g, helper_names (_imports g))) in H;
      [|by left|done].
    destruct H as [-> | [-> | ->]]; auto.
Qed.

Lemma helper_names_order_witness :
  let g := mkGen [] [] ["Undefined"] "" [[]] EMPTY ∅ in
  ∃ g', accept_stmt (AssignmentStmt [NameExpr "x"] (IntExpr 1)) g =
          Ok (tt, g') ∧
        helper_names (_imports g').
Proof.
  intros g. eexists. split; [vm_compute; reflexivity|].
  eapply (proj1 helper_names_order
            (AssignmentStmt [NameExpr "x"] (IntExpr 1)) g);
    [right; left; reflexivity|vm_compute; reflexivity].
Defined.

Lemma scopes_clean_add_init (lvalue : string) :
  preserves (λ g, scopes_clean (_vars g)) (add_init lvalue).
Proof.
  intros g declared g' Hg H.
  destruct (last (_vars g)) as [scope|] eqn:Hl.
  - apply last_Some in Hl as [vs Hv].
    rewrite (add_init_cases _ _ _ _ Hv) in H.
    destruct (bool_decide (lvalue ∈ scope) || is_private_name lvalue) eqn:E;
      injection H as <- <-; [done|].
    apply orb_false_iff in E as [Hin%bool_decide_eq_false Hp].
    simpl. unfold scopes_clean in *. rewrite Hv in Hg.
    apply Forall_app in Hg as [Hvs Hsc].
    apply Forall_singleton in Hsc as [Hnd Hpub].
    apply Forall_app. split; [done|]. apply Forall_singleton. split.
    + apply NoDup_app. split_and!; [done| |apply NoDup_singleton].
      by intros x Hx ->%list_elem_of_singleton.
    + apply Forall_app. split; [done|]. by apply Forall_singleton.
  - unfold add_init in H. revert H. run_unfold. by rewrite Hl.
Qed.

(** X13: every scope of the stack holds distinct names, none of them
    private, before and after every visit, and so at the end of a run. *)
Theorem scopes_stay_clean :
  (∀ o g g',
     scopes_clean (_vars g) →
     accept_stmt o g = Ok (tt, g') →
     scopes_clean (_vars g')) ∧
  (∀ defs g,
     exec (visit_mypy_file defs) init = Ok g → scopes_clean (_vars g)).
Proof.
  assert (∀ o, preserves (λ g, scopes_clean (_vars g)) (accept_stmt o))
    as HI.
  { intros o. apply preserves_accept_stmt; try done.
    - intros g Hg. simpl. apply Forall_app. split; [done|].
      apply Forall_singleton. split; constructor.
    - intros g Hg. simpl. unfold scopes_clean in *.
      rewrite removelast_firstn_len. by apply Forall_take.
    - apply scopes_clean_add_init.
    - intros g [] g' Hg. unfold add_import. run_unfold.
      by case_bool_decide; intros [= <-]. }
  split.
  - intros o g g' Hg H. by apply (HI o g tt g').
  - intros defs g H.
    apply (run_preserves (λ g, scopes_clean (_vars g))) in H; [done| |done].
    intros classes. simpl. apply Forall_singleton. split; constructor.
Qed.

Lemma scopes_stay_clean_witness :
  let g := mkGen [] [] [] "" [["x"]] VAR ∅ in
  ∃ g', accept_stmt (AssignmentStmt [TupleExpr [NameExpr "x"; NameExpr "y";
                                                NameExpr "_z"; NameExpr "y"]]
                                    (IntExpr 1)) g = Ok (tt, g') ∧
        _vars g' = [["x"; "y"]] ∧ scopes_clean (_vars g').
Proof.
  intros g. eexists. split; [vm_compute; reflexivity|]. split; [reflexivity|].
  eapply (proj1 scopes_stay_clean
            (AssignmentStmt [TupleExpr [NameExpr "x"; NameExpr "y";
                                        NameExpr "_z"; NameExpr "y"]]
                            (IntExpr 1)) g); [|vm_compute; reflexivity].
  apply Forall_singleton. split.
  - apply NoDup_singleton.
  - by apply Forall_singleton.
Defined.

End Invariants.

(* ===================================================================== *)
(** ** Wildcard imports *)
(* ===================================================================== *)

Module Imports.
Import Nodes Run Traverser Gen Props FrameFacts Cover CoverFacts.

Lemma lines_kept_add_init (L : list string) (lvalue : string) :
  preserves (λ g, _import_lines g = L) (add_init lvalue).
Proof.
  intros g declared g' Hg. unfold add_init. run_unfold.
  destruct (last (_vars g)); [|done].
  case_bool_decide; [by intros [= _ <-]|].
  destruct (is_private_name lvalue); [by intros [= _ <-]|].
  simpl. by repeat case_bool_decide; intros [= _ <-].
Qed.

Lemma lines_kept_undefined (L : list string) :
  preserves (λ g, _import_lines g = L) (add_import "Undefined").
Proof.
  intros g [] g' Hg. unfold add_import. run_unfold.
  by case_bool_decide; intros [= <-].
Qed.

Lemma lines_block (l : list stmt) :
  Forall (λ o, ∀ g g', accept_stmt o g = Ok (tt, g') →
               _import_lines g' =
               _import_lines g ++ (import_all_line <$> wildcards o)) l →
  ∀ g g', accept_block l g = Ok (tt, g') →
          _import_lines g' =
          _import_lines g ++ (import_all_line <$> concat (wildcards <$> l)).
Proof.
  induction 1 as [|o l Ho _ IH]; intros g g'; simpl.
  - intros [= <-]. by rewrite app_nil_r.
  - intros ([] & g1 & H1 & H2)%bind_Ok.
    rewrite (IH _ _ H2), (Ho _ _ H1), fmap_app. by rewrite app_assoc.
Qed.

Lemma lines_stmt (o : stmt) g g' :
  accept_stmt o g = Ok (tt, g') →
  _import_lines g' = _import_lines g ++ (import_all_line <$> wildcards o).
Proof.
  revert g g'.
  induction o as [name args kinds init body _|func decorators IH|
                  name bases defs IH|lvalues rvalue|conds body else_body IHb IHe|
                  id|e|] using stmt_nested_ind;
    intros g g'; rewrite accept_stmt_eq; cbn [visit wildcards].
  - intros H. rewrite app_nil_r.
    by refine (preserves_visit_func_def (λ g0, _import_lines g0 = _import_lines g)
                 _ _ (lines_kept_add_init _) (lines_kept_undefined _)
                 _ _ _ _ _ g tt g' eq_refl H).
  - unfold visit_decorator.
    rewrite (bind_step _ _ _ _ _ (decorators_run decorators g)).
    intros H. by rewrite (IH _ _ H).
  - intros H.
    destruct (accept_block defs (enter_class name bases g))
      as [[[] g2]|e2] eqn:H2;
      [|by rewrite (visit_class_def_raise _ _ _ _ _ H2) in H].
    rewrite (visit_class_def_cases _ _ _ _ _ H2
               (accept_block_framed _ _ _ _ H2)) in H.
    apply (lines_block _ IH) in H2. simpl in H2. rewrite <- H2.
    revert H. case_bool_decide; [destruct (_ && _); [done|]|];
      by intros [= <-].
  - unfold visit_assignment_stmt. destruct (lvalues !! 0); [|done].
    intros (found & g1 & H1 & H)%bind_Ok. rewrite app_nil_r.
    assert (_import_lines g1 = _import_lines g) as <-.
    { by refine (preserves_assign_items
                   (λ g0, _import_lines g0 = _import_lines g)
                   _ (lines_kept_add_init _) _ _ _ g found g1 eq_refl H1). }
    by destruct found; injection H as <-.
  - unfold visit_if_stmt. destruct conds as [|cond conds]; [done|]. simpl.
    destruct (is_main_guard cond) as [[]|]; [| |done].
    { intros [= <-]. by rewrite app_nil_r. }
    intros ([] & g1 & H1 & H2)%bind_Ok.
    assert (_import_lines g1 =
            _import_lines g ++
            (import_all_line <$>
               concat ((λ b, concat (wildcards <$> b)) <$> body))) as Hb.
    { clear H2. revert g H1.
      induction IHb as [|b bs Hb _ IHbs]; intros g; simpl.
      - intros [= <-]. by rewrite app_nil_r.
      - intros ([] & g0 & H0 & H1)%bind_Ok.
        rewrite (IHbs _ H1), (lines_block _ Hb _ _ H0), fmap_app.
        by rewrite app_assoc. }
    rewrite fmap_app, app_assoc, <- Hb.
    destruct else_body as [b|].
    + simpl in IHe. by rewrite (lines_block _ IHe _ _ H2).
    + injection H2 as <-. by rewrite app_nil_r.
  - by intros [= <-].
  - intros [= <-]. by rewrite app_nil_r.
  - intros [= <-]. by rewrite app_nil_r.
Qed.

(** X14: the visit of a statement records one line for each wildcard
    import that the walk reaches at or below it, in document order and with
    repetitions, after the lines recorded before; a wildcard import in a
    class body or in a visited conditional is recorded like one at the top
    level, and one in a function body or in a skipped conditional is not. *)
Theorem wildcard_import_lines :
  (∀ o g g',
     accept_stmt o g = Ok (tt, g') →
     _import_lines g' =
     _import_lines g ++ (import_all_line <$> wildcards o)) ∧
  (∀ defs g,
     exec (visit_mypy_file defs) init = Ok g →
     _import_lines g = import_all_line <$> concat (wildcards <$> defs)).
Proof.
  split; [exact lines_stmt|].
  intros defs g. unfold exec, visit_mypy_file.
  destruct (find_classes defs) as [classes|e]; [|done].
  destruct ((modify (set_classes classes) ;; accept_file visit defs) init)
    as [[[] g']|e] eqn:H; [|done].
  intros [= ->].
  apply bind_Ok in H as ([] & g1 & [= <-] & H).
  apply (lines_block defs) in H; [done|].
  apply Forall_forall. intros o _ g0 g0'. apply lines_stmt.
Qed.

Lemma wildcard_import_lines_witness :
  let guard := ComparisonExpr ["=="] [NameExpr "__name__"; StrExpr "__main__"] in
  let defs := [ClassDef "C" [] [ImportAll "os"];
               FuncDef "f" [] [] [] [ImportAll "sys"];
               IfStmt [guard] [[ImportAll "re"]] None;
               ImportAll "os"] in
  ∃ g, exec (visit_mypy_file defs) init = Ok g ∧
       _import_lines g = [import_all_line "os"; import_all_line "os"].
Proof.
  intros guard defs. eexists. split; [vm_compute; reflexivity|].
  rewrite (proj2 wildcard_import_lines defs); [reflexivity|].
  vm_compute. reflexivity.
Defined.

End Imports.
